(** * ConfAppManager: the application-policy store, its expiry timer and the
      driver synchronisation, as a shallow embedding of
      [src/ui/conf/confappmanager.cpp], together with the callers that drive
      it: the save of [src/ui/form/prog/programeditdialog.cpp], the
      configuration sync of [src/ui/fortmanager.cpp], and the opened-window
      mask and password check of [src/ui/manager/windowmanager.cpp].

    The SQL statements of the file are functions on a two-table store, the
    member functions of [ConfAppManager] are computations in a state monad
    over a [World] that also report the events they cause (transaction
    boundaries, executed statements, notifications, error boxes and driver
    writes). *)

From Stdlib Require Import ZArith List String Bool Lia.
Import ListNotations.
Open Scope Z_scope.

(** ** Data model *)

(** [struct App] as this file uses it.  [endTime] is a [QDateTime]: [None] is
    the null date-time, [Some t] is [t] milliseconds since the epoch. *)
Record App := mkApp {
  appId : Z;
  appOriginPath : string;
  appPath : string;
  appName : string;
  isWildcard : bool;
  useGroupPerm : bool;
  applyChild : bool;
  killChild : bool;
  lanOnly : bool;
  logBlocked : bool;
  logConn : bool;
  blocked : bool;
  killProcess : bool;
  alerted : bool;
  acceptZones : Z;
  rejectZones : Z;
  groupIndex : Z;
  endTime : option Z
}.

Definition set_appId (v : Z) (a : App) : App :=
  mkApp v (appOriginPath a) (appPath a) (appName a) (isWildcard a)
    (useGroupPerm a) (applyChild a) (killChild a) (lanOnly a) (logBlocked a)
    (logConn a) (blocked a) (killProcess a) (alerted a) (acceptZones a)
    (rejectZones a) (groupIndex a) (endTime a).

Definition set_appPath (v : string) (a : App) : App :=
  mkApp (appId a) (appOriginPath a) v (appName a) (isWildcard a)
    (useGroupPerm a) (applyChild a) (killChild a) (lanOnly a) (logBlocked a)
    (logConn a) (blocked a) (killProcess a) (alerted a) (acceptZones a)
    (rejectZones a) (groupIndex a) (endTime a).

Definition set_blocked (v : bool) (a : App) : App :=
  mkApp (appId a) (appOriginPath a) (appPath a) (appName a) (isWildcard a)
    (useGroupPerm a) (applyChild a) (killChild a) (lanOnly a) (logBlocked a)
    (logConn a) v (killProcess a) (alerted a) (acceptZones a)
    (rejectZones a) (groupIndex a) (endTime a).

Definition set_killProcess (v : bool) (a : App) : App :=
  mkApp (appId a) (appOriginPath a) (appPath a) (appName a) (isWildcard a)
    (useGroupPerm a) (applyChild a) (killChild a) (lanOnly a) (logBlocked a)
    (logConn a) (blocked a) v (alerted a) (acceptZones a)
    (rejectZones a) (groupIndex a) (endTime a).

Definition set_alerted (v : bool) (a : App) : App :=
  mkApp (appId a) (appOriginPath a) (appPath a) (appName a) (isWildcard a)
    (useGroupPerm a) (applyChild a) (killChild a) (lanOnly a) (logBlocked a)
    (logConn a) (blocked a) (killProcess a) v (acceptZones a)
    (rejectZones a) (groupIndex a) (endTime a).

(** The columns of table [app], named as the SQL text names them.  A [NULL]
    [path] or [end_time] is [None]. *)
Module Tbl.
Record app := mk {
  app_id : Z;
  app_group_id : Z;
  origin_path : string;
  path : option string;
  name : string;
  is_wildcard : bool;
  use_group_perm : bool;
  apply_child : bool;
  kill_child : bool;
  lan_only : bool;
  log_blocked : bool;
  log_conn : bool;
  blocked : bool;
  kill_process : bool;
  accept_zones : Z;
  reject_zones : Z;
  end_time : option Z;
  creat_time : Z
}.
End Tbl.

(** The two tables the statements touch: [app] in row order and the ids of
    [app_alert]. *)
Record Store := mkStore {
  app_rows : list Tbl.app;
  app_alert : list Z
}.

(** The seventeen values [addOrUpdateApp] and [updateApp] bind, gathered as a
    row: an empty [appPath] is bound as [NULL], a null [endTime] as [NULL]. *)
Definition bindVars (id gid : Z) (a : App) (now : Z) : Tbl.app :=
  Tbl.mk id gid (appOriginPath a)
    (if String.eqb (appPath a) EmptyString then None else Some (appPath a))
    (appName a) (isWildcard a) (useGroupPerm a) (applyChild a) (killChild a)
    (lanOnly a) (logBlocked a) (logConn a) (blocked a) (killProcess a)
    (acceptZones a) (rejectZones a) (endTime a) now.

(** ** The SQL statements *)

(** Modelled from the spec: the schema is not under src; the spec gives table
    [app] a key [app_id] assigned by the store and a unique constraint on
    [path], and gives [app_alert] one record per id that is removed with its
    [app] row.  A fresh key is one above the largest key in use. *)
Definition next_rowid (rows : list Tbl.app) : Z :=
  1 + fold_right Z.max 0 (map Tbl.app_id rows).

Definition has_id (id : Z) (r : Tbl.app) : bool := Tbl.app_id r =? id.

(** [path = ?] in SQL: never true of a [NULL] on either side. *)
Definition path_is (p : option string) (r : Tbl.app) : bool :=
  match p, Tbl.path r with
  | Some a, Some b => String.eqb a b
  | _, _ => false
  end.

(** [sqlSelectMinEndApp]: [MIN(end_time)] over the rows with
    [end_time != 0 AND blocked = 0]; [None] is the [NULL] of an empty set. *)
Definition pending (r : Tbl.app) : bool :=
  match Tbl.end_time r with
  | Some t => negb (t =? 0) && negb (Tbl.blocked r)
  | None => false
  end.

Fixpoint min_end_time (rows : list Tbl.app) : option Z :=
  match rows with
  | [] => None
  | r :: rest =>
      if pending r then
        match Tbl.end_time r, min_end_time rest with
        | Some t, Some m => Some (Z.min t m)
        | Some t, None => Some t
        | None, m => m
        end
      else min_end_time rest
  end.

Definition sqlSelectMinEndApp (s : Store) : option Z := min_end_time (app_rows s).

(** [QVariant::toLongLong] of a query result: [NULL] reads as 0. *)
Definition toLongLong (v : option Z) : Z :=
  match v with Some z => z | None => 0 end.

(** The [WHERE] clause of [sqlSelectEndedApps]: [end_time <= ?1 AND blocked = 0]. *)
Definition ended (now : Z) (r : Tbl.app) : bool :=
  match Tbl.end_time r with
  | Some t => (t <=? now) && negb (Tbl.blocked r)
  | None => false
  end.

(** [sqlSelectAppIdByPath]. *)
Definition sqlSelectAppIdByPath (p : string) (s : Store) : option Z :=
  option_map Tbl.app_id (find (path_is (Some p)) (app_rows s)).

(** [ON CONFLICT(path) DO UPDATE SET ...]: every bound column but [path] and
    [creat_time] is overwritten; the key stays. *)
Definition on_conflict (v r : Tbl.app) : Tbl.app :=
  Tbl.mk (Tbl.app_id r) (Tbl.app_group_id v) (Tbl.origin_path v) (Tbl.path r)
    (Tbl.name v) (Tbl.is_wildcard v) (Tbl.use_group_perm v) (Tbl.apply_child v)
    (Tbl.kill_child v) (Tbl.lan_only v) (Tbl.log_blocked v) (Tbl.log_conn v)
    (Tbl.blocked v) (Tbl.kill_process v) (Tbl.accept_zones v)
    (Tbl.reject_zones v) (Tbl.end_time v) (Tbl.creat_time r).

Definition with_id (id : Z) (v : Tbl.app) : Tbl.app :=
  Tbl.mk id (Tbl.app_group_id v) (Tbl.origin_path v) (Tbl.path v)
    (Tbl.name v) (Tbl.is_wildcard v) (Tbl.use_group_perm v) (Tbl.apply_child v)
    (Tbl.kill_child v) (Tbl.lan_only v) (Tbl.log_blocked v) (Tbl.log_conn v)
    (Tbl.blocked v) (Tbl.kill_process v) (Tbl.accept_zones v)
    (Tbl.reject_zones v) (Tbl.end_time v) (Tbl.creat_time v).

(** [sqlUpsertApp ... RETURNING app_id]: the new store and the returned key. *)
Definition sqlUpsertApp (v : Tbl.app) (s : Store) : option (Z * Store) :=
  match find (path_is (Tbl.path v)) (app_rows s) with
  | Some r0 =>
      Some (Tbl.app_id r0,
            mkStore (map (fun r => if path_is (Tbl.path v) r then on_conflict v r else r)
                         (app_rows s))
                    (app_alert s))
  | None =>
      let id := next_rowid (app_rows s) in
      Some (id, mkStore (app_rows s ++ [with_id id v]) (app_alert s))
  end.

(** [sqlInsertAppAlert]: a second record for one id violates the key. *)
Definition sqlInsertAppAlert (id : Z) (s : Store) : option (unit * Store) :=
  if existsb (Z.eqb id) (app_alert s) then None
  else Some (tt, mkStore (app_rows s) (app_alert s ++ [id])).

(** [sqlDeleteAppAlert]. *)
Definition sqlDeleteAppAlert (id : Z) (s : Store) : option (unit * Store) :=
  Some (tt, mkStore (app_rows s) (filter (fun i => negb (i =? id)) (app_alert s))).

(** [sqlDeleteApp ... RETURNING path, is_wildcard]: the two columns of the
    deleted row, or no row ([None]) when no row has the id, which is no
    error; the alert record goes with the row (the cascade is the spec's). *)
Definition sqlDeleteApp (id : Z) (s : Store)
  : option (option (option string * bool) * Store) :=
  match find (has_id id) (app_rows s) with
  | Some r =>
      Some (Some (Tbl.path r, Tbl.is_wildcard r),
            mkStore (filter (fun r => negb (has_id id r)) (app_rows s))
                    (filter (fun i => negb (i =? id)) (app_alert s)))
  | None => Some (None, s)
  end.

(** [SET ...] of [sqlUpdateApp]: every column but the key and [creat_time]. *)
Definition overwrite (v r : Tbl.app) : Tbl.app :=
  Tbl.mk (Tbl.app_id r) (Tbl.app_group_id v) (Tbl.origin_path v) (Tbl.path v)
    (Tbl.name v) (Tbl.is_wildcard v) (Tbl.use_group_perm v) (Tbl.apply_child v)
    (Tbl.kill_child v) (Tbl.lan_only v) (Tbl.log_blocked v) (Tbl.log_conn v)
    (Tbl.blocked v) (Tbl.kill_process v) (Tbl.accept_zones v)
    (Tbl.reject_zones v) (Tbl.end_time v) (Tbl.creat_time r).

(** [sqlUpdateApp]: fails on the unique constraint when the row exists and its
    new non-null path is the path of another row. *)
Definition sqlUpdateApp (v : Tbl.app) (s : Store) : option (unit * Store) :=
  let id := Tbl.app_id v in
  if existsb (has_id id) (app_rows s)
     && existsb (fun r => path_is (Tbl.path v) r && negb (has_id id r)) (app_rows s)
  then None
  else Some (tt, mkStore (map (fun r => if has_id id r then overwrite v r else r)
                              (app_rows s))
                         (app_alert s)).

Definition rename (n : string) (r : Tbl.app) : Tbl.app :=
  Tbl.mk (Tbl.app_id r) (Tbl.app_group_id r) (Tbl.origin_path r) (Tbl.path r)
    n (Tbl.is_wildcard r) (Tbl.use_group_perm r) (Tbl.apply_child r)
    (Tbl.kill_child r) (Tbl.lan_only r) (Tbl.log_blocked r) (Tbl.log_conn r)
    (Tbl.blocked r) (Tbl.kill_process r) (Tbl.accept_zones r)
    (Tbl.reject_zones r) (Tbl.end_time r) (Tbl.creat_time r).

(** [sqlUpdateAppName]. *)
Definition sqlUpdateAppName (id : Z) (n : string) (s : Store) : option (unit * Store) :=
  Some (tt, mkStore (map (fun r => if has_id id r then rename n r else r) (app_rows s))
                    (app_alert s)).

(** [SET blocked = ?2, kill_process = ?3, end_time = NULL]. *)
Definition reblock (b k : bool) (r : Tbl.app) : Tbl.app :=
  Tbl.mk (Tbl.app_id r) (Tbl.app_group_id r) (Tbl.origin_path r) (Tbl.path r)
    (Tbl.name r) (Tbl.is_wildcard r) (Tbl.use_group_perm r) (Tbl.apply_child r)
    (Tbl.kill_child r) (Tbl.lan_only r) (Tbl.log_blocked r) (Tbl.log_conn r)
    b k (Tbl.accept_zones r) (Tbl.reject_zones r) None (Tbl.creat_time r).

(** [sqlUpdateAppBlocked]. *)
Definition sqlUpdateAppBlocked (id : Z) (b k : bool) (s : Store) : option (unit * Store) :=
  Some (tt, mkStore (map (fun r => if has_id id r then reblock b k r else r) (app_rows s))
                    (app_alert s)).

(** [sqlSelectAppById] and [sqlSelectEndedApps] join [app_group] for the
    group's [order_index] and [app_alert] for the [alerted] column.  The
    groups are the list of their ids in [order_index] order, the same list
    [FirewallConf::appGroupAt] indexes. *)
Fixpoint index_of (x : Z) (l : list Z) : option Z :=
  match l with
  | [] => None
  | y :: rest => if y =? x then Some 0 else option_map Z.succ (index_of x rest)
  end.

Definition is_alerted (id : Z) (s : Store) : bool := existsb (Z.eqb id) (app_alert s).

Definition select_app_fields (gs : list Z) (s : Store) (r : Tbl.app)
  : option (Tbl.app * Z * bool) :=
  match index_of (Tbl.app_group_id r) gs with
  | Some gi => Some (r, gi, is_alerted (Tbl.app_id r) s)
  | None => None
  end.

Definition sqlSelectAppById (gs : list Z) (id : Z) (s : Store)
  : option (Tbl.app * Z * bool) :=
  match find (has_id id) (app_rows s) with
  | Some r => select_app_fields gs s r
  | None => None
  end.

Fixpoint select_rows (gs : list Z) (s : Store) (rows : list Tbl.app)
  : list (Tbl.app * Z * bool) :=
  match rows with
  | [] => []
  | r :: rest =>
      match select_app_fields gs s r with
      | Some x => x :: select_rows gs s rest
      | None => select_rows gs s rest
      end
  end.

Definition sqlSelectEndedApps (gs : list Z) (now : Z) (s : Store)
  : list (Tbl.app * Z * bool) :=
  select_rows gs s (filter (ended now) (app_rows s)).

(** [FirewallConf::appGroupAt(index)->id()]; [None] is the null group of an
    index out of range. *)
Definition appGroupAt (gs : list Z) (i : Z) : option Z :=
  if i <? 0 then None else nth_error gs (Z.to_nat i).

(** ** The world of a [ConfAppManager] and the events of a call *)

Inductive Signal := appAlerted | appChanged | appUpdated.

Inductive ErrorSource := ErrSqliteDb | ErrConfUtil | ErrDriverManager.

Inductive Event :=
| EvBegin
| EvCommit (committed : Store)
| EvRollback
| EvExec (ok : bool)
| EvErrorBox (src : ErrorSource)
| EvEmit (sg : Signal)
| EvWriteApp (a : App) (remove : bool) (ok : bool)
| EvWriteConf (onlyFlags : bool) (ok : bool).

(** [db] is the database as the connection sees it and [txn] the state a
    rollback returns to; [appEndTimer] is [Some interval] while
    [m_appEndTimer] is active; [sqlOutcomes] and [drvOutcomes] say whether the
    coming statements and driver writes get through ([false] is an
    input/output failure, an exhausted list is success). *)
Record World := mkWorld {
  db : Store;
  txn : option Store;
  appEndTimer : option Z;
  m_driveMask : Z;
  currentMSecs : Z;
  groups : list Z;
  sqlOutcomes : list bool;
  drvOutcomes : list bool
}.

Definition set_db (s : Store) (w : World) : World :=
  mkWorld s (txn w) (appEndTimer w) (m_driveMask w) (currentMSecs w) (groups w)
    (sqlOutcomes w) (drvOutcomes w).

Definition set_txn (t : option Store) (w : World) : World :=
  mkWorld (db w) t (appEndTimer w) (m_driveMask w) (currentMSecs w) (groups w)
    (sqlOutcomes w) (drvOutcomes w).

Definition set_appEndTimer (t : option Z) (w : World) : World :=
  mkWorld (db w) (txn w) t (m_driveMask w) (currentMSecs w) (groups w)
    (sqlOutcomes w) (drvOutcomes w).

Definition set_driveMask (m : Z) (w : World) : World :=
  mkWorld (db w) (txn w) (appEndTimer w) m (currentMSecs w) (groups w)
    (sqlOutcomes w) (drvOutcomes w).

Definition set_sqlOutcomes (o : list bool) (w : World) : World :=
  mkWorld (db w) (txn w) (appEndTimer w) (m_driveMask w) (currentMSecs w) (groups w)
    o (drvOutcomes w).

Definition set_drvOutcomes (o : list bool) (w : World) : World :=
  mkWorld (db w) (txn w) (appEndTimer w) (m_driveMask w) (currentMSecs w) (groups w)
    (sqlOutcomes w) o.

(** State passing with an event log: a call maps the world to its result, the
    new world and the events it caused, oldest first. *)
Definition M (A : Type) : Type := World -> A * World * list Event.

Definition ret {A : Type} (a : A) : M A := fun w => (a, w, []).

Definition bind {A B : Type} (m : M A) (k : A -> M B) : M B :=
  fun w =>
    let '(a, w1, e1) := m w in
    let '(b, w2, e2) := k a w1 in
    (b, w2, e1 ++ e2).

Definition gets {A : Type} (f : World -> A) : M A := fun w => (f w, w, []).

Definition modify (f : World -> World) : M unit := fun w => (tt, f w, []).

Definition emit (e : Event) : M unit := fun w => (tt, w, [e]).

Declare Scope conf_scope.
Delimit Scope conf_scope with conf.
Notation "x <- m ;; k" := (bind m (fun x => k))
  (at level 61, m at next level, right associativity) : conf_scope.
Notation "m ;; k" := (bind m (fun _ => k))
  (at level 61, right associativity) : conf_scope.
Open Scope conf_scope.

Definition result {A : Type} (r : A * World * list Event) : A := fst (fst r).
Definition world {A : Type} (r : A * World * list Event) : World := snd (fst r).
Definition events {A : Type} (r : A * World * list Event) : list Event := snd r.

Definition isSome {A : Type} (o : option A) : bool :=
  match o with Some _ => true | None => false end.

(** ** SqliteDb *)

(** Modelled from the spec: [SqliteDb] is not under src.  A transaction
    remembers the state it began in; ending it with [ok] commits, ending it
    without rolls back to that state and reports failure. *)
Definition beginTransaction : M bool :=
  s <- gets db ;;
  modify (set_txn (Some s)) ;;
  emit EvBegin ;;
  ret true.

Definition endTransaction (ok : bool) : M bool :=
  if ok then
    s <- gets db ;;
    modify (set_txn None) ;;
    emit (EvCommit s) ;;
    ret true
  else
    t <- gets txn ;;
    modify (fun w => set_txn None (match t with Some s => set_db s w | None => w end)) ;;
    emit EvRollback ;;
    ret false.

(** [SqliteDb::executeEx] of a statement that writes: [None] is [ok = false].
    A statement that fails, by an input/output failure or by a constraint,
    changes nothing. *)
Definition executeEx {R : Type} (stmt : Store -> option (R * Store)) : M (option R) :=
  fun w =>
    let w1 := set_sqlOutcomes (tl (sqlOutcomes w)) w in
    match sqlOutcomes w with
    | false :: _ => (None, w1, [EvExec false])
    | _ =>
        match stmt (db w) with
        | Some (r, s') => (Some r, set_db s' w1, [EvExec true])
        | None => (None, w1, [EvExec false])
        end
    end.

(** [DriverManager::writeApp] and [DriverManager::writeConf]. *)
Definition driver_write (ev : bool -> Event) : M bool :=
  fun w =>
    let ok := match drvOutcomes w with false :: _ => false | _ => true end in
    (ok, set_drvOutcomes (tl (drvOutcomes w)) w, [ev ok]).

(** [SqliteDb::prepare] of a statement whose rows the caller steps through:
    [false] is a statement that could not be prepared, on the same
    input/output outcomes as [executeEx].  Stepping then reads the rows of
    the store in row order. *)
Definition prepare : M bool :=
  fun w =>
    (match sqlOutcomes w with false :: _ => false | _ => true end,
     set_sqlOutcomes (tl (sqlOutcomes w)) w, []).

(** The world after [n] statements have been prepared or run: their
    outcomes are consumed, nothing else differs. *)
Definition after_statements (n : nat) (w : World) : World :=
  set_sqlOutcomes (skipn n (sqlOutcomes w)) w.

(** [stmt.columnText] of a [NULL] is the empty string. *)
Definition columnText (v : option string) : string :=
  match v with Some p => p | None => EmptyString end.

(** [stmt.columnUInt]: the column as a [quint32]. *)
Definition columnUInt (v : Z) : Z := v mod 2 ^ 32.

(** ** ConfAppManager *)

Definition APP_END_TIMER_INTERVAL_MIN : Z := 100.
Definition APP_END_TIMER_INTERVAL_MAX : Z := 24 * 60 * 60 * 1000.

(** Arithmetic on [qint64] wraps around. *)
Definition wrap64 (z : Z) : Z := (z + 2 ^ 63) mod 2 ^ 64 - 2 ^ 63.

Definition showErrorMessage (src : ErrorSource) : M unit := emit (EvErrorBox src).

Definition checkEndTransaction (ok : bool) : M bool :=
  if ok then ret true else (showErrorMessage ErrSqliteDb ;; ret false).

Definition commitTransaction (ok : bool) : M bool :=
  ok' <- endTransaction ok ;;
  checkEndTransaction ok'.

Definition emitAppAlerted : M unit := emit (EvEmit appAlerted).
Definition emitAppChanged : M unit := emit (EvEmit appChanged).
Definition emitAppUpdated : M unit := emit (EvEmit appUpdated).

Definition timer_interval (endTimeMsecs currentMsecs : Z) : Z :=
  let deltaMsecs := wrap64 (endTimeMsecs - currentMsecs) in
  Z.max (if 0 <? deltaMsecs then Z.min deltaMsecs APP_END_TIMER_INTERVAL_MAX else 0)
        APP_END_TIMER_INTERVAL_MIN.

Definition updateAppEndTimer : M unit :=
  endTimeMsecs <- gets (fun w => toLongLong (sqlSelectMinEndApp (db w))) ;;
  if negb (endTimeMsecs =? 0) then
    currentMsecs <- gets currentMSecs ;;
    modify (set_appEndTimer (Some (timer_interval endTimeMsecs currentMsecs)))
  else
    modify (set_appEndTimer None).

Definition appIdByPath (appPath : string) : M Z :=
  gets (fun w => toLongLong (sqlSelectAppIdByPath appPath (db w))).

(** [fillApp]: the sixteen selected columns; [appName] and [endTime] are not
    among them and keep what [app] held.  The two zone masks are read with
    [columnUInt]. *)
Definition fillApp (app : App) (rec : Tbl.app * Z * bool) : App :=
  let '(r, group_index, alert) := rec in
  mkApp (Tbl.app_id r) (Tbl.origin_path r)
    (match Tbl.path r with Some p => p | None => EmptyString end)
    (appName app) (Tbl.is_wildcard r) (Tbl.use_group_perm r) (Tbl.apply_child r)
    (Tbl.kill_child r) (Tbl.lan_only r) (Tbl.log_blocked r) (Tbl.log_conn r)
    (Tbl.blocked r) (Tbl.kill_process r) alert (columnUInt (Tbl.accept_zones r))
    (columnUInt (Tbl.reject_zones r)) group_index (endTime app).

(** [loadAppById]: [None] is the [false] of a statement that could not be
    prepared or that stepped to no row. *)
Definition loadAppById (app : App) : M (option App) :=
  ok <- prepare ;;
  if negb ok then ret None
  else
    gets (fun w => option_map (fillApp app)
                     (sqlSelectAppById (groups w) (appId app) (db w))).

Definition prepareAppBlocked (app : App) (blocked' killProcess' : bool) : bool * App :=
  let wasAlerted := alerted app in
  let app := set_alerted false app in
  if negb wasAlerted && (Bool.eqb (blocked app) blocked'
                         && Bool.eqb (killProcess app) killProcess')
  then (false, app)
  else (true, set_killProcess killProcess' (set_blocked blocked' app)).

(** ** Reading an event log *)

(** The store as the last commit of the log left it, [s] when the log has no
    commit. *)
Fixpoint last_committed (s : Store) (evs : list Event) : Store :=
  match evs with
  | [] => s
  | EvCommit s' :: rest => last_committed s' rest
  | _ :: rest => last_committed s rest
  end.

(** Reading a log with two flags, "a commit has happened" and "a transaction
    is open": a driver write is in order when the first holds and the second
    does not. *)
Definition step_phase (st : bool * bool) (e : Event) : option (bool * bool) :=
  match e with
  | EvBegin => Some (fst st, true)
  | EvCommit _ => Some (true, false)
  | EvRollback => Some (fst st, false)
  | EvWriteApp _ _ _ | EvWriteConf _ _ =>
      if fst st && negb (snd st) then Some st else None
  | _ => Some st
  end.

Fixpoint run_phase (st : bool * bool) (evs : list Event) : option (bool * bool) :=
  match evs with
  | [] => Some st
  | e :: rest =>
      match step_phase st e with
      | Some st' => run_phase st' rest
      | None => None
      end
  end.

Definition sync_follows_commit (evs : list Event) : bool :=
  isSome (run_phase (false, false) evs).

Definition is_entry_push (e : Event) : bool :=
  match e with EvWriteApp _ _ _ => true | _ => false end.

Definition is_removal_push (e : Event) : bool :=
  match e with EvWriteApp _ true _ => true | _ => false end.

Definition is_snapshot_push (e : Event) : bool :=
  match e with EvWriteConf false _ => true | _ => false end.

Definition is_conf_push (e : Event) : bool :=
  match e with EvWriteConf _ _ => true | _ => false end.

Definition is_emit (e : Event) : bool :=
  match e with EvEmit _ => true | _ => false end.

Definition is_commit (e : Event) : bool :=
  match e with EvCommit _ => true | _ => false end.

Definition count (f : Event -> bool) (evs : list Event) : nat :=
  List.length (filter f evs).

(** The first [n] coming statements meet no input/output failure. *)
Fixpoint io_ok (n : nat) (outcomes : list bool) : bool :=
  match n, outcomes with
  | O, _ => true
  | S _, [] => true
  | S n', o :: rest => o && io_ok n' rest
  end.

(** ** The timer interval as the specification words it *)

Definition clamp (x lo hi : Z) : Z := Z.min (Z.max x lo) hi.

Definition spec_interval (deadline now : Z) : Z :=
  Z.max (clamp (deadline - now) 0 (24 * 60 * 60 * 1000)) 100.

(** [m] is the earliest [end_time] among the rows with
    [end_time != 0 AND blocked = 0]. *)
Definition is_min_pending (rows : list Tbl.app) (m : Z) : Prop :=
  (exists r, In r rows /\ pending r = true /\ Tbl.end_time r = Some m)
  /\ (forall r t, In r rows -> pending r = true -> Tbl.end_time r = Some t -> m <= t).

(** ** Store invariants *)

(** No row is blocked and still carries an [end_time]. *)
Definition row_ok (r : Tbl.app) : bool :=
  negb (Tbl.blocked r && isSome (Tbl.end_time r)).

Definition no_blocked_deadline (s : Store) : bool := forallb row_ok (app_rows s).

(** The calls a [ConfAppManager] takes from its users, the log, its timer and
    the clock. *)
Inductive Call :=
| CallAddApp (app : App)
| CallUpdateApp (app : App)
| CallDeleteApps (appIdList : list Z)
| CallUpdateAppsBlocked (appIdList : list Z) (blocked' killProcess' : bool)
| CallUpdateAppName (appId' : Z) (appName' : string)
| CallLogBlockedApp (logPath : string) (logBlocked' : bool)
| CallUpdateAppEndTimes
| CallUpdateAppEndTimer
| CallClock (now : Z).

(** What the edit dialog's [fillApp] guarantees of the entries it passes to
    [addApp] and [updateApp]: it sets [endTime] only under [!app.blocked]. *)
Definition dialog_entry (app : App) : bool :=
  negb (blocked app && isSome (endTime app)).

Definition from_dialog (c : Call) : bool :=
  match c with
  | CallAddApp app | CallUpdateApp app => dialog_entry app
  | _ => true
  end.

(** The rows with path [p]. *)
Definition rows_at (p : string) (s : Store) : list Tbl.app :=
  filter (path_is (Some p)) (app_rows s).

(** The row an expiry leaves: blocked, not killing, without [end_time]; the
    name is the empty one of a fresh [App], a path read back as the empty
    string is bound as [NULL], and the zone masks are written back as they
    were read, as 32-bit values. *)
Definition expired_row (r : Tbl.app) : Tbl.app :=
  Tbl.mk (Tbl.app_id r) (Tbl.app_group_id r) (Tbl.origin_path r)
    (match Tbl.path r with
     | Some p => if String.eqb p EmptyString then None else Some p
     | None => None
     end)
    EmptyString (Tbl.is_wildcard r) (Tbl.use_group_perm r) (Tbl.apply_child r)
    (Tbl.kill_child r) (Tbl.lan_only r) (Tbl.log_blocked r) (Tbl.log_conn r)
    true false (columnUInt (Tbl.accept_zones r)) (columnUInt (Tbl.reject_zones r))
    None (Tbl.creat_time r).

Definition row_of (rec : Tbl.app * Z * bool) : Tbl.app := fst (fst rec).

Definition expire_in (recs : list (Tbl.app * Z * bool)) (x : Tbl.app) : bool :=
  existsb (fun rec => has_id (Tbl.app_id (row_of rec)) x) recs.

(** The schema's constraints on a store: keys are distinct, a non-null path
    belongs to one row, and every row's group is one of [gs]. *)
Fixpoint distinct (l : list Z) : bool :=
  match l with
  | [] => true
  | x :: rest => negb (existsb (Z.eqb x) rest) && distinct rest
  end.

Definition unique_paths (rows : list Tbl.app) : bool :=
  forallb (fun r1 =>
             forallb (fun r2 => implb (path_is (Tbl.path r1) r2)
                                      (Tbl.app_id r1 =? Tbl.app_id r2)) rows)
          rows.

Definition store_wf (gs : list Z) (s : Store) : bool :=
  distinct (map Tbl.app_id (app_rows s))
  && unique_paths (app_rows s)
  && forallb (fun r => isSome (index_of (Tbl.app_group_id r) gs)) (app_rows s).

(** No coming statement meets an input/output failure. *)
Definition no_io_failure (outcomes : list bool) : bool := forallb (fun o => o) outcomes.

(** A driver sync was attempted: a write, or an encode that failed. *)
Definition is_sync_attempt (e : Event) : bool :=
  match e with
  | EvWriteApp _ _ _ | EvWriteConf _ _ | EvErrorBox ErrConfUtil => true
  | _ => false
  end.

Definition is_updated_emit (e : Event) : bool :=
  match e with EvEmit appUpdated => true | _ => false end.

(** ** A concrete manager

    Encoders that always succeed (an entry on drive bit 1, a configuration on
    drive bit 2), the identity for path normalisation, and two groups with
    ids 10 and 20. *)

Definition sample_initApp : App :=
  mkApp 0 EmptyString EmptyString EmptyString false true false false false
    true true false false false 0 0 0 None.

Definition sample_writeAppEntry (a : App) : option Z := Some 2.

Definition sample_writeConf (onlyFlags : bool) (gs : list Z) (s : Store) : option Z :=
  Some 4.

Definition sample_normalizePath (p : string) : string := p.

Definition sample_at_out_of_range : option string * bool := (None, false).

Definition sample_appInfoName (p : string) : string := p.

Definition sample_row (id : Z) (p : string) (wild blocked' : bool) (end_time' : option Z)
  : Tbl.app :=
  Tbl.mk id 10 p (Some p) p wild true false false false true true blocked' false
    0 0 end_time' 0.

Definition sample_app (id : Z) (p : string) (blocked' alerted' : bool)
    (endTime' : option Z) : App :=
  mkApp id p p p false true false false false true true blocked' false alerted'
    0 0 0 endTime'.

Definition sample_world (rows : list Tbl.app) (alerts : list Z) (now : Z)
    (sqlO drvO : list bool) : World :=
  mkWorld (mkStore rows alerts) None None 1 now [10; 20] sqlO drvO.

Definition eight_rows : list Tbl.app :=
  [sample_row 1 "p1" false false None; sample_row 2 "p2" false false None;
   sample_row 3 "p3" false false None; sample_row 4 "p4" false false None;
   sample_row 5 "p5" false false None; sample_row 6 "p6" false false None;
   sample_row 7 "p7" false false None; sample_row 8 "p8" false false None].

Definition three_rows : list Tbl.app :=
  [sample_row 1 "p1" false false (Some 10); sample_row 2 "p2" false false (Some 20);
   sample_row 3 "p3" false false (Some 30)].

(** The entry [loadAppById] builds from the values of [app]: the name and the
    end time are not read from the store and stay those of the entry passed
    in, the zone masks are read as 32-bit values, [alerted] is the given
    flag. *)
Definition reloaded (app x : App) (alerted' : bool) : App :=
  mkApp (appId app) (appOriginPath app) (appPath app) (appName x) (isWildcard app)
    (useGroupPerm app) (applyChild app) (killChild app) (lanOnly app)
    (logBlocked app) (logConn app) (blocked app) (killProcess app) alerted'
    (columnUInt (acceptZones app)) (columnUInt (rejectZones app)) (groupIndex app)
    (endTime x).

(** ** The discipline of a log *)

(** Reading a log with one flag, "a transaction is open": a begin needs it
    down, a commit or a rollback needs it up, and a driver write or an
    emission needs it down. *)
Definition txn_step (opened : bool) (e : Event) : option bool :=
  match e with
  | EvBegin => if opened then None else Some true
  | EvCommit _ | EvRollback => if opened then Some false else None
  | EvWriteApp _ _ _ | EvWriteConf _ _ | EvEmit _ =>
      if opened then None else Some false
  | _ => Some opened
  end.

Fixpoint txn_run (opened : bool) (evs : list Event) : option bool :=
  match evs with
  | [] => Some opened
  | e :: rest =>
      match txn_step opened e with
      | Some o => txn_run o rest
      | None => None
      end
  end.

Definition is_rollback (e : Event) : bool :=
  match e with EvRollback => true | _ => false end.

Definition is_db_error (e : Event) : bool :=
  match e with EvErrorBox ErrSqliteDb => true | _ => false end.

Definition is_error_box (e : Event) : bool :=
  match e with EvErrorBox _ => true | _ => false end.

(** A computation keeps the schema's constraints and the configuration's
    groups. *)
Definition schema_kept {A : Type} (m : M A) : Prop :=
  forall w, store_wf (groups w) (db w) = true ->
            groups (world (m w)) = groups w
            /\ store_wf (groups w) (db (world (m w))) = true.

(** ** Reading all rows *)

(** [sqlSelectAppPaths]: [SELECT app_id, path FROM app]. *)
Definition sqlSelectAppPaths (s : Store) : list (Z * string) :=
  map (fun r => (Tbl.app_id r, columnText (Tbl.path r))) (app_rows s).

(** [sqlSelectApps]: every row of [app] that joins a group, with its group
    index and alerted column. *)
Definition sqlSelectApps (gs : list Z) (s : Store) : list (Tbl.app * Z * bool) :=
  select_rows gs s (app_rows s).

(** The longest prefix of [l] up to and including the first element [f]
    rejects. *)
Fixpoint through_first_rejected {A : Type} (f : A -> bool) (l : list A) : list A :=
  match l with
  | [] => []
  | a :: rest => a :: (if f a then through_first_rejected f rest else [])
  end.

(** ** The program edit dialog *)

(** What [save] reads of the dialog: the row and the ids it was initialized
    with and the state of its widgets. *)
Record Dialog := mkDialog {
  m_appRow : App;
  m_appIdList : list Z;
  m_editPath : string;
  m_editWildcard : string;
  m_editName : string;
  m_comboAppGroup : Z;
  m_cbUseGroupPerm : bool;
  m_cbApplyChild : bool;
  m_cbKillChild : bool;
  m_cbLanOnly : bool;
  m_cbLogBlocked : bool;
  m_cbLogConn : bool;
  m_rbAllowApp : bool;
  m_rbKillProcess : bool;
  m_btZones_zones : Z;
  m_btZones_uncheckedZones : Z;
  m_cscBlockAppIn_checked : bool;
  m_cscBlockAppIn_value : Z;
  m_cbBlockAppAt : bool;
  m_dteBlockAppAt : option Z
}.

(** Arithmetic on [int] wraps around. *)
Definition wrap32 (z : Z) : Z := (z + 2 ^ 31) mod 2 ^ 32 - 2 ^ 31.

(** [QDateTime::addSecs] on a date-time held in milliseconds. *)
Definition addSecs (t secs : Z) : Z := t + secs * 1000.

(** The range [setupExtraLayout] gives the "Block In" spin box. *)
Definition BLOCK_IN_HOURS_MAX : Z := 24 * 30 * 12.

Definition ProgramEditDialog_isWildcard (d : Dialog) : bool := isWildcard (m_appRow d).

Definition validateFields (d : Dialog) : bool :=
  let isPathEmpty :=
    if ProgramEditDialog_isWildcard d then String.eqb (m_editWildcard d) EmptyString
    else String.eqb (m_editPath d) EmptyString in
  if isPathEmpty then false
  else if String.eqb (m_editName d) EmptyString then false
  else true.

(** The state [updateAppEndTimer] leaves the timer in, for a store and a
    clock. *)
Definition timer_of (s : Store) (now : Z) : option Z :=
  match min_end_time (app_rows s) with
  | Some m => Some (timer_interval m now)
  | None => None
  end.

(** ** FortManager *)

(** What [FortManager::updateDriverConf] and the [confChanged] handler do
    around the manager's own events: [LogManager::setActive],
    [StatManager::setConf] and [updateLogger]. *)
Inductive FortEvent :=
| EvLogActive (active : bool)
| EvStatConf
| EvUpdateLogger
| EvConfApp (e : Event).

(** Reading a log with the flag "the log manager is active": a driver write
    needs it down. *)
Definition log_step (active : bool) (e : FortEvent) : option bool :=
  match e with
  | EvLogActive a => Some a
  | EvConfApp (EvWriteConf _ _) | EvConfApp (EvWriteApp _ _ _) =>
      if active then None else Some active
  | _ => Some active
  end.

Fixpoint log_run (active : bool) (evs : list FortEvent) : option bool :=
  match evs with
  | [] => Some active
  | e :: rest =>
      match log_step active e with
      | Some a => log_run a rest
      | None => None
      end
  end.

Definition is_stat_conf (e : FortEvent) : bool :=
  match e with EvStatConf => true | _ => false end.

Definition is_accepted_conf (e : FortEvent) : bool :=
  match e with EvConfApp (EvWriteConf _ true) => true | _ => false end.

Definition fort_count (f : FortEvent -> bool) (evs : list FortEvent) : nat :=
  List.length (filter f evs).

(** ** WindowManager *)

Inductive WindowEvent :=
| EvVisibility (code : Z) (isVisible : bool)
| EvActivateModal
| EvPasswordDialog.

(** What [PasswordDialog::exec] came back with. *)
Record PasswordBox := mkPasswordBox {
  accepted : bool;
  password : string;
  unlockType : Z
}.

(** [~x] on a [quint32]. *)
Definition not32 (x : Z) : Z := Z.lxor x (Z.ones 32).

Definition is_password_dialog (e : WindowEvent) : bool :=
  match e with EvPasswordDialog => true | _ => false end.

Definition count_windows (f : WindowEvent -> bool) (evs : list WindowEvent) : nat :=
  List.length (filter f evs).

Section WindowManager.

(** [FortSettings], [ConfManager::checkPassword] and the window codes of
    windowmanager.h are not under src. *)
Variable Settings : Type.
Variable WindowPasswordProtected : Z.
Variable WindowPasswordDialog : Z.
Variable isPasswordRequired : Settings -> bool.
Variable passwordChecked : Settings -> bool.
Variable setPasswordChecked : bool -> Z -> Settings -> Settings.
Variable confCheckPassword : string -> bool.

(** [m_openedWindows] and the settings. *)
Definition WindowState : Type := Z * Settings.

Definition windowOpened (code : Z) (st : WindowState) : WindowState * list WindowEvent :=
  ((Z.lor (fst st) code, snd st), [EvVisibility code true]).

Definition windowClosed (code : Z) (st : WindowState) : WindowState * list WindowEvent :=
  ((Z.land (fst st) (not32 code), snd st), [EvVisibility code false]).

Definition isAnyWindowOpen (codes : Z) (st : WindowState) : bool :=
  negb (Z.land (fst st) codes =? 0).

Definition showPasswordDialog (box : PasswordBox) : option (string * Z) :=
  if negb (accepted box) then None
  else if String.eqb (password box) EmptyString then None
  else Some (password box, unlockType box).

Definition checkPassword (box : PasswordBox) (st : WindowState)
  : bool * WindowState * list WindowEvent :=
  if isAnyWindowOpen WindowPasswordDialog st then (false, st, [EvActivateModal])
  else if isAnyWindowOpen WindowPasswordProtected st then (true, st, [])
  else if negb (isPasswordRequired (snd st)) then (true, st, [])
  else
    let '(st1, e1) := windowOpened WindowPasswordDialog st in
    let st2 :=
      match showPasswordDialog box with
      | Some (pw, ut) =>
          if confCheckPassword pw then (fst st1, setPasswordChecked true ut (snd st1))
          else st1
      | None => st1
      end in
    let '(st3, e3) := windowClosed WindowPasswordDialog st2 in
    (passwordChecked (snd st3), st3, e1 ++ [EvPasswordDialog] ++ e3).

Definition checkWindowPassword (code : Z) (box : PasswordBox) (st : WindowState)
  : bool * WindowState * list WindowEvent :=
  if Z.land WindowPasswordProtected code =? 0 then (true, st, [])
  else checkPassword box st.

End WindowManager.

Arguments windowOpened {Settings}.
Arguments windowClosed {Settings}.
Arguments isAnyWindowOpen {Settings}.
Arguments checkPassword {Settings}.
Arguments checkWindowPassword {Settings}.

(** ** A concrete dialog, file system and window manager

    Every path is a drive file path and only "p2" exists; the dialog adds an
    allowed program "a" in the first group, to be blocked in six hours; the
    password is "pw" and the settings are the flag "the password was
    checked". *)

Definition sample_isDriveFilePath (p : string) : bool := true.

Definition sample_fileExists (p : string) : bool := String.eqb p "p2".

Definition sample_isOptionsEqual (a b : App) : bool :=
  Bool.eqb (blocked a) (blocked b) && Bool.eqb (killProcess a) (killProcess b).

Definition sample_isNameEqual (a b : App) : bool := String.eqb (appName a) (appName b).

Definition sample_appRowById (w : World) (id : Z) : App :=
  mkApp id "p"%string "p"%string "p"%string false true false false false true true
    false false false 0 0 0 None.

Definition sample_group_app (gi : Z) (endTime' : option Z) : App :=
  mkApp 0 "a"%string "a"%string "a"%string false true false false false true true
    false false false 0 0 gi endTime'.

Definition sample_dialog (ids : list Z) (name' : string) : Dialog :=
  mkDialog (sample_group_app 0 None) ids "a"%string EmptyString name' 0
    true false false false true true true false 0 0 true 6 false None.

Definition sample_box : PasswordBox := mkPasswordBox true "pw"%string 1.


Section Manager.

(** The collaborators whose code is not under src.  [writeAppEntry] is
    [ConfUtil::writeAppEntry] and [writeConf] is [ConfUtil::write] or, with
    [onlyFlags], [ConfUtil::writeFlags]: [None] is an entry or configuration
    size of 0, [Some mask] a written buffer together with
    [confUtil.driveMask()].  [initApp] holds the member initialisers of
    [struct App]; [normalizePath] is [FileUtil::normalizePath] and
    [appInfoName] is [AppInfoCache::appName]. *)
Variable writeAppEntry : App -> option Z.
Variable writeConf : bool -> list Z -> Store -> option Z.
Variable initApp : App.
Variable normalizePath : string -> string.
Variable appInfoName : string -> string.

(** [App app;]: the strings are empty and the date-time is null. *)
Definition newApp : App :=
  mkApp (appId initApp) EmptyString EmptyString EmptyString (isWildcard initApp)
    (useGroupPerm initApp) (applyChild initApp) (killChild initApp)
    (lanOnly initApp) (logBlocked initApp) (logConn initApp) (blocked initApp)
    (killProcess initApp) (alerted initApp) (acceptZones initApp)
    (rejectZones initApp) (groupIndex initApp) None.

Definition updateDriverConf (onlyFlags : bool) : M bool :=
  conf <- gets (fun w => writeConf onlyFlags (groups w) (db w)) ;;
  match conf with
  | None => showErrorMessage ErrConfUtil ;; ret false
  | Some mask =>
      ok <- driver_write (EvWriteConf onlyFlags) ;;
      if ok then modify (set_driveMask mask) ;; ret true
      else showErrorMessage ErrDriverManager ;; ret false
  end.

Definition updateDriverUpdateApp (app : App) (remove : bool) : M bool :=
  match writeAppEntry app with
  | None => showErrorMessage ErrConfUtil ;; ret false
  | Some mask =>
      ok <- driver_write (EvWriteApp app remove) ;;
      if ok then
        modify (fun w => set_driveMask
                           (Z.lor (m_driveMask w) (if remove then 0 else mask)) w) ;;
        ret true
      else showErrorMessage ErrDriverManager ;; ret false
  end.

Definition updateDriverDeleteApp (appPath : string) : M bool :=
  updateDriverUpdateApp (set_appPath appPath newApp) true.

Definition updateDriverUpdateAppConf (app : App) : M bool :=
  if isWildcard app then updateDriverConf false else updateDriverUpdateApp app false.

Definition addOrUpdateApp (app : App) : M bool :=
  appGroup <- gets (fun w => appGroupAt (groups w) (groupIndex app)) ;;
  match appGroup with
  | None => ret false
  | Some gid =>
      beginTransaction ;;
      now <- gets currentMSecs ;;
      appIdVar <- executeEx (sqlUpsertApp (bindVars 0 gid app now)) ;;
      let ok := isSome appIdVar in
      (if ok then
         let appId' := toLongLong appIdVar in
         executeEx (if alerted app then sqlInsertAppAlert appId'
                    else sqlDeleteAppAlert appId') ;;
         ret tt
       else ret tt) ;;
      commitTransaction ok ;;
      if ok then
        (if isSome (endTime app) then updateAppEndTimer else ret tt) ;;
        emitAppChanged ;;
        ret true
      else ret false
  end.

Definition addApp (app : App) : M bool :=
  ok <- addOrUpdateApp app ;;
  if ok then updateDriverUpdateAppConf app ;; ret true
  else ret false.

(** The entry [logBlockedApp] builds for a log entry with the given path and
    blocked flag. *)
Definition alertedApp (logPath : string) (logBlocked' : bool) : App :=
  mkApp (appId newApp) logPath (normalizePath logPath) (appInfoName logPath)
    (isWildcard newApp) (useGroupPerm newApp) (applyChild newApp)
    (killChild newApp) (lanOnly newApp) (logBlocked newApp) (logConn newApp)
    logBlocked' (killProcess newApp) true (acceptZones newApp)
    (rejectZones newApp) 0 (endTime newApp).

Definition logBlockedApp (logPath : string) (logBlocked' : bool) : M unit :=
  let appPath' := normalizePath logPath in
  id <- appIdByPath appPath' ;;
  if 0 <? id then ret tt
  else
    ok <- addOrUpdateApp (alertedApp logPath logBlocked') ;;
    if ok then emitAppAlerted else ret tt.

(** [resList.at(0)] and [resList.at(1)] where the statement returned no row:
    the list is empty and the index out of range, which [QList] leaves
    undefined.  What the two reads give there is left open. *)
Variable at_out_of_range : option string * bool.

(** [deleteApp(appId, isWildcard)]: the result and the flag passed by
    reference. *)
Definition deleteApp (appId' : Z) (isWildcard' : bool) : M (bool * bool) :=
  beginTransaction ;;
  resList <- executeEx (sqlDeleteApp appId') ;;
  ok <- (if isSome resList
         then r <- executeEx (sqlDeleteAppAlert appId') ;; ret (isSome r)
         else ret false) ;;
  commitTransaction ok ;;
  match resList, ok with
  | Some row, true =>
      let '(path, wild) :=
        match row with Some columns => columns | None => at_out_of_range end in
      let appPath' := match path with Some p => p | None => EmptyString end in
      flag <- (if wild then ret true
               else updateDriverDeleteApp appPath' ;; ret isWildcard') ;;
      emitAppChanged ;;
      ret (true, flag)
  | _, _ => ret (false, isWildcard')
  end.

Fixpoint deleteApps_each (appIdList : list Z) (isWildcard' : bool) : M bool :=
  match appIdList with
  | [] => ret isWildcard'
  | appId' :: rest =>
      r <- deleteApp appId' isWildcard' ;;
      deleteApps_each rest (snd r)
  end.

Definition deleteApps (appIdList : list Z) : M unit :=
  isWildcard' <- deleteApps_each appIdList false ;;
  if isWildcard' then updateDriverConf false ;; ret tt else ret tt.

Definition updateApp (app : App) : M bool :=
  appGroup <- gets (fun w => appGroupAt (groups w) (groupIndex app)) ;;
  match appGroup with
  | None => ret false
  | Some gid =>
      beginTransaction ;;
      r <- executeEx (sqlUpdateApp (bindVars (appId app) gid app 0)) ;;
      ok <- (if isSome r
             then r' <- executeEx (sqlDeleteAppAlert (appId app)) ;; ret (isSome r')
             else ret false) ;;
      commitTransaction ok ;;
      if ok then
        (if isSome (endTime app) then updateAppEndTimer else ret tt) ;;
        emitAppUpdated ;;
        updateDriverUpdateAppConf app ;;
        ret true
      else ret false
  end.

Definition saveAppBlocked (app : App) : M bool :=
  beginTransaction ;;
  r <- executeEx (sqlUpdateAppBlocked (appId app) (blocked app) (killProcess app)) ;;
  ok <- (if isSome r
         then r' <- executeEx (sqlDeleteAppAlert (appId app)) ;; ret (isSome r')
         else ret false) ;;
  commitTransaction ok ;;
  if ok then emitAppUpdated ;; ret true else ret false.

(** [updateAppBlocked(appId, blocked, killProcess, isWildcard)]: the result
    and the flag passed by reference. *)
Definition updateAppBlocked (appId' : Z) (blocked' killProcess' isWildcard' : bool)
  : M (bool * bool) :=
  loaded <- loadAppById (set_appId appId' newApp) ;;
  match loaded with
  | None => ret (false, isWildcard')
  | Some app0 =>
      let '(changed, app) := prepareAppBlocked app0 blocked' killProcess' in
      if changed then
        saved <- saveAppBlocked app ;;
        if saved then
          if isWildcard app then ret (true, true)
          else updateDriverUpdateApp app false ;; ret (true, isWildcard')
        else ret (false, isWildcard')
      else ret (false, isWildcard')
  end.

Fixpoint updateAppsBlocked_each (appIdList : list Z) (blocked' killProcess' isWildcard' : bool)
  : M bool :=
  match appIdList with
  | [] => ret isWildcard'
  | appId' :: rest =>
      r <- updateAppBlocked appId' blocked' killProcess' isWildcard' ;;
      updateAppsBlocked_each rest blocked' killProcess' (snd r)
  end.

Definition updateAppsBlocked (appIdList : list Z) (blocked' killProcess' : bool) : M unit :=
  isWildcard' <- updateAppsBlocked_each appIdList blocked' killProcess'
                   (7 <? Z.of_nat (List.length appIdList)) ;;
  if isWildcard' then updateDriverConf false ;; ret tt else ret tt.

Definition updateAppName (appId' : Z) (appName' : string) : M bool :=
  r <- executeEx (sqlUpdateAppName appId' appName') ;;
  ok <- checkEndTransaction (isSome r) ;;
  if ok then emitAppUpdated ;; ret true else ret false.

(** [updateAppEndTimes]: the rows of [sqlSelectEndedApps] at the current
    time, each forced to blocked and sent through [updateApp].  The rows are
    those the statement selects when it starts: a row already updated is
    blocked and would not be selected again. *)
Definition expiredApp (rec : Tbl.app * Z * bool) : App :=
  set_killProcess false (set_blocked true (fillApp newApp rec)).

Fixpoint updateAppEndTimes_each (recs : list (Tbl.app * Z * bool)) : M unit :=
  match recs with
  | [] => ret tt
  | rec :: rest =>
      updateApp (expiredApp rec) ;;
      updateAppEndTimes_each rest
  end.

(** The body of [updateAppEndTimes] once its statement is prepared. *)
Definition updateAppEndTimes_prepared : M unit :=
  recs <- gets (fun w => sqlSelectEndedApps (groups w) (currentMSecs w) (db w)) ;;
  updateAppEndTimes_each recs ;;
  updateAppEndTimer.

(** [updateAppEndTimes]: nothing is done, the timer included, when the
    statement cannot be prepared. *)
Definition updateAppEndTimes : M unit :=
  ok <- prepare ;;
  if negb ok then ret tt
  else updateAppEndTimes_prepared.


(** ** Sequences of calls *)

Definition set_currentMSecs (now : Z) (w : World) : World :=
  mkWorld (db w) (txn w) (appEndTimer w) (m_driveMask w) now (groups w)
    (sqlOutcomes w) (drvOutcomes w).

Definition run_call (c : Call) : M unit :=
  match c with
  | CallAddApp app => addApp app ;; ret tt
  | CallUpdateApp app => updateApp app ;; ret tt
  | CallDeleteApps ids => deleteApps ids
  | CallUpdateAppsBlocked ids b k => updateAppsBlocked ids b k
  | CallUpdateAppName id n => updateAppName id n ;; ret tt
  | CallLogBlockedApp p b => logBlockedApp p b
  | CallUpdateAppEndTimes => updateAppEndTimes
  | CallUpdateAppEndTimer => updateAppEndTimer
  | CallClock now => modify (set_currentMSecs now)
  end.

Fixpoint run_calls (cs : list Call) : M unit :=
  match cs with
  | [] => ret tt
  | c :: rest => run_call c ;; run_calls rest
  end.

(** ** Purging, walking and drive changes *)

(** [FileUtil::isDriveFilePath] and [AppInfoUtil::fileExists] are not under
    src; a purge asks them about each path once. *)
Variable isDriveFilePath : string -> bool.
Variable fileExists : string -> bool.

Definition obsolete_path (appPath' : string) : bool :=
  isDriveFilePath appPath' && negb (fileExists appPath').

Definition purgeApps : M bool :=
  ok <- prepare ;;
  if negb ok then ret false
  else
    rows <- gets (fun w => sqlSelectAppPaths (db w)) ;;
    let appIdList := map fst (filter (fun row => obsolete_path (snd row)) rows) in
    deleteApps appIdList ;;
    ret true.

Definition purgeAppsOnStart (progPurgeOnStart : bool) : M unit :=
  if progPurgeOnStart then purgeApps ;; ret tt else ret tt.

(** [walkApps(func)]: [func] is the caller's, with a state of its own; each
    row is read into a fresh [App]. *)
Fixpoint walkApps_each {S : Type} (func : App -> S -> bool * S)
    (recs : list (Tbl.app * Z * bool)) (st : S) : bool * S :=
  match recs with
  | [] => (true, st)
  | rec :: rest =>
      let '(ok, st') := func (fillApp newApp rec) st in
      if ok then walkApps_each func rest st' else (false, st')
  end.

Definition walkApps {S : Type} (func : App -> S -> bool * S) (st : S) : M (bool * S) :=
  ok <- prepare ;;
  if negb ok then ret (false, st)
  else
    recs <- gets (fun w => sqlSelectApps (groups w) (db w)) ;;
    ret (walkApps_each func recs st).

(** The handler [setupDriveListManager] connects to [driveMaskChanged]. *)
Definition onDriveMaskChanged (addedMask : Z) : M unit :=
  m <- gets m_driveMask ;;
  if negb (Z.land m addedMask =? 0) then updateDriverConf false ;; ret tt
  else ret tt.

(** [setUp]: the purge, then [setupAppEndTimer], which connects
    [updateAppEndTimer] to the clock's changes and runs it;
    [setupDriveListManager] only connects [onDriveMaskChanged]. *)
Definition setupAppEndTimer : M unit := updateAppEndTimer.

Definition setUp (progPurgeOnStart : bool) : M unit :=
  purgeAppsOnStart progPurgeOnStart ;;
  setupAppEndTimer.

(** ** ProgramEditDialog *)

(** [App::isOptionsEqual], [App::isNameEqual] and [AppListModel::appRowById]
    are not under src. *)
Variable isOptionsEqual : App -> App -> bool.
Variable isNameEqual : App -> App -> bool.
Variable appRowById : World -> Z -> App.

(** [ProgramEditDialog::fillApp(app)]: every field but [appId] and [alerted]
    is assigned; [endTime] only when the entry is allowed and one of "Block
    In" and "Block At" is checked. *)
Definition ProgramEditDialog_fillApp (d : Dialog) (now : Z) (app : App) : App :=
  let blocked' := negb (m_rbAllowApp d) in
  let appPath' := m_editPath d in
  mkApp (appId app)
    (if ProgramEditDialog_isWildcard d then m_editWildcard d else appPath')
    (normalizePath appPath')
    (m_editName d)
    (ProgramEditDialog_isWildcard d) (m_cbUseGroupPerm d) (m_cbApplyChild d)
    (m_cbKillChild d) (m_cbLanOnly d) (m_cbLogBlocked d) (m_cbLogConn d)
    blocked' (m_rbKillProcess d) (alerted app)
    (m_btZones_zones d) (m_btZones_uncheckedZones d) (m_comboAppGroup d)
    (if negb blocked' then
       if m_cscBlockAppIn_checked d then
         let hours := m_cscBlockAppIn_value d in
         Some (addSecs now (wrap32 (wrap32 (hours * 60) * 60)))
       else if m_cbBlockAppAt d then m_dteBlockAppAt d
       else endTime app
     else endTime app).

Definition saveApp (d : Dialog) (app : App) : M bool :=
  if negb (isOptionsEqual app (m_appRow d)) then
    updateApp (set_appId (appId (m_appRow d)) app)
  else if negb (isNameEqual app (m_appRow d)) then
    updateAppName (appId (m_appRow d)) (appName app)
  else ret true.

(** The four assignments of [saveMulti]'s loop body. *)
Definition with_row (appId' : Z) (appRow app : App) : App :=
  mkApp appId' (appOriginPath appRow) (appPath appRow) (appName appRow)
    (isWildcard app) (useGroupPerm app) (applyChild app) (killChild app)
    (lanOnly app) (logBlocked app) (logConn app) (blocked app) (killProcess app)
    (alerted app) (acceptZones app) (rejectZones app) (groupIndex app) (endTime app).

Fixpoint saveMulti (appIdList : list Z) (app : App) : M bool :=
  match appIdList with
  | [] => ret true
  | appId' :: rest =>
      appRow <- gets (fun w => appRowById w appId') ;;
      let app := with_row appId' appRow app in
      ok <- updateApp app ;;
      if ok then saveMulti rest app else ret false
  end.

(** [save]: the focus [validateFields] moves is not modelled. *)
Definition save (d : Dialog) : M bool :=
  let appIdsCount := Z.of_nat (List.length (m_appIdList d)) in
  let isSingleSelection := appIdsCount <=? 1 in
  if isSingleSelection && negb (validateFields d) then ret false
  else
    now <- gets currentMSecs ;;
    let app := ProgramEditDialog_fillApp d now newApp in
    if appIdsCount =? 0 then addApp app
    else if isSingleSelection then saveApp d app
    else saveMulti (m_appIdList d) app.

(** ** FortManager::updateDriverConf *)

Definition FortManager_updateDriverConf (onlyFlags : bool) (w : World)
  : bool * World * list FortEvent :=
  let '(res, w1, e) := updateDriverConf onlyFlags w in
  (res, w1,
   [EvLogActive false] ++ map EvConfApp e
   ++ (if res then [EvStatConf] else []) ++ [EvLogActive true]).

(** The handler [setupConfManager] connects to [confChanged]. *)
Definition onConfChanged (onlyFlags flagsEdited : bool) (w : World)
  : World * list FortEvent :=
  if negb onlyFlags || flagsEdited then
    let '(_, w1, e) := FortManager_updateDriverConf onlyFlags w in
    (w1, EvUpdateLogger :: e)
  else (w, [EvUpdateLogger]).

(** ** Proof support *)

Ltac break_match :=
  match goal with
  | |- context [match ?x with _ => _ end] =>
      lazymatch x with
      | context [match _ with _ => _ end] => fail
      | _ => destruct x eqn:?
      end
  end.

Ltac run_op :=
  cbv [bind ret gets modify emit executeEx prepare driver_write beginTransaction
       endTransaction commitTransaction checkEndTransaction showErrorMessage
       emitAppAlerted emitAppChanged emitAppUpdated updateAppEndTimer
       result world events fst snd];
  simpl.

Ltac split_cases := repeat (break_match; simpl; try discriminate).

(** ** The expiry timer *)

Lemma wrap64_small (z : Z) : - 2 ^ 63 <= z < 2 ^ 63 -> wrap64 z = z.
Proof.
  intros H. unfold wrap64. rewrite Z.mod_small; lia.
Qed.

Lemma timer_interval_bounds (e n : Z) :
  100 <= timer_interval e n <= 24 * 60 * 60 * 1000.
Proof.
  unfold timer_interval, APP_END_TIMER_INTERVAL_MIN, APP_END_TIMER_INTERVAL_MAX.
  destruct (0 <? wrap64 (e - n)); lia.
Qed.

Lemma timer_interval_spec (e n : Z) :
  - 2 ^ 63 <= e - n < 2 ^ 63 -> timer_interval e n = spec_interval e n.
Proof.
  intros H. unfold timer_interval, spec_interval, clamp.
  unfold APP_END_TIMER_INTERVAL_MIN, APP_END_TIMER_INTERVAL_MAX.
  rewrite (wrap64_small _ H).
  destruct (0 <? e - n) eqn:E; [apply Z.ltb_lt in E | apply Z.ltb_ge in E]; lia.
Qed.

Lemma pending_end_time (r : Tbl.app) :
  pending r = true -> exists t, Tbl.end_time r = Some t /\ t <> 0.
Proof.
  unfold pending. destruct (Tbl.end_time r) as [t|]; [|discriminate].
  intros H. exists t. split; [reflexivity|].
  apply andb_true_iff in H. destruct H as [H _].
  apply negb_true_iff, Z.eqb_neq in H. exact H.
Qed.

Lemma min_end_time_none (rows : list Tbl.app) :
  min_end_time rows = None <-> forall r, In r rows -> pending r = false.
Proof.
  induction rows as [|a rows IH]; simpl.
  - split; [intros _ r []|reflexivity].
  - destruct (pending a) eqn:Pa.
    + destruct (pending_end_time a Pa) as (t & Et & _). rewrite Et.
      split.
      * destruct (min_end_time rows); discriminate.
      * intros H. specialize (H a (or_introl eq_refl)). congruence.
    + rewrite IH. split.
      * intros H r [<-|Hr]; [exact Pa|apply H, Hr].
      * intros H r Hr. apply H. right. exact Hr.
Qed.

Lemma min_end_time_some (rows : list Tbl.app) (m : Z) :
  min_end_time rows = Some m -> is_min_pending rows m /\ m <> 0.
Proof.
  revert m. induction rows as [|a rows IH]; simpl; intros m H; [discriminate|].
  destruct (pending a) eqn:Pa.
  - destruct (pending_end_time a Pa) as (t & Et & Ht). rewrite Et in H.
    destruct (min_end_time rows) as [m'|] eqn:Em.
    + destruct (IH m' eq_refl) as [[(r & Hr & Pr & Er) Hle] Hm'].
      injection H as <-. split; [split|lia].
      * destruct (Z.min_spec t m') as [[_ ->]|[_ ->]].
        -- exists a. simpl. auto.
        -- exists r. simpl. auto.
      * intros r' t' [<-|Hr'] Pr' Er'.
        -- assert (t' = t) by congruence. lia.
        -- specialize (Hle r' t' Hr' Pr' Er'). lia.
    + injection H as <-. split; [split|exact Ht].
      * exists a. simpl. auto.
      * intros r' t' [<-|Hr'] Pr' Er'.
        -- assert (t' = t) by congruence. lia.
        -- apply min_end_time_none with (r := r') in Em; [congruence|exact Hr'].
  - destruct (IH m H) as [[(r & Hr & Pr & Er) Hle] Hm]. split; [split|exact Hm].
    + exists r. simpl. auto.
    + intros r' t' [<-|Hr'] Pr' Er'; [congruence|eauto].
Qed.

Lemma is_min_pending_query (rows : list Tbl.app) (m : Z) :
  is_min_pending rows m -> min_end_time rows = Some m.
Proof.
  intros [(r & Hr & Pr & Er) Hle].
  destruct (min_end_time rows) as [m'|] eqn:Em.
  - destruct (min_end_time_some _ _ Em) as [[(r' & Hr' & Pr' & Er') Hle'] _].
    specialize (Hle r' m' Hr' Pr' Er'). specialize (Hle' r m Hr Pr Er).
    f_equal. lia.
  - apply min_end_time_none with (r := r) in Em; [congruence|exact Hr].
Qed.

Lemma updateAppEndTimer_run (w : World) :
  updateAppEndTimer w
  = (tt,
     set_appEndTimer
       (match min_end_time (app_rows (db w)) with
        | Some m => Some (timer_interval m (currentMSecs w))
        | None => None
        end) w,
     []).
Proof.
  unfold updateAppEndTimer, sqlSelectMinEndApp, bind, gets, modify.
  destruct (min_end_time (app_rows (db w))) as [m|] eqn:Em; simpl.
  - destruct (min_end_time_some _ _ Em) as [_ Hm].
    apply Z.eqb_neq in Hm. rewrite Hm. reflexivity.
  - reflexivity.
Qed.

(** C5.  Recomputing the expiry timer stops it when no row has
    [end_time != 0] and [blocked = 0]; otherwise, with [m] the earliest such
    [end_time], it is armed for [max(clamp(m - now, 0, 1 day), 100)]
    milliseconds (the [qint64] subtraction not overflowing), an interval
    between 100 and 24*60*60*1000 in every case, and 100 when the deadline
    is not in the future. *)
Theorem updateAppEndTimer_interval (w : World) :
  let w' := world (updateAppEndTimer w) in
  let rows := app_rows (db w) in
  let now := currentMSecs w in
  ((forall r, In r rows -> pending r = false) -> appEndTimer w' = None)
  /\ (forall m, is_min_pending rows m ->
        - 2 ^ 63 <= m - now < 2 ^ 63 ->
        appEndTimer w' = Some (spec_interval m now)
        /\ (m <= now -> appEndTimer w' = Some 100))
  /\ (forall i, appEndTimer w' = Some i -> 100 <= i <= 24 * 60 * 60 * 1000).
Proof.
  cbv zeta. rewrite updateAppEndTimer_run. unfold world. simpl.
  split; [|split].
  - intros H. apply min_end_time_none in H. rewrite H. reflexivity.
  - intros m Hm Hr. rewrite (is_min_pending_query _ _ Hm).
    rewrite (timer_interval_spec _ _ Hr). split; [reflexivity|].
    intros Hle. f_equal. unfold spec_interval, clamp. lia.
  - intros i. destruct (min_end_time (app_rows (db w))); [|discriminate].
    intros H. injection H as <-. apply timer_interval_bounds.
Qed.


(** ** The drive mask *)

(** C9, as amended.  A successful full-configuration push stores the mask of
    its encode in place of the previous one; a successful single-entry push
    ORs the mask of its encode into the stored one, and a removal leaves the
    stored mask as it was; a push that fails leaves it as it was. *)
Theorem drive_mask_after_push (w : World) :
  (forall onlyFlags,
      let r := updateDriverConf onlyFlags w in
      (result r = true ->
       exists mask, writeConf onlyFlags (groups w) (db w) = Some mask
                    /\ m_driveMask (world r) = mask)
      /\ (result r = false -> m_driveMask (world r) = m_driveMask w))
  /\ (forall app remove,
      let r := updateDriverUpdateApp app remove w in
      (result r = true ->
       exists mask, writeAppEntry app = Some mask
                    /\ m_driveMask (world r)
                       = Z.lor (m_driveMask w) (if remove then 0 else mask))
      /\ (result r = false -> m_driveMask (world r) = m_driveMask w)).
Proof.
  split.
  - intros onlyFlags. unfold updateDriverConf. run_op.
    destruct (writeConf onlyFlags (groups w) (db w)) as [mask|]; simpl.
    + destruct (drvOutcomes w) as [|[] ?]; simpl; split; intros H;
        try discriminate; try reflexivity; exists mask; auto.
    + split; [discriminate|reflexivity].
  - intros app remove. unfold updateDriverUpdateApp. run_op.
    destruct (writeAppEntry app) as [mask|]; simpl.
    + destruct (drvOutcomes w) as [|[] ?]; simpl; split; intros H;
        try discriminate; try reflexivity; exists mask; auto.
    + split; [discriminate|reflexivity].
Qed.

(** ** The blocked-state update *)

Lemma find_has_id (id : Z) (rows : list Tbl.app) (r : Tbl.app) :
  find (has_id id) rows = Some r -> Tbl.app_id r = id.
Proof.
  intros H. apply find_some in H. destruct H as [_ H].
  unfold has_id in H. lia.
Qed.

(** C10.  For a stored entry that is not alerted, a blocked-state update that
    asks for the [blocked] and [kill_process] values the row holds returns
    false, runs no statement, emits nothing and writes nothing to the driver:
    the world, and with it the row's [end_time], is as before, but for the
    outcome its loading read has consumed; and so whether or not that read
    could be prepared. *)
Theorem updateAppBlocked_same_state_noop
    (w : World) (id : Z) (r : Tbl.app) (isWildcard' : bool) :
  find (has_id id) (app_rows (db w)) = Some r ->
  is_alerted id (db w) = false ->
  updateAppBlocked id (Tbl.blocked r) (Tbl.kill_process r) isWildcard' w
  = ((false, isWildcard'), set_sqlOutcomes (tl (sqlOutcomes w)) w, [])
  /\ updateAppsBlocked [id] (Tbl.blocked r) (Tbl.kill_process r) w
     = (tt, set_sqlOutcomes (tl (sqlOutcomes w)) w, []).
Proof.
  intros Hfind Hal.
  pose proof (find_has_id _ _ _ Hfind) as Hid.
  assert (E : forall iw, updateAppBlocked id (Tbl.blocked r) (Tbl.kill_process r) iw w
                         = ((false, iw), set_sqlOutcomes (tl (sqlOutcomes w)) w, [])).
  { intros iw.
    unfold updateAppBlocked, loadAppById, prepare, bind, gets, ret, sqlSelectAppById.
    destruct (sqlOutcomes w) as [|[] o];
      cbn [negb tl db groups set_sqlOutcomes appId set_appId]; try reflexivity.
    all: rewrite Hfind; unfold select_app_fields;
      destruct (index_of (Tbl.app_group_id r) (groups w)) as [gi|]; simpl;
      [|reflexivity];
      rewrite Hid, Hal; unfold prepareAppBlocked; simpl;
      rewrite !Bool.eqb_reflx; simpl; reflexivity. }
  split; [apply E|].
  unfold updateAppsBlocked, updateAppsBlocked_each, bind. rewrite E. reflexivity.
Qed.


(** ** Commit before sync *)

Section BindEquations.
Context {A B : Type} (m : M A) (k : A -> M B) (w : World).

Lemma bind_result : result (bind m k w) = result (k (result (m w)) (world (m w))).
Proof.
  unfold bind, result, world. destruct (m w) as [[a w1] e1]. simpl.
  destruct (k a w1) as [[b w2] e2]. reflexivity.
Qed.

Lemma bind_world : world (bind m k w) = world (k (result (m w)) (world (m w))).
Proof.
  unfold bind, result, world. destruct (m w) as [[a w1] e1]. simpl.
  destruct (k a w1) as [[b w2] e2]. reflexivity.
Qed.

Lemma bind_events :
  events (bind m k w) = events (m w) ++ events (k (result (m w)) (world (m w))).
Proof.
  unfold bind, result, world, events. destruct (m w) as [[a w1] e1]. simpl.
  destruct (k a w1) as [[b w2] e2]. reflexivity.
Qed.
End BindEquations.

Lemma world_triple {A : Type} (a : A) (w : World) (e : list Event) :
  world (a, w, e) = w.
Proof. reflexivity. Qed.

Lemma bind_gets {A B : Type} (f : World -> A) (k : A -> M B) (w : World) :
  bind (gets f) k w = k (f w) w.
Proof.
  unfold bind, gets. destruct (k (f w) w) as [[b w2] e2]. reflexivity.
Qed.

(** [loadAppById], by what its [prepare] answers. *)
Lemma loadAppById_run (app : App) (w : World) :
  loadAppById app w
  = (if hd true (sqlOutcomes w)
     then option_map (fillApp app) (sqlSelectAppById (groups w) (appId app) (db w))
     else None,
     set_sqlOutcomes (tl (sqlOutcomes w)) w, []).
Proof.
  unfold loadAppById, prepare, bind, gets, ret.
  destruct (sqlOutcomes w) as [|[] o]; reflexivity.
Qed.

Lemma updateAppEndTimes_prepared_run (w : World) :
  updateAppEndTimes_prepared w
  = bind (updateAppEndTimes_each
            (sqlSelectEndedApps (groups w) (currentMSecs w) (db w)))
         (fun _ => updateAppEndTimer) w.
Proof.
  unfold updateAppEndTimes_prepared. rewrite bind_gets. reflexivity.
Qed.

(** A firing, by what its [prepare] answers. *)
Lemma updateAppEndTimes_unfold (w : World) :
  updateAppEndTimes w
  = match sqlOutcomes w with
    | false :: _ => (tt, set_sqlOutcomes (tl (sqlOutcomes w)) w, [])
    | _ =>
        bind (updateAppEndTimes_each
                (sqlSelectEndedApps (groups w) (currentMSecs w) (db w)))
             (fun _ => updateAppEndTimer)
             (set_sqlOutcomes (tl (sqlOutcomes w)) w)
    end.
Proof.
  unfold updateAppEndTimes, prepare. unfold bind at 1.
  destruct (sqlOutcomes w) as [|[] o]; cbn [negb tl];
    try (rewrite updateAppEndTimes_prepared_run;
         cbn [groups currentMSecs db set_sqlOutcomes];
         match goal with
         | |- context [bind ?m ?k ?w0] => destruct (bind m k w0) as [[u w1] e1]
         end; reflexivity).
  reflexivity.
Qed.

Lemma last_committed_app (s : Store) (e1 e2 : list Event) :
  last_committed s (e1 ++ e2) = last_committed (last_committed s e1) e2.
Proof.
  revert s. induction e1 as [|e e1 IH]; intros s; simpl; [reflexivity|].
  destruct e; apply IH.
Qed.

Lemma run_phase_app (st : bool * bool) (e1 e2 : list Event) :
  run_phase st (e1 ++ e2)
  = match run_phase st e1 with
    | Some st' => run_phase st' e2
    | None => None
    end.
Proof.
  revert st. induction e1 as [|e e1 IH]; intros st; simpl; [reflexivity|].
  destruct (step_phase st e); [apply IH|reflexivity].
Qed.

Lemma updateDriverConf_after_commit (onlyFlags : bool) (w : World) :
  let r := updateDriverConf onlyFlags w in
  db (world r) = db w
  /\ last_committed (db w) (events r) = db w
  /\ run_phase (true, false) (events r) = Some (true, false).
Proof.
  unfold updateDriverConf. run_op. split_cases; auto.
Qed.

Lemma addApp_commit_then_sync (app : App) (w : World) :
  let r := addApp app w in
  db (world r) = last_committed (db w) (events r)
  /\ sync_follows_commit (events r) = true.
Proof.
  unfold addApp, addOrUpdateApp, updateDriverUpdateAppConf, updateDriverConf,
    updateDriverUpdateApp, sync_follows_commit.
  run_op. split_cases; auto.
Qed.

Lemma updateApp_commit_then_sync (app : App) (w : World) :
  let r := updateApp app w in
  db (world r) = last_committed (db w) (events r)
  /\ sync_follows_commit (events r) = true.
Proof.
  unfold updateApp, updateDriverUpdateAppConf, updateDriverConf,
    updateDriverUpdateApp, sync_follows_commit.
  run_op. split_cases; auto.
Qed.

Lemma updateAppBlocked_commit_then_sync
    (id : Z) (b k iw : bool) (w : World) :
  let r := updateAppBlocked id b k iw w in
  db (world r) = last_committed (db w) (events r)
  /\ sync_follows_commit (events r) = true.
Proof.
  unfold updateAppBlocked, saveAppBlocked, loadAppById, updateDriverUpdateApp,
    sync_follows_commit.
  run_op. split_cases; auto.
Qed.

Lemma deleteApp_phase (id : Z) (c iw : bool) (w : World) :
  let r := deleteApp id iw w in
  (iw = true -> c = true) ->
  db (world r) = last_committed (db w) (events r)
  /\ exists c', run_phase (c, false) (events r) = Some (c', false)
                /\ (snd (result r) = true -> c' = true).
Proof.
  unfold deleteApp, updateDriverDeleteApp, updateDriverUpdateApp.
  run_op. intros Hc. split_cases; (split; [auto|eexists; split; [reflexivity|auto]]).
Qed.

Lemma deleteApps_each_phase (ids : list Z) (c iw : bool) (w : World) :
  let r := deleteApps_each ids iw w in
  (iw = true -> c = true) ->
  db (world r) = last_committed (db w) (events r)
  /\ exists c', run_phase (c, false) (events r) = Some (c', false)
                /\ (result r = true -> c' = true).
Proof.
  revert c iw w. induction ids as [|id ids IH]; intros c iw w; cbv zeta; intros Hc.
  - simpl. split; [reflexivity|]. exists c. split; [reflexivity|exact Hc].
  - simpl deleteApps_each. rewrite bind_world, bind_events, bind_result.
    destruct (deleteApp_phase id c iw w Hc) as (Hdb & c1 & Hp & Hc1).
    destruct (IH c1 (snd (result (deleteApp id iw w))) (world (deleteApp id iw w)) Hc1)
      as (Hdb' & c2 & Hp' & Hc2).
    split.
    + rewrite last_committed_app, <- Hdb. exact Hdb'.
    + exists c2. rewrite run_phase_app, Hp. auto.
Qed.

Lemma deleteApps_commit_then_sync (ids : list Z) (w : World) :
  let r := deleteApps ids w in
  db (world r) = last_committed (db w) (events r)
  /\ sync_follows_commit (events r) = true.
Proof.
  cbv zeta. unfold deleteApps, sync_follows_commit.
  rewrite bind_world, bind_events.
  destruct (deleteApps_each_phase ids false false w) as (Hdb & c & Hp & Hc);
    [discriminate|].
  rewrite last_committed_app, run_phase_app, Hp, <- Hdb.
  destruct (result (deleteApps_each ids false w)).
  - rewrite (Hc eq_refl).
    rewrite bind_world, bind_events. unfold ret at 1 2. simpl.
    rewrite app_nil_r, world_triple.
    destruct (updateDriverConf_after_commit false (world (deleteApps_each ids false w)))
      as (H1 & H2 & H3).
    rewrite H1, H2, H3. auto.
  - simpl. auto.
Qed.

Lemma updateAppsBlocked_each_store (ids : list Z) (b k iw : bool) (w : World) :
  let r := updateAppsBlocked_each ids b k iw w in
  db (world r) = last_committed (db w) (events r).
Proof.
  revert iw w. induction ids as [|id ids IH]; intros iw w; cbv zeta.
  - reflexivity.
  - simpl updateAppsBlocked_each. rewrite bind_world, bind_events.
    rewrite last_committed_app.
    destruct (updateAppBlocked_commit_then_sync id b k iw w) as [<- _].
    apply IH.
Qed.

Lemma updateAppsBlocked_store (ids : list Z) (b k : bool) (w : World) :
  let r := updateAppsBlocked ids b k w in
  db (world r) = last_committed (db w) (events r).
Proof.
  cbv zeta. unfold updateAppsBlocked. rewrite bind_world, bind_events.
  rewrite last_committed_app.
  rewrite <- (updateAppsBlocked_each_store ids b k _ w).
  destruct (result (updateAppsBlocked_each ids b k _ w)).
  - rewrite bind_world, bind_events. unfold ret at 1 2. simpl.
    rewrite app_nil_r, world_triple.
    destruct (updateDriverConf_after_commit false
                (world (updateAppsBlocked_each ids b k
                          (7 <? Z.of_nat (List.length ids)) w)))
      as (H1 & H2 & _).
    rewrite H1, H2. reflexivity.
  - reflexivity.
Qed.

Lemma updateAppBlocked_phase (id : Z) (b k c iw : bool) (w : World) :
  let r := updateAppBlocked id b k iw w in
  (iw = true -> c = true) ->
  exists c', run_phase (c, false) (events r) = Some (c', false)
             /\ (snd (result r) = true -> c' = true).
Proof.
  unfold updateAppBlocked, saveAppBlocked, loadAppById, updateDriverUpdateApp,
    prepareAppBlocked.
  run_op. intros Hc. split_cases; (eexists; split; [reflexivity|auto]).
Qed.

Lemma updateAppsBlocked_each_phase (ids : list Z) (b k c iw : bool) (w : World) :
  let r := updateAppsBlocked_each ids b k iw w in
  (iw = true -> c = true) ->
  exists c', run_phase (c, false) (events r) = Some (c', false)
             /\ (result r = true -> c' = true).
Proof.
  revert c iw w. induction ids as [|id ids IH]; intros c iw w; cbv zeta; intros Hc.
  - simpl. exists c. split; [reflexivity|exact Hc].
  - simpl updateAppsBlocked_each. rewrite bind_events, bind_result.
    destruct (updateAppBlocked_phase id b k c iw w Hc) as (c1 & Hp & Hc1).
    destruct (IH c1 (snd (result (updateAppBlocked id b k iw w)))
                (world (updateAppBlocked id b k iw w)) Hc1) as (c2 & Hp' & Hc2).
    exists c2. rewrite run_phase_app, Hp. auto.
Qed.

(** A batch of blocked-state updates: given a commit before the batch no
    driver write happens out of order, and a batch of at most seven ids needs
    no such commit. *)
Lemma updateAppsBlocked_phase (ids : list Z) (b k c : bool) (w : World) :
  (c = false -> (List.length ids <= 7)%nat) ->
  isSome (run_phase (c, false) (events (updateAppsBlocked ids b k w))) = true.
Proof.
  intros Hlen. unfold updateAppsBlocked. rewrite bind_events.
  destruct (updateAppsBlocked_each_phase ids b k c
              (7 <? Z.of_nat (List.length ids)) w) as (c' & Hp & Hc).
  { intros H7. apply Z.ltb_lt in H7. destruct c; [reflexivity|].
    specialize (Hlen eq_refl). lia. }
  rewrite run_phase_app, Hp.
  destruct (result (updateAppsBlocked_each ids b k _ w)).
  - rewrite (Hc eq_refl). rewrite bind_events. unfold ret at 1. simpl events at 2.
    rewrite app_nil_r.
    destruct (updateDriverConf_after_commit false
                (world (updateAppsBlocked_each ids b k
                          (7 <? Z.of_nat (List.length ids)) w)))
      as (_ & _ & H3).
    rewrite H3. reflexivity.
  - reflexivity.
Qed.

Lemma count_app (f : Event -> bool) (e1 e2 : list Event) :
  count f (e1 ++ e2) = (count f e1 + count f e2)%nat.
Proof.
  unfold count. rewrite filter_app. apply length_app.
Qed.

Lemma count_commit_existsb (evs : list Event) :
  (0 < count is_commit evs)%nat <-> existsb is_commit evs = true.
Proof.
  unfold count. induction evs as [|e evs IH]; simpl.
  - split; [lia|discriminate].
  - destruct (is_commit e); simpl; [split; [reflexivity|lia]|exact IH].
Qed.

Lemma last_committed_without_commit (s : Store) (evs : list Event) :
  count is_commit evs = 0%nat -> last_committed s evs = s.
Proof.
  unfold count. induction evs as [|e evs IH]; simpl; [reflexivity|].
  destruct e; simpl; try exact IH. discriminate.
Qed.

Lemma updateDriverConf_counts (onlyFlags : bool) (w : World) :
  count is_commit (events (updateDriverConf onlyFlags w)) = 0%nat
  /\ count is_entry_push (events (updateDriverConf onlyFlags w)) = 0%nat.
Proof.
  unfold updateDriverConf. run_op. split_cases; auto.
Qed.

(** One blocked-state update, read from any state: its entry write, if any,
    follows its own commit. *)
Lemma updateAppBlocked_phase_any (id : Z) (b k c iw : bool) (w : World) :
  let r := updateAppBlocked id b k iw w in
  run_phase (c, false) (events r) = Some (c || existsb is_commit (events r), false)
  /\ (count is_entry_push (events r) <= count is_commit (events r))%nat.
Proof.
  unfold updateAppBlocked, saveAppBlocked, loadAppById, updateDriverUpdateApp,
    prepareAppBlocked.
  run_op. split_cases; destruct c; split; try reflexivity; unfold count; simpl; lia.
Qed.

Lemma updateAppsBlocked_each_phase_any (ids : list Z) (b k c iw : bool) (w : World) :
  let r := updateAppsBlocked_each ids b k iw w in
  run_phase (c, false) (events r) = Some (c || existsb is_commit (events r), false)
  /\ (count is_entry_push (events r) <= count is_commit (events r))%nat.
Proof.
  revert c iw w. induction ids as [|id ids IH]; intros c iw w; cbv zeta.
  - simpl. rewrite orb_false_r. split; [reflexivity|unfold count; simpl; lia].
  - simpl updateAppsBlocked_each. rewrite bind_events.
    destruct (updateAppBlocked_phase_any id b k c iw w) as [Hp Hn].
    destruct (IH (c || existsb is_commit (events (updateAppBlocked id b k iw w)))
                (snd (result (updateAppBlocked id b k iw w)))
                (world (updateAppBlocked id b k iw w))) as [Hp' Hn'].
    split.
    + rewrite run_phase_app, Hp, Hp', existsb_app, orb_assoc. reflexivity.
    + rewrite !count_app. lia.
Qed.

(** A batch of blocked-state updates of any length: once the batch has
    committed, every driver write of the batch follows a commit; and the
    entry writes are never more than the commits. *)
Lemma updateAppsBlocked_phase_any (ids : list Z) (b k : bool) (w : World) :
  let r := updateAppsBlocked ids b k w in
  ((0 < count is_commit (events r))%nat -> sync_follows_commit (events r) = true)
  /\ (count is_entry_push (events r) <= count is_commit (events r))%nat.
Proof.
  cbv zeta. unfold updateAppsBlocked, sync_follows_commit. rewrite bind_events.
  destruct (updateAppsBlocked_each_phase_any ids b k false
              (7 <? Z.of_nat (List.length ids)) w) as [Hp Hn].
  rewrite run_phase_app, Hp, !count_app. cbn [orb].
  destruct (result (updateAppsBlocked_each ids b k _ w)).
  - rewrite bind_events. unfold ret at 1 2 3. cbn [events snd]. rewrite app_nil_r.
    destruct (updateDriverConf_counts false
                (world (updateAppsBlocked_each ids b k
                          (7 <? Z.of_nat (List.length ids)) w))) as [K1 K2].
    rewrite K1, K2. split; [|lia].
    intros Hc. rewrite Nat.add_0_r in Hc. apply count_commit_existsb in Hc.
    rewrite Hc.
    destruct (updateDriverConf_after_commit false
                (world (updateAppsBlocked_each ids b k
                          (7 <? Z.of_nat (List.length ids)) w)))
      as (_ & _ & H3).
    rewrite H3. reflexivity.
  - unfold ret. cbn [events snd]. split; [reflexivity|].
    unfold count at 2 4. simpl. lia.
Qed.

Lemma store_ignores_driver (d : list bool) (w : World) :
  (forall app,
      db (world (addApp app (set_drvOutcomes d w))) = db (world (addApp app w))
      /\ result (addApp app (set_drvOutcomes d w)) = result (addApp app w))
  /\ (forall app,
      db (world (updateApp app (set_drvOutcomes d w))) = db (world (updateApp app w))
      /\ result (updateApp app (set_drvOutcomes d w)) = result (updateApp app w))
  /\ (forall id b k iw,
      db (world (updateAppBlocked id b k iw (set_drvOutcomes d w)))
      = db (world (updateAppBlocked id b k iw w))
      /\ result (updateAppBlocked id b k iw (set_drvOutcomes d w))
         = result (updateAppBlocked id b k iw w))
  /\ (forall id iw,
      db (world (deleteApp id iw (set_drvOutcomes d w)))
      = db (world (deleteApp id iw w))
      /\ result (deleteApp id iw (set_drvOutcomes d w))
         = result (deleteApp id iw w)).
Proof.
  split; [|split; [|split]]; intros.
  - unfold addApp, addOrUpdateApp, updateDriverUpdateAppConf, updateDriverConf,
      updateDriverUpdateApp.
    run_op. split_cases; auto.
  - unfold updateApp, updateDriverUpdateAppConf, updateDriverConf,
      updateDriverUpdateApp.
    run_op. split_cases; auto.
  - unfold updateAppBlocked, saveAppBlocked, loadAppById, updateDriverUpdateApp.
    run_op. split_cases; auto.
  - unfold deleteApp, updateDriverDeleteApp, updateDriverUpdateApp.
    run_op. split_cases; auto.
Qed.

(** C1, as amended.  On the paths of one entry (add, full update,
    blocked-state update of an entry, delete of an entry and of a batch) the
    log shows every driver write after a commit and outside a transaction,
    and whatever the driver answers the store ends as its last commit wrote
    it (as it was, when nothing was committed).  In a batch of blocked-state
    updates the store ends as its last commit wrote it, no driver write
    happens inside a transaction, and the entry writes are never more than
    the commits; every driver write comes after a commit of the batch when
    the batch has at most seven ids or has committed at all.  A batch that
    commits nothing leaves the store as it was and writes no entry, so that
    the only driver write it can attempt is the trailing push of the full,
    unchanged configuration.  Run against any other list of driver answers,
    an add, a full update, a blocked-state update and a delete return the
    same result and leave the same store. *)
Theorem commit_precedes_sync (w : World) :
  (forall d : list bool,
      (forall app,
          db (world (addApp app (set_drvOutcomes d w))) = db (world (addApp app w))
          /\ result (addApp app (set_drvOutcomes d w)) = result (addApp app w))
      /\ (forall app,
          db (world (updateApp app (set_drvOutcomes d w)))
          = db (world (updateApp app w))
          /\ result (updateApp app (set_drvOutcomes d w)) = result (updateApp app w))
      /\ (forall id b k iw,
          db (world (updateAppBlocked id b k iw (set_drvOutcomes d w)))
          = db (world (updateAppBlocked id b k iw w))
          /\ result (updateAppBlocked id b k iw (set_drvOutcomes d w))
             = result (updateAppBlocked id b k iw w))
      /\ (forall id iw,
          db (world (deleteApp id iw (set_drvOutcomes d w)))
          = db (world (deleteApp id iw w))
          /\ result (deleteApp id iw (set_drvOutcomes d w))
             = result (deleteApp id iw w)))
  /\ (forall app,
      let r := addApp app w in
      db (world r) = last_committed (db w) (events r)
      /\ sync_follows_commit (events r) = true)
  /\ (forall app,
      let r := updateApp app w in
      db (world r) = last_committed (db w) (events r)
      /\ sync_follows_commit (events r) = true)
  /\ (forall id b k iw,
      let r := updateAppBlocked id b k iw w in
      db (world r) = last_committed (db w) (events r)
      /\ sync_follows_commit (events r) = true)
  /\ (forall ids b k,
      let r := updateAppsBlocked ids b k w in
      db (world r) = last_committed (db w) (events r)
      /\ isSome (run_phase (true, false) (events r)) = true
      /\ ((List.length ids <= 7)%nat -> sync_follows_commit (events r) = true)
      /\ ((0 < count is_commit (events r))%nat ->
          sync_follows_commit (events r) = true)
      /\ (count is_entry_push (events r) <= count is_commit (events r))%nat
      /\ (count is_commit (events r) = 0%nat -> db (world r) = db w))
  /\ (forall id,
      let r := deleteApps [id] w in
      db (world r) = last_committed (db w) (events r)
      /\ sync_follows_commit (events r) = true)
  /\ (forall ids,
      let r := deleteApps ids w in
      db (world r) = last_committed (db w) (events r)
      /\ sync_follows_commit (events r) = true).
Proof.
  split; [intros d; apply store_ignores_driver|].
  split; [intros app; apply addApp_commit_then_sync|].
  split; [intros app; apply updateApp_commit_then_sync|].
  split; [intros id b k iw; apply updateAppBlocked_commit_then_sync|].
  split.
  { intros ids b k. split; [apply updateAppsBlocked_store|].
    split; [apply updateAppsBlocked_phase; discriminate|].
    split; [intros Hlen; apply updateAppsBlocked_phase; intros _; exact Hlen|].
    split; [apply updateAppsBlocked_phase_any|].
    split; [apply updateAppsBlocked_phase_any|].
    intros Hc. rewrite (updateAppsBlocked_store ids b k w).
    apply last_committed_without_commit, Hc. }
  split; [intros id|intros ids]; apply deleteApps_commit_then_sync.
Qed.


(** ** Upsert *)

Arguments path_is : simpl never.
Arguments has_id : simpl never.
Arguments bindVars : simpl never.

Lemma find_filter {A : Type} (f : A -> bool) (l : list A) :
  find f l = hd_error (filter f l).
Proof.
  induction l as [|a l IH]; simpl; [reflexivity|].
  destruct (f a); [reflexivity|exact IH].
Qed.


Lemma bindVars_path (id gid : Z) (a : App) (now : Z) :
  appPath a <> EmptyString -> Tbl.path (bindVars id gid a now) = Some (appPath a).
Proof.
  intros H. unfold bindVars. cbn [Tbl.path].
  destruct (String.eqb_spec (appPath a) EmptyString); [contradiction|reflexivity].
Qed.





Arguments sqlUpsertApp : simpl never.
Arguments sqlUpdateApp : simpl never.
Arguments sqlDeleteApp : simpl never.

(** What a successful [addOrUpdateApp] did to the store. *)
Lemma addOrUpdateApp_ok (app : App) (w : World) :
  let r := addOrUpdateApp app w in
  result r = true ->
  exists gid id s1,
    appGroupAt (groups w) (groupIndex app) = Some gid
    /\ sqlUpsertApp (bindVars 0 gid app (currentMSecs w)) (db w) = Some (id, s1)
    /\ app_rows (db (world r)) = app_rows s1
    /\ groups (world r) = groups w
    /\ (io_ok 2 (sqlOutcomes w) = true ->
        is_alerted id (db (world r)) = alerted app).
Proof.
  unfold addOrUpdateApp, sqlInsertAppAlert, sqlDeleteAppAlert, is_alerted.
  run_op. split_cases; intros H; try discriminate;
    (do 3 eexists; repeat split; try reflexivity; try eassumption); simpl;
    try discriminate; intros Hio.
  all: try (rewrite existsb_app; simpl; rewrite Z.eqb_refl; apply orb_true_r).
  all: try congruence.
  all: try (apply not_true_is_false; intros Hex; apply existsb_exists in Hex;
            destruct Hex as (x & Hx & Hxe); apply filter_In in Hx;
            destruct Hx as [_ Hx]; apply Z.eqb_eq in Hxe; subst x;
            rewrite Z.eqb_refl in Hx; discriminate).
Qed.







(** ** The alerted flag *)

Lemma is_alerted_removed (id : Z) (rows : list Tbl.app) (al : list Z) :
  is_alerted id (mkStore rows (filter (fun i => negb (i =? id)) al)) = false.
Proof.
  unfold is_alerted. simpl. apply not_true_is_false. intros H.
  apply existsb_exists in H. destruct H as (x & Hx & Hxe).
  apply filter_In in Hx. destruct Hx as [_ Hx].
  apply Z.eqb_eq in Hxe. subst x. rewrite Z.eqb_refl in Hx. discriminate.
Qed.

Lemma logBlockedApp_alerts (logPath : string) (logBlocked' : bool) (w : World) (gid : Z) :
  let r := logBlockedApp logPath logBlocked' w in
  toLongLong (sqlSelectAppIdByPath (normalizePath logPath) (db w)) <= 0 ->
  appGroupAt (groups w) 0 = Some gid ->
  io_ok 2 (sqlOutcomes w) = true ->
  exists id s1,
    sqlUpsertApp (bindVars 0 gid (alertedApp logPath logBlocked') (currentMSecs w)) (db w)
    = Some (id, s1)
    /\ app_rows (db (world r)) = app_rows s1
    /\ is_alerted id (db (world r)) = true
    /\ In (EvEmit appAlerted) (events r).
Proof.
  cbv zeta. intros Hid Hg Hio.
  apply Z.ltb_ge in Hid.
  assert (E : logBlockedApp logPath logBlocked' w
              = bind (addOrUpdateApp (alertedApp logPath logBlocked'))
                     (fun ok => if ok then emitAppAlerted else ret tt) w).
  { unfold logBlockedApp, appIdByPath. cbv zeta. unfold bind at 1, gets.
    rewrite Hid. simpl.
    destruct (bind _ _ w) as [[u w'] e]. reflexivity. }
  rewrite E, bind_world, bind_events.
  assert (Hok : result (addOrUpdateApp (alertedApp logPath logBlocked') w) = true).
  { unfold addOrUpdateApp. run_op. unfold alertedApp at 1. simpl groupIndex.
    rewrite Hg. simpl.
    destruct (sqlUpsertApp _ (db w)) as [[id s1]|] eqn:U.
    - destruct (sqlOutcomes w) as [|[] ?]; [| |discriminate]; simpl;
        split_cases; reflexivity.
    - unfold sqlUpsertApp in U. destruct (find _ _); discriminate. }
  rewrite Hok. unfold emitAppAlerted, emit. rewrite world_triple.
  destruct (addOrUpdateApp_ok _ _ Hok) as (gid' & id & s1 & G & U & R & _ & A).
  change (groupIndex (alertedApp logPath logBlocked')) with 0 in G.
  rewrite Hg in G. injection G as <-.
  exists id, s1. repeat split.
  - exact U.
  - exact R.
  - rewrite (A Hio). reflexivity.
  - apply in_or_app. right. simpl. auto.
Qed.

Lemma updateApp_clears_alert (app : App) (w : World) :
  result (updateApp app w) = true ->
  is_alerted (appId app) (db (world (updateApp app w))) = false.
Proof.
  unfold updateApp, updateDriverUpdateAppConf, updateDriverConf,
    updateDriverUpdateApp, sqlDeleteAppAlert.
  run_op. split_cases; intros H; try discriminate; apply is_alerted_removed.
Qed.

Lemma updateAppBlocked_clears_alert (id : Z) (b k iw : bool) (w : World) :
  let r := updateAppBlocked id b k iw w in
  (fst (result r) = true -> is_alerted id (db (world r)) = false)
  /\ (fst (result r) = false -> db (world r) = db w).
Proof.
  unfold updateAppBlocked, saveAppBlocked, loadAppById, updateDriverUpdateApp,
    sqlSelectAppById, select_app_fields, sqlUpdateAppBlocked, sqlDeleteAppAlert,
    prepareAppBlocked.
  run_op.
  split_cases; (split; intros H; try discriminate; try reflexivity).
  all: match goal with
       | F : find _ _ = Some _ |- _ =>
           apply find_has_id in F; rewrite F; apply is_alerted_removed
       end.
Qed.

Lemma updateAppName_keeps_alert (id : Z) (n : string) (w : World) :
  app_alert (db (world (updateAppName id n w))) = app_alert (db w).
Proof.
  unfold updateAppName, sqlUpdateAppName. run_op. split_cases; reflexivity.
Qed.

(** C7, as amended.  An entry made by [logBlockedApp] (no row of a positive id
    holds the normalised path, group 0 exists, the two statements meet no
    input/output failure) is alerted; after a full update that returns true,
    and after a blocked-state update that returns true, the id is not
    alerted; a blocked-state update that returns false leaves the store as
    it was; a name update never changes the alert records. *)
Theorem alerted_after_operations (w : World) :
  (forall logPath logBlocked' gid,
      let r := logBlockedApp logPath logBlocked' w in
      toLongLong (sqlSelectAppIdByPath (normalizePath logPath) (db w)) <= 0 ->
      appGroupAt (groups w) 0 = Some gid ->
      io_ok 2 (sqlOutcomes w) = true ->
      exists id s1,
        sqlUpsertApp (bindVars 0 gid (alertedApp logPath logBlocked') (currentMSecs w))
          (db w) = Some (id, s1)
        /\ app_rows (db (world r)) = app_rows s1
        /\ is_alerted id (db (world r)) = true
        /\ In (EvEmit appAlerted) (events r))
  /\ (forall app,
      result (updateApp app w) = true ->
      is_alerted (appId app) (db (world (updateApp app w))) = false)
  /\ (forall id b k iw,
      let r := updateAppBlocked id b k iw w in
      (fst (result r) = true -> is_alerted id (db (world r)) = false)
      /\ (fst (result r) = false -> db (world r) = db w))
  /\ (forall id n,
      app_alert (db (world (updateAppName id n w))) = app_alert (db w)).
Proof.
  split; [intros; apply logBlockedApp_alerts; assumption|].
  split; [intros app; apply updateApp_clears_alert|].
  split; [intros id b k iw; apply updateAppBlocked_clears_alert|].
  intros id n. apply updateAppName_keeps_alert.
Qed.


(** ** Blocked rows and their [end_time] *)

Lemma forallb_map_where {A : Type} (ok p : A -> bool) (g : A -> A) (l : list A) :
  (forall x, p x = true -> ok (g x) = true) ->
  forallb ok l = true ->
  forallb ok (map (fun x => if p x then g x else x) l) = true.
Proof.
  intros Hg. induction l as [|a l IH]; simpl; [reflexivity|].
  intros H. apply andb_true_iff in H. destruct H as [Ha Hl].
  apply andb_true_iff. split; [|apply IH, Hl].
  destruct (p a) eqn:Pa; [apply Hg, Pa|exact Ha].
Qed.

Lemma forallb_filter_keeps {A : Type} (ok p : A -> bool) (l : list A) :
  forallb ok l = true -> forallb ok (filter p l) = true.
Proof.
  induction l as [|a l IH]; simpl; [reflexivity|].
  intros H. apply andb_true_iff in H. destruct H as [Ha Hl].
  destruct (p a); simpl; [rewrite Ha|]; auto.
Qed.

Lemma sqlUpsertApp_rows_ok (v : Tbl.app) (s s' : Store) (id : Z) :
  sqlUpsertApp v s = Some (id, s') ->
  row_ok v = true ->
  forallb row_ok (app_rows s) = true ->
  forallb row_ok (app_rows s') = true.
Proof.
  unfold sqlUpsertApp. intros H Hv Hs.
  destruct (find _ _); injection H as _ <-; simpl.
  - apply forallb_map_where; [|exact Hs]. intros x _. exact Hv.
  - rewrite forallb_app, Hs. simpl. unfold row_ok in *. simpl. rewrite Hv. reflexivity.
Qed.

Lemma sqlUpdateApp_rows_ok (v : Tbl.app) (s s' : Store) (u : unit) :
  sqlUpdateApp v s = Some (u, s') ->
  row_ok v = true ->
  forallb row_ok (app_rows s) = true ->
  forallb row_ok (app_rows s') = true.
Proof.
  unfold sqlUpdateApp. intros H Hv Hs.
  destruct (_ && _); [discriminate|]. injection H as _ <-. simpl.
  apply forallb_map_where; [|exact Hs]. intros x _. exact Hv.
Qed.

Lemma sqlDeleteApp_rows_ok (id : Z) (s s' : Store)
    (res : option (option string * bool)) :
  sqlDeleteApp id s = Some (res, s') ->
  forallb row_ok (app_rows s) = true ->
  forallb row_ok (app_rows s') = true.
Proof.
  unfold sqlDeleteApp. intros H Hs.
  destruct (find _ _); injection H as _ <-; [|exact Hs]. simpl.
  apply forallb_filter_keeps, Hs.
Qed.

Lemma reblock_rows_ok (id : Z) (b k : bool) (rows : list Tbl.app) :
  forallb row_ok rows = true ->
  forallb row_ok (map (fun r => if has_id id r then reblock b k r else r) rows) = true.
Proof.
  apply forallb_map_where. intros x _. unfold row_ok. simpl.
  rewrite andb_false_r. reflexivity.
Qed.

Lemma rename_rows_ok (id : Z) (n : string) (rows : list Tbl.app) :
  forallb row_ok rows = true ->
  forallb row_ok (map (fun r => if has_id id r then rename n r else r) rows) = true.
Proof.
  induction rows as [|a l IH]; simpl; [reflexivity|].
  intros H. apply andb_true_iff in H. destruct H as [Ha Hl].
  apply andb_true_iff. split; [|apply IH, Hl].
  destruct (has_id id a); exact Ha.
Qed.

Lemma row_ok_bindVars (id gid : Z) (app : App) (now : Z) :
  row_ok (bindVars id gid app now) = dialog_entry app.
Proof. reflexivity. Qed.

Ltac rows_ok :=
  unfold no_blocked_deadline in *; simpl;
  try assumption;
  try (apply reblock_rows_ok; assumption);
  try (apply rename_rows_ok; assumption);
  try match goal with
      | H : sqlUpsertApp _ _ = Some _ |- _ =>
          eapply sqlUpsertApp_rows_ok; [exact H|rewrite row_ok_bindVars|]; assumption
      | H : sqlUpdateApp _ _ = Some _ |- _ =>
          eapply sqlUpdateApp_rows_ok; [exact H|rewrite row_ok_bindVars|]; assumption
      | H : sqlDeleteApp _ _ = Some _ |- _ =>
          eapply sqlDeleteApp_rows_ok; [exact H|]; assumption
      end.

Lemma addOrUpdateApp_keeps (app : App) (w : World) :
  dialog_entry app = true ->
  no_blocked_deadline (db w) = true ->
  no_blocked_deadline (db (world (addOrUpdateApp app w))) = true.
Proof.
  intros G I. unfold addOrUpdateApp, sqlInsertAppAlert, sqlDeleteAppAlert.
  run_op. split_cases; rows_ok.
Qed.

Lemma updateDriverConf_db (onlyFlags : bool) (w : World) :
  db (world (updateDriverConf onlyFlags w)) = db w.
Proof. apply updateDriverConf_after_commit. Qed.

Lemma updateDriverUpdateApp_db (app : App) (remove : bool) (w : World) :
  db (world (updateDriverUpdateApp app remove w)) = db w.
Proof.
  unfold updateDriverUpdateApp. run_op. split_cases; reflexivity.
Qed.

Lemma addApp_keeps (app : App) (w : World) :
  dialog_entry app = true ->
  no_blocked_deadline (db w) = true ->
  no_blocked_deadline (db (world (addApp app w))) = true.
Proof.
  intros G I. unfold addApp. rewrite bind_world.
  pose proof (addOrUpdateApp_keeps app w G I) as I'.
  destruct (result (addOrUpdateApp app w)); [|exact I'].
  rewrite bind_world. unfold ret at 1. rewrite world_triple.
  unfold updateDriverUpdateAppConf.
  destruct (isWildcard app);
    [rewrite updateDriverConf_db|rewrite updateDriverUpdateApp_db]; exact I'.
Qed.

Lemma updateApp_keeps (app : App) (w : World) :
  dialog_entry app = true ->
  no_blocked_deadline (db w) = true ->
  no_blocked_deadline (db (world (updateApp app w))) = true.
Proof.
  intros G I.
  unfold updateApp, updateDriverUpdateAppConf, updateDriverConf,
    updateDriverUpdateApp, sqlDeleteAppAlert.
  run_op. split_cases; rows_ok.
Qed.

Lemma updateAppBlocked_keeps (id : Z) (b k iw : bool) (w : World) :
  no_blocked_deadline (db w) = true ->
  no_blocked_deadline (db (world (updateAppBlocked id b k iw w))) = true.
Proof.
  intros I.
  unfold updateAppBlocked, saveAppBlocked, loadAppById, updateDriverUpdateApp,
    sqlUpdateAppBlocked, sqlDeleteAppAlert, prepareAppBlocked.
  run_op. split_cases; rows_ok.
Qed.

Lemma deleteApp_keeps (id : Z) (iw : bool) (w : World) :
  no_blocked_deadline (db w) = true ->
  no_blocked_deadline (db (world (deleteApp id iw w))) = true.
Proof.
  intros I.
  unfold deleteApp, updateDriverDeleteApp, updateDriverUpdateApp, sqlDeleteAppAlert.
  run_op. split_cases; rows_ok.
Qed.

Lemma updateAppName_keeps (id : Z) (n : string) (w : World) :
  no_blocked_deadline (db w) = true ->
  no_blocked_deadline (db (world (updateAppName id n w))) = true.
Proof.
  intros I. unfold updateAppName, sqlUpdateAppName.
  run_op. split_cases; rows_ok.
Qed.

Lemma updateAppEndTimer_db (w : World) :
  db (world (updateAppEndTimer w)) = db w.
Proof. rewrite updateAppEndTimer_run. reflexivity. Qed.

Lemma deleteApps_keeps (ids : list Z) (w : World) :
  no_blocked_deadline (db w) = true ->
  no_blocked_deadline (db (world (deleteApps ids w))) = true.
Proof.
  intros I. unfold deleteApps. rewrite bind_world.
  assert (E : forall iw w0, no_blocked_deadline (db w0) = true ->
              no_blocked_deadline (db (world (deleteApps_each ids iw w0))) = true).
  { induction ids as [|id ids IH]; intros iw w0 I0; simpl; [exact I0|].
    rewrite bind_world. apply IH, deleteApp_keeps, I0. }
  specialize (E false w I).
  destruct (result (deleteApps_each ids false w)); [|exact E].
  rewrite bind_world. unfold ret at 1. rewrite world_triple, updateDriverConf_db.
  exact E.
Qed.

Lemma updateAppsBlocked_keeps (ids : list Z) (b k : bool) (w : World) :
  no_blocked_deadline (db w) = true ->
  no_blocked_deadline (db (world (updateAppsBlocked ids b k w))) = true.
Proof.
  intros I. unfold updateAppsBlocked. rewrite bind_world.
  assert (E : forall iw w0, no_blocked_deadline (db w0) = true ->
              no_blocked_deadline
                (db (world (updateAppsBlocked_each ids b k iw w0))) = true).
  { induction ids as [|id ids IH]; intros iw w0 I0; simpl; [exact I0|].
    rewrite bind_world. apply IH, updateAppBlocked_keeps, I0. }
  specialize (E (7 <? Z.of_nat (List.length ids)) w I).
  destruct (result (updateAppsBlocked_each ids b k _ w)); [|exact E].
  rewrite bind_world. unfold ret at 1. rewrite world_triple, updateDriverConf_db.
  exact E.
Qed.

Lemma logBlockedApp_keeps (p : string) (b : bool) (w : World) :
  no_blocked_deadline (db w) = true ->
  no_blocked_deadline (db (world (logBlockedApp p b w))) = true.
Proof.
  intros I. unfold logBlockedApp, appIdByPath. cbv zeta.
  rewrite bind_world. unfold gets at 1 2. unfold result at 1. rewrite world_triple.
  simpl fst.
  destruct (0 <? _); [exact I|].
  rewrite bind_world.
  assert (I' : no_blocked_deadline
                 (db (world (addOrUpdateApp (alertedApp p b) w))) = true).
  { apply addOrUpdateApp_keeps; [|exact I].
    unfold dialog_entry, alertedApp, newApp. simpl.
    rewrite andb_false_r. reflexivity. }
  destruct (result (addOrUpdateApp (alertedApp p b) w));
    unfold emitAppAlerted, emit, ret; rewrite world_triple; exact I'.
Qed.

Lemma updateAppEndTimes_keeps (w : World) :
  no_blocked_deadline (db w) = true ->
  no_blocked_deadline (db (world (updateAppEndTimes w))) = true.
Proof.
  intros I.
  assert (E : forall recs w0, no_blocked_deadline (db w0) = true ->
                no_blocked_deadline (db (world (updateAppEndTimes_each recs w0))) = true).
  { induction recs as [|rec recs IH]; intros w0 I0; simpl; [exact I0|].
    rewrite bind_world. apply IH, updateApp_keeps; [|exact I0].
    destruct rec as [[r gi] al]. reflexivity. }
  rewrite updateAppEndTimes_unfold.
  destruct (sqlOutcomes w) as [|[] o]; try exact I;
    rewrite bind_world, updateAppEndTimer_db; apply E; exact I.
Qed.

Lemma run_call_keeps (c : Call) (w : World) :
  from_dialog c = true ->
  no_blocked_deadline (db w) = true ->
  no_blocked_deadline (db (world (run_call c w))) = true.
Proof.
  intros G I. destruct c; simpl in *.
  - rewrite bind_world. apply addApp_keeps; assumption.
  - rewrite bind_world. apply updateApp_keeps; assumption.
  - apply deleteApps_keeps, I.
  - apply updateAppsBlocked_keeps, I.
  - rewrite bind_world. apply updateAppName_keeps, I.
  - apply logBlockedApp_keeps, I.
  - apply updateAppEndTimes_keeps, I.
  - rewrite updateAppEndTimer_db. exact I.
  - exact I.
Qed.

Lemma updateAppBlocked_clears_end_time (id : Z) (b k iw : bool) (w : World) :
  let r := updateAppBlocked id b k iw w in
  fst (result r) = true ->
  forall row, In row (app_rows (db (world r))) ->
              Tbl.app_id row = id ->
              Tbl.blocked row = b /\ Tbl.kill_process row = k
              /\ Tbl.end_time row = None.
Proof.
  unfold updateAppBlocked, saveAppBlocked, loadAppById, updateDriverUpdateApp,
    sqlSelectAppById, select_app_fields, sqlUpdateAppBlocked, sqlDeleteAppAlert,
    prepareAppBlocked.
  run_op.
  split_cases; intros H; try discriminate; intros row Hin Hid.
  all: match goal with
       | F : find _ _ = Some _ |- _ => apply find_has_id in F; rewrite F in Hin
       end.
  all: apply in_map_iff in Hin; destruct Hin as (x & Hx & _).
  all: assert (Hh : has_id id x = true)
         by (destruct (has_id id x) eqn:E; [reflexivity|];
             subst row; unfold has_id in E; apply Z.eqb_neq in E; contradiction).
  all: rewrite Hh in Hx; subst row; simpl; auto.
Qed.

(** C3, as amended.  The blocked-state update writes [end_time = NULL] with
    the [blocked] and [kill_process] it is given, whatever the row held.  The
    full update and the upsert persist the [endTime] they are passed; when
    every entry passed to [addApp] and [updateApp] carries an [endTime] only
    if it is not blocked, as the edit dialog builds them, no sequence of calls
    leads from a store without a blocked row with an [end_time] to a store
    with one. *)
Theorem blocked_rows_have_no_end_time (w : World) (calls : list Call) :
  (forall id b k iw,
      let r := updateAppBlocked id b k iw w in
      fst (result r) = true ->
      forall row, In row (app_rows (db (world r))) ->
                  Tbl.app_id row = id ->
                  Tbl.blocked row = b /\ Tbl.kill_process row = k
                  /\ Tbl.end_time row = None)
  /\ (forallb from_dialog calls = true ->
      no_blocked_deadline (db w) = true ->
      no_blocked_deadline (db (world (run_calls calls w))) = true).
Proof.
  split; [intros id b k iw; apply updateAppBlocked_clears_end_time|].
  revert w. induction calls as [|c calls IH]; intros w G I; simpl; [exact I|].
  simpl in G. apply andb_true_iff in G. destruct G as [Gc Gs].
  rewrite bind_world. apply IH; [exact Gs|]. apply run_call_keeps; assumption.
Qed.


(** ** The expiry pass *)

Lemma distinct_NoDup (l : list Z) : distinct l = true -> NoDup l.
Proof.
  induction l as [|x l IH]; simpl; intros H; constructor.
  - apply andb_true_iff in H. destruct H as [H _].
    apply negb_true_iff in H. intros Hin.
    assert (existsb (Z.eqb x) l = true); [|congruence].
    apply existsb_exists. exists x. split; [exact Hin|apply Z.eqb_refl].
  - apply andb_true_iff in H. apply IH, H.
Qed.

Lemma unique_paths_spec (rows : list Tbl.app) :
  unique_paths rows = true ->
  forall r1 r2, In r1 rows -> In r2 rows ->
                path_is (Tbl.path r1) r2 = true -> Tbl.app_id r1 = Tbl.app_id r2.
Proof.
  unfold unique_paths. intros H r1 r2 H1 H2 Hp.
  rewrite forallb_forall in H. specialize (H r1 H1).
  rewrite forallb_forall in H. specialize (H r2 H2).
  rewrite Hp in H. simpl in H. apply Z.eqb_eq, H.
Qed.

Lemma same_id_same_row (rows : list Tbl.app) (r x : Tbl.app) :
  NoDup (map Tbl.app_id rows) ->
  In r rows -> In x rows -> Tbl.app_id x = Tbl.app_id r -> x = r.
Proof.
  induction rows as [|a rows IH]; simpl; intros Hnd Hr Hx E; [contradiction|].
  inversion Hnd as [|? ? Hnotin Hnd']; subst.
  destruct Hr as [<-|Hr], Hx as [<-|Hx]; auto.
  - exfalso. apply Hnotin. rewrite <- E. apply in_map, Hx.
  - exfalso. apply Hnotin. rewrite E. apply in_map, Hr.
Qed.

Lemma no_io_failure_tl (o : list bool) :
  no_io_failure o = true -> no_io_failure (tl o) = true.
Proof.
  destruct o as [|b o]; simpl; [reflexivity|].
  intros H. apply andb_true_iff in H. apply H.
Qed.

Lemma executeEx_no_failure {R : Type} (stmt : Store -> option (R * Store)) (w : World) :
  no_io_failure (sqlOutcomes w) = true ->
  executeEx stmt w
  = match stmt (db w) with
    | Some (r, s') =>
        (Some r, set_db s' (set_sqlOutcomes (tl (sqlOutcomes w)) w), [EvExec true])
    | None => (None, set_sqlOutcomes (tl (sqlOutcomes w)) w, [EvExec false])
    end.
Proof.
  unfold executeEx. destruct (sqlOutcomes w) as [|[] o]; simpl; intros H;
    [reflexivity|reflexivity|discriminate].
Qed.

Lemma index_of_nth (gs : list Z) (gid gi : Z) :
  index_of gid gs = Some gi -> appGroupAt gs gi = Some gid.
Proof.
  revert gi. induction gs as [|g gs IH]; simpl; intros gi H; [discriminate|].
  destruct (g =? gid) eqn:E.
  - injection H as <-. apply Z.eqb_eq in E. subst. reflexivity.
  - destruct (index_of gid gs) as [j|] eqn:Ej; [|discriminate].
    injection H as <-. specialize (IH j eq_refl).
    unfold appGroupAt in *.
    destruct (j <? 0) eqn:Ej0; [discriminate|]. apply Z.ltb_ge in Ej0.
    assert (E' : (Z.succ j <? 0) = false) by (apply Z.ltb_ge; lia).
    rewrite E', Z2Nat.inj_succ by exact Ej0. simpl. exact IH.
Qed.

(** What a full update without failure does. *)
Lemma updateApp_run_ok (app : App) (w : World) (gid : Z) (s1 : Store) :
  let r := updateApp app w in
  appGroupAt (groups w) (groupIndex app) = Some gid ->
  no_io_failure (sqlOutcomes w) = true ->
  sqlUpdateApp (bindVars (appId app) gid app 0) (db w) = Some (tt, s1) ->
  result r = true
  /\ db (world r)
     = mkStore (app_rows s1) (filter (fun i => negb (i =? appId app)) (app_alert s1))
  /\ groups (world r) = groups w
  /\ currentMSecs (world r) = currentMSecs w
  /\ no_io_failure (sqlOutcomes (world r)) = true
  /\ count is_updated_emit (events r) = 1%nat
  /\ count is_commit (events r) = 1%nat
  /\ count is_sync_attempt (events r) = 1%nat.
Proof.
  cbv zeta. intros Hg Hio Hu.
  pose proof (no_io_failure_tl _ (no_io_failure_tl _ Hio)) as Hio2.
  unfold updateApp, updateDriverUpdateAppConf, updateDriverConf,
    updateDriverUpdateApp, sqlDeleteAppAlert.
  run_op. rewrite Hg. simpl.
  destruct (sqlOutcomes w) as [|[] [|[] o]]; simpl in Hio; try discriminate;
    simpl; rewrite Hu; simpl; split_cases; auto 10.
Qed.

Lemma expired_overwrite (r : Tbl.app) (gi : Z) (al : bool) (now : Z) :
  overwrite (bindVars (Tbl.app_id r) (Tbl.app_group_id r) (expiredApp (r, gi, al)) now) r
  = expired_row r.
Proof.
  destruct r as [id g op [p|] n iw ug ac kc lo lb lc b k az rz et ct];
    unfold overwrite, bindVars, expired_row, expiredApp; simpl; reflexivity.
Qed.

Lemma expired_bound_path (r : Tbl.app) (gi : Z) (al : bool) (now : Z) (x : Tbl.app) :
  path_is (Tbl.path (bindVars (Tbl.app_id r) (Tbl.app_group_id r)
                       (expiredApp (r, gi, al)) now)) x = true ->
  path_is (Tbl.path r) x = true.
Proof.
  unfold bindVars, expiredApp. simpl.
  destruct (Tbl.path r) as [p|]; simpl.
  - destruct (String.eqb p EmptyString); [discriminate|auto].
  - discriminate.
Qed.

(** The update statement of an expiry goes through the unique constraint and
    rewrites the one row of its key. *)
Lemma sqlUpdateApp_expired (r : Tbl.app) (gi : Z) (al : bool) (s : Store) :
  In r (app_rows s) ->
  NoDup (map Tbl.app_id (app_rows s)) ->
  unique_paths (app_rows s) = true ->
  sqlUpdateApp (bindVars (Tbl.app_id r) (Tbl.app_group_id r) (expiredApp (r, gi, al)) 0) s
  = Some (tt, mkStore (map (fun x => if has_id (Tbl.app_id r) x then expired_row x else x)
                           (app_rows s))
                      (app_alert s)).
Proof.
  intros Hin Hnd Hup. unfold sqlUpdateApp.
  change (Tbl.app_id (bindVars (Tbl.app_id r) (Tbl.app_group_id r)
                        (expiredApp (r, gi, al)) 0)) with (Tbl.app_id r).
  assert (Hno : existsb (fun x => path_is (Tbl.path (bindVars (Tbl.app_id r)
                                     (Tbl.app_group_id r) (expiredApp (r, gi, al)) 0)) x
                                  && negb (has_id (Tbl.app_id r) x)) (app_rows s) = false).
  { apply not_true_is_false. intros H. apply existsb_exists in H.
    destruct H as (x & Hx & H). apply andb_true_iff in H. destruct H as [Hp Hid].
    apply expired_bound_path in Hp.
    pose proof (unique_paths_spec _ Hup r x Hin Hx Hp) as E.
    unfold has_id in Hid. rewrite <- E, Z.eqb_refl in Hid. discriminate. }
  rewrite Hno, andb_false_r. do 3 f_equal.
  apply map_ext_in. intros x Hx.
  destruct (has_id (Tbl.app_id r) x) eqn:E; [|reflexivity].
  unfold has_id in E. apply Z.eqb_eq in E.
  rewrite (same_id_same_row _ r x Hnd Hin Hx E).
  apply expired_overwrite.
Qed.

Lemma expired_row_id (x : Tbl.app) : Tbl.app_id (expired_row x) = Tbl.app_id x.
Proof. reflexivity. Qed.

Lemma map_expire_ids (p : Tbl.app -> bool) (rows : list Tbl.app) :
  map Tbl.app_id (map (fun x => if p x then expired_row x else x) rows)
  = map Tbl.app_id rows.
Proof.
  rewrite map_map. apply map_ext. intros x. destruct (p x); reflexivity.
Qed.

Lemma expired_row_path (x y : Tbl.app) :
  path_is (Tbl.path (expired_row x)) y = true -> path_is (Tbl.path x) y = true.
Proof.
  unfold expired_row. simpl. destruct (Tbl.path x) as [p|]; [|discriminate].
  destruct (String.eqb p EmptyString); [discriminate|auto].
Qed.

Lemma path_is_expired_row (q : option string) (y : Tbl.app) :
  path_is q (expired_row y) = true -> path_is q y = true.
Proof.
  unfold path_is, expired_row. simpl. destruct q as [a|]; [|discriminate].
  destruct (Tbl.path y) as [p|]; [|discriminate].
  destruct (String.eqb p EmptyString); [discriminate|auto].
Qed.

Lemma unique_paths_expire (p : Tbl.app -> bool) (rows : list Tbl.app) :
  unique_paths rows = true ->
  unique_paths (map (fun x => if p x then expired_row x else x) rows) = true.
Proof.
  intros H. pose proof (unique_paths_spec _ H) as Hs.
  unfold unique_paths. apply forallb_forall. intros r1 H1.
  apply forallb_forall. intros r2 H2.
  apply in_map_iff in H1. destruct H1 as (x1 & <- & Hx1).
  apply in_map_iff in H2. destruct H2 as (x2 & <- & Hx2).
  destruct (path_is _ _) eqn:Hp; [|reflexivity]. simpl.
  assert (E : Tbl.app_id x1 = Tbl.app_id x2).
  { apply Hs; [exact Hx1|exact Hx2|].
    destruct (p x1), (p x2);
      repeat (first [apply expired_row_path in Hp|apply path_is_expired_row in Hp]);
      exact Hp. }
  destruct (p x1), (p x2); rewrite ?expired_row_id, E; apply Z.eqb_refl.
Qed.

Lemma columnUInt_idem (v : Z) : columnUInt (columnUInt v) = columnUInt v.
Proof. unfold columnUInt. apply Z.mod_mod. lia. Qed.

Lemma expired_row_idem (x : Tbl.app) : expired_row (expired_row x) = expired_row x.
Proof.
  unfold expired_row. simpl. rewrite !columnUInt_idem.
  destruct (Tbl.path x) as [p|]; [|reflexivity].
  destruct (String.eqb p EmptyString) eqn:E; [reflexivity|]. rewrite E. reflexivity.
Qed.

Lemma filter_twice {A : Type} (f g : A -> bool) (l : list A) :
  filter f (filter g l) = filter (fun x => g x && f x) l.
Proof.
  induction l as [|a l IH]; simpl; [reflexivity|].
  destruct (g a); simpl; [destruct (f a); rewrite IH; reflexivity|exact IH].
Qed.

Lemma updateAppEndTimes_each_run (recs : list (Tbl.app * Z * bool)) (w : World) :
  let r := updateAppEndTimes_each recs w in
  no_io_failure (sqlOutcomes w) = true ->
  NoDup (map Tbl.app_id (app_rows (db w))) ->
  unique_paths (app_rows (db w)) = true ->
  NoDup (map (fun rec => Tbl.app_id (row_of rec)) recs) ->
  (forall rec, In rec recs ->
     In (row_of rec) (app_rows (db w))
     /\ index_of (Tbl.app_group_id (row_of rec)) (groups w) = Some (snd (fst rec))) ->
  app_rows (db (world r))
  = map (fun x => if expire_in recs x then expired_row x else x) (app_rows (db w))
  /\ app_alert (db (world r))
     = filter (fun i => negb (existsb (fun rec => i =? Tbl.app_id (row_of rec)) recs))
              (app_alert (db w))
  /\ currentMSecs (world r) = currentMSecs w
  /\ count is_commit (events r) = List.length recs
  /\ count is_updated_emit (events r) = List.length recs
  /\ count is_sync_attempt (events r) = List.length recs.
Proof.
  revert w. induction recs as [|rec recs IH]; intros w; cbv zeta;
    intros Hio Hnd Hup Hrecs Hin.
  - simpl updateAppEndTimes_each. unfold ret, world, events. simpl.
    repeat split; auto.
    + symmetry. erewrite map_ext; [apply map_id|]. reflexivity.
    + induction (app_alert (db w)) as [|a l IHl]; simpl;
        [reflexivity|f_equal; exact IHl].
  - destruct rec as [[r0 gi] al].
    destruct (Hin (r0, gi, al) (or_introl eq_refl)) as [Hr0 Hgi]. simpl in Hr0, Hgi.
    inversion Hrecs as [|? ? Hnotin Hrecs']; subst.
    pose proof (sqlUpdateApp_expired r0 gi al (db w) Hr0 Hnd Hup) as Hu.
    pose proof (updateApp_run_ok (expiredApp (r0, gi, al)) w (Tbl.app_group_id r0) _
                  (index_of_nth _ _ _ Hgi) Hio Hu)
      as (_ & Hdb & Hgs & Hclk & Hio' & Hc1 & Hc2 & Hc3).
    set (w1 := world (updateApp (expiredApp (r0, gi, al)) w)) in *.
    change (appId (expiredApp (r0, gi, al))) with (Tbl.app_id r0) in Hdb.
    simpl in Hdb.
    destruct (IH w1) as (Hrows & Hal & Hclk' & Hk1 & Hk2 & Hk3).
    + exact Hio'.
    + rewrite Hdb. simpl. rewrite map_expire_ids. exact Hnd.
    + rewrite Hdb. simpl. apply unique_paths_expire, Hup.
    + exact Hrecs'.
    + intros rec Hrec. destruct (Hin rec (or_intror Hrec)) as [Hrow Hidx].
      split; [|rewrite Hgs; exact Hidx].
      rewrite Hdb. simpl. apply in_map_iff. exists (row_of rec). split; [|exact Hrow].
      destruct (has_id (Tbl.app_id r0) (row_of rec)) eqn:E; [|reflexivity].
      exfalso. apply Hnotin. unfold has_id in E. apply Z.eqb_eq in E.
      change (row_of (r0, gi, al)) with r0. rewrite <- E.
      apply (in_map (fun rec => Tbl.app_id (row_of rec))), Hrec.
    + simpl updateAppEndTimes_each. rewrite bind_world, bind_events.
      fold w1. rewrite !count_app, Hc1, Hc2, Hc3, Hk1, Hk2, Hk3, Hclk', Hclk.
      rewrite Hrows, Hal, Hdb. simpl app_rows. simpl app_alert.
      repeat split; auto.
      * rewrite map_map. apply map_ext. intros x.
        unfold expire_in. simpl existsb. change (row_of (r0, gi, al)) with r0.
        destruct (has_id (Tbl.app_id r0) x) eqn:E; simpl orb.
        -- destruct (existsb _ recs); [apply expired_row_idem|reflexivity].
        -- reflexivity.
      * rewrite filter_twice. apply filter_ext. intros i.
        simpl existsb. change (row_of (r0, gi, al)) with r0.
        rewrite negb_orb. reflexivity.
Qed.

Lemma select_rows_all (gs : list Z) (s : Store) (rows : list Tbl.app) :
  forallb (fun r => isSome (index_of (Tbl.app_group_id r) gs)) rows = true ->
  map row_of (select_rows gs s rows) = rows
  /\ (forall rec, In rec (select_rows gs s rows) ->
        index_of (Tbl.app_group_id (row_of rec)) gs = Some (snd (fst rec))).
Proof.
  induction rows as [|r rows IH]; simpl; intros H.
  - split; [reflexivity|intros rec []].
  - apply andb_true_iff in H. destruct H as [Hr Hrows].
    destruct (IH Hrows) as [IH1 IH2].
    unfold select_app_fields.
    destruct (index_of (Tbl.app_group_id r) gs) as [gi|] eqn:E; [|discriminate].
    simpl. split; [f_equal; exact IH1|].
    intros rec [<-|Hrec]; [exact E|apply IH2, Hrec].
Qed.

Lemma NoDup_map_filter {A : Type} (f : A -> Z) (p : A -> bool) (l : list A) :
  NoDup (map f l) -> NoDup (map f (filter p l)).
Proof.
  induction l as [|a l IH]; simpl; intros H; [constructor|].
  inversion H as [|? ? Hnotin H']; subst.
  destruct (p a); simpl; [|apply IH, H'].
  constructor; [|apply IH, H'].
  intros Hin. apply Hnotin. apply in_map_iff in Hin.
  destruct Hin as (x & <- & Hx). apply filter_In in Hx. apply in_map, Hx.
Qed.

Lemma no_io_failure_hd (o : list bool) :
  no_io_failure o = true -> hd true o = true.
Proof.
  destruct o as [|[] o]; simpl; auto.
Qed.

Lemma updateAppEndTimes_run (w : World) :
  let w0 := set_sqlOutcomes (tl (sqlOutcomes w)) w in
  let recs := sqlSelectEndedApps (groups w) (currentMSecs w) (db w) in
  let r1 := updateAppEndTimes_each recs w0 in
  hd true (sqlOutcomes w) = true ->
  world (updateAppEndTimes w) = world (updateAppEndTimer (world r1))
  /\ events (updateAppEndTimes w) = events r1.
Proof.
  cbv zeta. intros Hhd. rewrite updateAppEndTimes_unfold.
  assert (E : forall (A : Type) (x y : A),
            match sqlOutcomes w with false :: _ => x | _ => y end = y).
  { intros A x y. destruct (sqlOutcomes w) as [|[] o]; simpl in Hhd;
      [reflexivity|reflexivity|discriminate]. }
  rewrite E. unfold bind.
  destruct (updateAppEndTimes_each _ _) as [[u w1] e1].
  rewrite world_triple, !updateAppEndTimer_run. simpl. rewrite app_nil_r. auto.
Qed.

(** The events of a firing are those of the updates of some rows. *)
Lemma updateAppEndTimes_events (w : World) :
  exists recs w0,
    events (updateAppEndTimes w) = events (updateAppEndTimes_each recs w0).
Proof.
  destruct (hd true (sqlOutcomes w)) eqn:Hhd.
  - destruct (updateAppEndTimes_run w Hhd) as [_ E]. eauto.
  - exists [], w. rewrite updateAppEndTimes_unfold.
    destruct (sqlOutcomes w) as [|[] o]; simpl in Hhd; try discriminate. reflexivity.
Qed.

(** The pass proper, once the selecting statement is prepared. *)
Lemma updateAppEndTimes_prepared_expires (w : World) :
  let r := updateAppEndTimes_prepared w in
  let now := currentMSecs w in
  let rows := app_rows (db w) in
  store_wf (groups w) (db w) = true ->
  no_io_failure (sqlOutcomes w) = true ->
  app_rows (db (world r)) = map (fun x => if ended now x then expired_row x else x) rows
  /\ (forall x, In x rows -> ended now x = true ->
                is_alerted (Tbl.app_id x) (db (world r)) = false)
  /\ count is_commit (events r) = List.length (filter (ended now) rows)
  /\ count is_updated_emit (events r) = List.length (filter (ended now) rows)
  /\ count is_sync_attempt (events r) = List.length (filter (ended now) rows)
  /\ appEndTimer (world r)
     = match min_end_time (app_rows (db (world r))) with
       | Some m => Some (timer_interval m now)
       | None => None
       end.
Proof.
  cbv zeta. intros Hwf Hio.
  unfold store_wf in Hwf.
  apply andb_true_iff in Hwf. destruct Hwf as [Hwf Hgr].
  apply andb_true_iff in Hwf. destruct Hwf as [Hid Hup].
  apply distinct_NoDup in Hid.
  assert (Ew : world (updateAppEndTimes_prepared w)
               = world (updateAppEndTimer
                          (world (updateAppEndTimes_each
                                    (sqlSelectEndedApps (groups w) (currentMSecs w) (db w)) w)))
             /\ events (updateAppEndTimes_prepared w)
                = events (updateAppEndTimes_each
                            (sqlSelectEndedApps (groups w) (currentMSecs w) (db w)) w)).
  { rewrite updateAppEndTimes_prepared_run. unfold bind.
    destruct (updateAppEndTimes_each _ _) as [[u w1] e1].
    rewrite world_triple, !updateAppEndTimer_run. simpl. rewrite app_nil_r. auto. }
  destruct Ew as [Ew Ee]. rewrite Ew, Ee.
  rewrite updateAppEndTimer_run, world_triple.
  set (recs := sqlSelectEndedApps (groups w) (currentMSecs w) (db w)) in *.
  destruct (select_rows_all (groups w) (db w)
              (filter (ended (currentMSecs w)) (app_rows (db w)))
              (forallb_filter_keeps _ _ _ Hgr)) as [Hrows Hidx].
  change (select_rows (groups w) (db w)
            (filter (ended (currentMSecs w)) (app_rows (db w))))
    with recs in Hrows, Hidx.
  assert (Hin : forall rec, In rec recs ->
                  In (row_of rec) (filter (ended (currentMSecs w)) (app_rows (db w)))).
  { intros rec Hrec. rewrite <- Hrows. apply in_map, Hrec. }
  destruct (updateAppEndTimes_each_run recs w Hio Hid Hup)
    as (Hr & Ha & Hc & Hk1 & Hk2 & Hk3).
  { replace (map (fun rec => Tbl.app_id (row_of rec)) recs)
      with (map Tbl.app_id (map row_of recs)) by apply map_map.
    rewrite Hrows. apply NoDup_map_filter, Hid. }
  { intros rec Hrec. split; [|apply Hidx, Hrec].
    apply Hin in Hrec. apply filter_In in Hrec. apply Hrec. }
  assert (Hlen : List.length recs
                 = List.length (filter (ended (currentMSecs w)) (app_rows (db w)))).
  { rewrite <- Hrows. symmetry. apply length_map. }
  assert (Hex : forall x, In x (app_rows (db w)) ->
                  expire_in recs x = ended (currentMSecs w) x).
  { intros x Hx. destruct (ended (currentMSecs w) x) eqn:E.
    - assert (Hf : In x (filter (ended (currentMSecs w)) (app_rows (db w))))
        by (apply filter_In; auto).
      rewrite <- Hrows in Hf. apply in_map_iff in Hf. destruct Hf as (rec & Er & Hrec).
      apply existsb_exists. exists rec. split; [exact Hrec|].
      rewrite Er. apply Z.eqb_refl.
    - apply not_true_is_false. intros H. apply existsb_exists in H.
      destruct H as (rec & Hrec & H). apply Hin in Hrec. apply filter_In in Hrec.
      destruct Hrec as [Hrow Hended]. unfold has_id in H. apply Z.eqb_eq in H.
      rewrite (same_id_same_row _ _ _ Hid Hrow Hx H) in E. congruence. }
  simpl db. simpl appEndTimer.
  rewrite Hc, Hk1, Hk2, Hk3, Hlen, Hr.
  repeat split; auto.
  - apply map_ext_in. intros x Hx. rewrite (Hex x Hx). reflexivity.
  - intros x Hx E. unfold is_alerted. rewrite Ha.
    apply not_true_is_false. intros H. apply existsb_exists in H.
    destruct H as (i & Hi & Ei). apply Z.eqb_eq in Ei. subst i.
    apply filter_In in Hi. destruct Hi as [_ Hi].
    apply negb_true_iff in Hi.
    assert (Hf : In x (filter (ended (currentMSecs w)) (app_rows (db w))))
      by (apply filter_In; auto).
    rewrite <- Hrows in Hf. apply in_map_iff in Hf. destruct Hf as (rec & Er & Hrec).
    assert (existsb (fun rec => Tbl.app_id x =? Tbl.app_id (row_of rec)) recs = true);
      [|congruence].
    apply existsb_exists. exists rec. split; [exact Hrec|].
    rewrite Er. apply Z.eqb_refl.
Qed.

(** The expiry pass on a store that meets the schema, without input/output
    failure. *)
Lemma updateAppEndTimes_expires (w : World) :
  let r := updateAppEndTimes w in
  let now := currentMSecs w in
  let rows := app_rows (db w) in
  store_wf (groups w) (db w) = true ->
  no_io_failure (sqlOutcomes w) = true ->
  app_rows (db (world r)) = map (fun x => if ended now x then expired_row x else x) rows
  /\ (forall x, In x rows -> ended now x = true ->
                is_alerted (Tbl.app_id x) (db (world r)) = false)
  /\ count is_commit (events r) = List.length (filter (ended now) rows)
  /\ count is_updated_emit (events r) = List.length (filter (ended now) rows)
  /\ count is_sync_attempt (events r) = List.length (filter (ended now) rows)
  /\ appEndTimer (world r)
     = match min_end_time (app_rows (db (world r))) with
       | Some m => Some (timer_interval m now)
       | None => None
       end.
Proof.
  cbv zeta. intros Hwf Hio. rewrite updateAppEndTimes_unfold.
  pose proof (updateAppEndTimes_prepared_expires (set_sqlOutcomes (tl (sqlOutcomes w)) w) Hwf
                (no_io_failure_tl _ Hio)) as H.
  rewrite updateAppEndTimes_prepared_run in H.
  destruct (sqlOutcomes w) as [|[] o]; [exact H|exact H|discriminate Hio].
Qed.

(** Three pending entries, the timer firing between the first two deadlines. *)
Lemma updateAppEndTimes_three (w : World) (r1 r2 r3 : Tbl.app) (t1 t2 t3 : Z) :
  let r := updateAppEndTimes w in
  let now := currentMSecs w in
  store_wf (groups w) (db w) = true ->
  no_io_failure (sqlOutcomes w) = true ->
  app_rows (db w) = [r1; r2; r3] ->
  Tbl.end_time r1 = Some t1 -> Tbl.end_time r2 = Some t2 -> Tbl.end_time r3 = Some t3 ->
  Tbl.blocked r1 = false -> Tbl.blocked r2 = false -> Tbl.blocked r3 = false ->
  0 < t1 -> t1 < t2 -> t2 < t3 ->
  t1 <= now < t2 ->
  app_rows (db (world r)) = [expired_row r1; r2; r3]
  /\ is_alerted (Tbl.app_id r1) (db (world r)) = false
  /\ is_min_pending (app_rows (db (world r))) t2
  /\ appEndTimer (world r) = Some (timer_interval t2 now).
Proof.
  cbv zeta. intros Hwf Hio Hrows E1 E2 E3 B1 B2 B3 H0 H12 H23 Hnow.
  destruct (updateAppEndTimes_expires w Hwf Hio) as (Hr & Ha & _ & _ & _ & Ht).
  assert (X1 : ended (currentMSecs w) r1 = true).
  { unfold ended. rewrite E1, B1. simpl. rewrite andb_true_r. apply Z.leb_le. lia. }
  assert (X2 : ended (currentMSecs w) r2 = false).
  { unfold ended. rewrite E2, B2. simpl. rewrite andb_true_r. apply Z.leb_gt. lia. }
  assert (X3 : ended (currentMSecs w) r3 = false).
  { unfold ended. rewrite E3, B3. simpl. rewrite andb_true_r. apply Z.leb_gt. lia. }
  rewrite Hrows in Hr. simpl in Hr. rewrite X1, X2, X3 in Hr.
  assert (Hmin : min_end_time [expired_row r1; r2; r3] = Some t2).
  { simpl. unfold pending. simpl. rewrite E2, E3, B2, B3. simpl.
    assert (N2 : (t2 =? 0) = false) by (apply Z.eqb_neq; lia).
    assert (N3 : (t3 =? 0) = false) by (apply Z.eqb_neq; lia).
    rewrite N2, N3. simpl. f_equal. lia. }
  rewrite Ht, Hr, Hmin. repeat split.
  - apply Ha; [rewrite Hrows; left; reflexivity|exact X1].
  - apply min_end_time_some, Hmin.
  - apply min_end_time_some, Hmin.
Qed.

(** C4, as amended.  On a store that meets the schema and without
    input/output failure, a firing of the expiry timer rewrites exactly the
    rows with [end_time <= now] and [blocked = 0]: each becomes blocked, not
    killing, without [end_time], its alert record is gone, and each goes
    through one commit, one [appUpdated] emission and one driver sync attempt;
    the timer is then recomputed from the rows as they are now.  With three
    unblocked entries of deadlines [0 < t1 < t2 < t3] and a firing at
    [t1 <= now < t2], entry 1 is blocked with its [end_time] cleared, the
    other two are untouched, the earliest pending deadline is [t2] and the
    timer is armed with the interval computed from [t2]. *)
Theorem expiry_timer_fires (w : World) :
  let r := updateAppEndTimes w in
  let now := currentMSecs w in
  let rows := app_rows (db w) in
  store_wf (groups w) (db w) = true ->
  no_io_failure (sqlOutcomes w) = true ->
  (app_rows (db (world r)) = map (fun x => if ended now x then expired_row x else x) rows
   /\ (forall x, In x rows -> ended now x = true ->
                 is_alerted (Tbl.app_id x) (db (world r)) = false)
   /\ count is_commit (events r) = List.length (filter (ended now) rows)
   /\ count is_updated_emit (events r) = List.length (filter (ended now) rows)
   /\ count is_sync_attempt (events r) = List.length (filter (ended now) rows)
   /\ appEndTimer (world r)
      = match min_end_time (app_rows (db (world r))) with
        | Some m => Some (timer_interval m now)
        | None => None
        end)
  /\ (forall r1 r2 r3 t1 t2 t3,
        rows = [r1; r2; r3] ->
        Tbl.end_time r1 = Some t1 ->
        Tbl.end_time r2 = Some t2 ->
        Tbl.end_time r3 = Some t3 ->
        Tbl.blocked r1 = false ->
        Tbl.blocked r2 = false ->
        Tbl.blocked r3 = false ->
        0 < t1 -> t1 < t2 -> t2 < t3 ->
        t1 <= now < t2 ->
        app_rows (db (world r)) = [expired_row r1; r2; r3]
        /\ is_alerted (Tbl.app_id r1) (db (world r)) = false
        /\ is_min_pending (app_rows (db (world r))) t2
        /\ appEndTimer (world r) = Some (timer_interval t2 now)).
Proof.
  cbv zeta. intros Hwf Hio. split.
  - apply updateAppEndTimes_expires; assumption.
  - intros r1 r2 r3 t1 t2 t3 Hrows E1 E2 E3 B1 B2 B3 H0 H12 H23 Hnow.
    apply (updateAppEndTimes_three w r1 r2 r3 t1 t2 t3); assumption.
Qed.


(** ** Statement failure *)

Ltac failed_statement :=
  run_op; split_cases; intros H; simpl in H;
  repeat (destruct H as [H|H]; [try discriminate|]); try contradiction;
  repeat split; simpl; auto 10.

(** X24.  In the full update, the blocked-state update and the delete, a
    statement that fails, whichever of the two, ends in a rollback: the call
    reports failure, the store is as before, nothing is emitted and no sync
    is attempted. *)
Lemma failed_statement_rolls_back (w : World) :
  (forall app,
      let r := updateApp app w in
      In (EvExec false) (events r) ->
      result r = false /\ db (world r) = db w /\ In EvRollback (events r)
      /\ count is_emit (events r) = 0%nat
      /\ count is_sync_attempt (events r) = 0%nat)
  /\ (forall id b k iw,
      let r := updateAppBlocked id b k iw w in
      In (EvExec false) (events r) ->
      fst (result r) = false /\ db (world r) = db w /\ In EvRollback (events r)
      /\ count is_emit (events r) = 0%nat
      /\ count is_sync_attempt (events r) = 0%nat)
  /\ (forall id iw,
      let r := deleteApp id iw w in
      In (EvExec false) (events r) ->
      fst (result r) = false /\ db (world r) = db w /\ In EvRollback (events r)
      /\ count is_emit (events r) = 0%nat
      /\ count is_sync_attempt (events r) = 0%nat).
Proof.
  split; [|split].
  - intros app.
    unfold updateApp, updateDriverUpdateAppConf, updateDriverConf,
      updateDriverUpdateApp, sqlDeleteAppAlert.
    failed_statement.
  - intros id b k iw.
    unfold updateAppBlocked, saveAppBlocked, loadAppById, updateDriverUpdateApp,
      sqlUpdateAppBlocked, sqlDeleteAppAlert, prepareAppBlocked.
    failed_statement.
  - intros id iw.
    unfold deleteApp, updateDriverDeleteApp, updateDriverUpdateApp, sqlDeleteAppAlert.
    failed_statement.
Qed.

(** X25.  An add that reports failure has left the store as it was, emitted
    nothing and attempted no sync. *)
Lemma addApp_failure_leaves_no_trace (app : App) (w : World) :
  let r := addApp app w in
  result r = false ->
  db (world r) = db w
  /\ count is_emit (events r) = 0%nat
  /\ count is_sync_attempt (events r) = 0%nat.
Proof.
  unfold addApp, addOrUpdateApp, updateDriverUpdateAppConf, updateDriverConf,
    updateDriverUpdateApp, sqlInsertAppAlert, sqlDeleteAppAlert.
  run_op. split_cases; intros H; try discriminate; auto.
Qed.

(** ** Driver writes of a delete *)

Lemma find_filter_other (id id' : Z) (rows : list Tbl.app) :
  id' <> id ->
  find (has_id id') (filter (fun r => negb (has_id id r)) rows)
  = find (has_id id') rows.
Proof.
  intros Hne. induction rows as [|a rows IH]; simpl; [reflexivity|].
  destruct (has_id id a) eqn:E; simpl.
  - destruct (has_id id' a) eqn:E'; [|exact IH].
    unfold has_id in E, E'. apply Z.eqb_eq in E, E'. congruence.
  - destruct (has_id id' a); [reflexivity|exact IH].
Qed.

(** Deleting one stored entry that is not a wildcard. *)
Lemma deleteApp_plain (id : Z) (r : Tbl.app) (iw : bool) (w : World) :
  let res := deleteApp id iw w in
  find (has_id id) (app_rows (db w)) = Some r ->
  Tbl.is_wildcard r = false ->
  no_io_failure (sqlOutcomes w) = true ->
  (forall a, writeAppEntry a <> None) ->
  result res = (true, iw)
  /\ app_rows (db (world res)) = filter (fun x => negb (has_id id x)) (app_rows (db w))
  /\ no_io_failure (sqlOutcomes (world res)) = true
  /\ count is_removal_push (events res) = 1%nat
  /\ count is_entry_push (events res) = 1%nat
  /\ count is_conf_push (events res) = 0%nat.
Proof.
  cbv zeta. intros Hfind Hw Hio Henc.
  pose proof (no_io_failure_tl _ (no_io_failure_tl _ Hio)) as Hio2.
  unfold deleteApp, updateDriverDeleteApp, updateDriverUpdateApp, sqlDeleteApp,
    sqlDeleteAppAlert.
  run_op. rewrite Hfind, Hw.
  destruct (sqlOutcomes w) as [|[] [|[] o]]; simpl in Hio; try discriminate; simpl;
    split_cases; auto 10;
    match goal with
    | E : writeAppEntry _ = None |- _ => apply Henc in E; contradiction
    end.
Qed.

(** Deleting one stored wildcard entry: the flag is raised and nothing is
    written by [deleteApp] itself. *)
Lemma deleteApp_wildcard (id : Z) (r : Tbl.app) (iw : bool) (w : World) :
  let res := deleteApp id iw w in
  find (has_id id) (app_rows (db w)) = Some r ->
  Tbl.is_wildcard r = true ->
  no_io_failure (sqlOutcomes w) = true ->
  result res = (true, true)
  /\ count is_entry_push (events res) = 0%nat
  /\ count is_conf_push (events res) = 0%nat
  /\ count is_snapshot_push (events res) = 0%nat.
Proof.
  cbv zeta. intros Hfind Hw Hio.
  unfold deleteApp, updateDriverDeleteApp, updateDriverUpdateApp, sqlDeleteApp,
    sqlDeleteAppAlert.
  run_op. rewrite Hfind, Hw.
  destruct (sqlOutcomes w) as [|[] [|[] o]]; simpl in Hio; try discriminate; simpl;
    auto.
Qed.

Lemma deleteApps_each_plain (ids : list Z) (iw : bool) (w : World) :
  let res := deleteApps_each ids iw w in
  NoDup ids ->
  (forall id, In id ids ->
     exists r, find (has_id id) (app_rows (db w)) = Some r
               /\ Tbl.is_wildcard r = false) ->
  no_io_failure (sqlOutcomes w) = true ->
  (forall a, writeAppEntry a <> None) ->
  result res = iw
  /\ count is_removal_push (events res) = List.length ids
  /\ count is_entry_push (events res) = List.length ids
  /\ count is_conf_push (events res) = 0%nat.
Proof.
  revert iw w. induction ids as [|id ids IH]; intros iw w; cbv zeta;
    intros Hnd Hrows Hio Henc.
  - simpl. auto.
  - destruct (Hrows id (or_introl eq_refl)) as (r & Hfind & Hw).
    destruct (deleteApp_plain id r iw w Hfind Hw Hio Henc)
      as (Hres & Hdb & Hio' & H1 & H2 & H3).
    inversion Hnd as [|? ? Hnotin Hnd']; subst.
    simpl deleteApps_each. rewrite bind_result, bind_events, !count_app.
    rewrite Hres. simpl snd.
    destruct (IH iw (world (deleteApp id iw w))) as (Hr & K1 & K2 & K3); auto.
    + intros id' Hin'. destruct (Hrows id' (or_intror Hin')) as (r' & Hf' & Hw').
      exists r'. split; [|exact Hw'].
      rewrite Hdb, find_filter_other; [exact Hf'|].
      intros ->. contradiction.
    + rewrite Hr, H1, H2, H3, K1, K2, K3. simpl. auto.
Qed.

Lemma deleteApps_events (ids : list Z) (w : World) :
  events (deleteApps ids w)
  = events (deleteApps_each ids false w)
    ++ (if result (deleteApps_each ids false w)
        then events (updateDriverConf false (world (deleteApps_each ids false w)))
        else []).
Proof.
  unfold deleteApps, bind, events, result, world.
  destruct (deleteApps_each ids false w) as [[b w1] e1]. simpl.
  destruct b; simpl; [|reflexivity].
  destruct (updateDriverConf false w1) as [[b' w2] e2]. simpl.
  rewrite app_nil_r. reflexivity.
Qed.

Lemma deleteApps_each_one (id : Z) (iw : bool) (w : World) :
  events (deleteApps_each [id] iw w) = events (deleteApp id iw w)
  /\ result (deleteApps_each [id] iw w) = snd (result (deleteApp id iw w)).
Proof.
  simpl. unfold bind, ret, events, result.
  destruct (deleteApp id iw w) as [[x w1] e1]. simpl. rewrite app_nil_r. auto.
Qed.

Lemma updateDriverConf_one_push (w : World) :
  (forall f gs s, writeConf f gs s <> None) ->
  count is_snapshot_push (events (updateDriverConf false w)) = 1%nat
  /\ count is_conf_push (events (updateDriverConf false w)) = 1%nat
  /\ count is_entry_push (events (updateDriverConf false w)) = 0%nat.
Proof.
  intros Hconf. unfold updateDriverConf. run_op.
  split_cases; auto;
    match goal with
    | E : writeConf _ _ _ = None |- _ => apply Hconf in E; contradiction
    end.
Qed.

(** X26.  What [deleteApps] writes to the driver: for one wildcard entry one
    full configuration and no entry; for a batch of plain entries, of any
    size, one removal each and no configuration. *)
Lemma deleteApps_driver_writes (w : World) :
  no_io_failure (sqlOutcomes w) = true ->
  (forall a, writeAppEntry a <> None) ->
  (forall f gs s, writeConf f gs s <> None) ->
  (forall id r,
      find (has_id id) (app_rows (db w)) = Some r ->
      Tbl.is_wildcard r = true ->
      count is_snapshot_push (events (deleteApps [id] w)) = 1%nat
      /\ count is_conf_push (events (deleteApps [id] w)) = 1%nat
      /\ count is_entry_push (events (deleteApps [id] w)) = 0%nat)
  /\ (forall ids,
      NoDup ids ->
      (forall id, In id ids ->
         exists r, find (has_id id) (app_rows (db w)) = Some r
                   /\ Tbl.is_wildcard r = false) ->
      count is_removal_push (events (deleteApps ids w)) = List.length ids
      /\ count is_entry_push (events (deleteApps ids w)) = List.length ids
      /\ count is_conf_push (events (deleteApps ids w)) = 0%nat).
Proof.
  intros Hio Henc Hconf. split.
  - intros id r Hfind Hw.
    destruct (deleteApp_wildcard id r false w Hfind Hw Hio) as (Hres & H1 & H2 & H3).
    destruct (deleteApps_each_one id false w) as [Ee Er].
    rewrite deleteApps_events, Er, Ee, Hres. simpl snd. cbv iota.
    destruct (updateDriverConf_one_push (world (deleteApps_each [id] false w)) Hconf)
      as (K1 & K2 & K3).
    rewrite !count_app, H1, H2, H3, K1, K2, K3. auto.
  - intros ids Hnd Hrows.
    destruct (deleteApps_each_plain ids false w Hnd Hrows Hio Henc)
      as (Hres & H1 & H2 & H3).
    rewrite deleteApps_events, Hres, !count_app, H1, H2, H3.
    unfold count. simpl. repeat split; lia.
Qed.


(** ** Calls on a group or an id that is not there *)

(** X1.  An add or a full update whose group index resolves to no group is
    refused before anything is done: the call returns false, the world is as
    it was, and there is no event, not even an error box. *)
Theorem invalid_group_rejected (app : App) (w : World) :
  appGroupAt (groups w) (groupIndex app) = None ->
  addOrUpdateApp app w = (false, w, [])
  /\ addApp app w = (false, w, [])
  /\ updateApp app w = (false, w, []).
Proof.
  intros Hg.
  assert (E : addOrUpdateApp app w = (false, w, [])).
  { unfold addOrUpdateApp, bind, gets. rewrite Hg. reflexivity. }
  split; [exact E|]. split.
  - unfold addApp, bind. rewrite E. reflexivity.
  - unfold updateApp, bind, gets. rewrite Hg. reflexivity.
Qed.

Lemma find_none_existsb {A : Type} (f : A -> bool) (l : list A) :
  find f l = None <-> existsb f l = false.
Proof.
  induction l as [|a l IH]; simpl; [split; reflexivity|].
  destruct (f a); simpl; [split; discriminate|exact IH].
Qed.

Lemma map_where_none {A : Type} (p : A -> bool) (g : A -> A) (l : list A) :
  existsb p l = false -> map (fun x => if p x then g x else x) l = l.
Proof.
  induction l as [|a l IH]; simpl; [reflexivity|].
  intros H. apply orb_false_iff in H. destruct H as [Ha Hl].
  rewrite Ha, (IH Hl). reflexivity.
Qed.

Lemma after_statements_0 (w : World) : after_statements 0 w = w.
Proof.
  destruct w. reflexivity.
Qed.

Lemma after_statements_S (n : nat) (w : World) :
  after_statements n (set_sqlOutcomes (tl (sqlOutcomes w)) w)
  = after_statements (S n) w.
Proof.
  unfold after_statements. destruct w as [d t a m c g o dr]. simpl.
  destruct o as [|x o]; simpl; [rewrite skipn_nil|]; reflexivity.
Qed.

Lemma loadAppById_missing (id : Z) (w : World) :
  find (has_id id) (app_rows (db w)) = None ->
  loadAppById (set_appId id newApp) w
  = (None, set_sqlOutcomes (tl (sqlOutcomes w)) w, []).
Proof.
  intros Hfind. unfold loadAppById, prepare, bind, gets, ret, sqlSelectAppById.
  destruct (sqlOutcomes w) as [|[] o];
    cbn [negb tl db groups set_sqlOutcomes appId set_appId]; try reflexivity.
  all: rewrite Hfind; reflexivity.
Qed.

(** X2.  A blocked-state update of an id the store does not hold returns
    false with no event and with the world unchanged but for the outcome its
    loading read has consumed.  A batch of such ids does the same, one
    outcome an id, when it has at most seven of them; a longer batch still
    leaves the store alone but ends with one attempt to push the full
    configuration. *)
Theorem updateAppsBlocked_missing_ids (ids : list Z) (b k : bool) (w : World) :
  (forall id, In id ids -> find (has_id id) (app_rows (db w)) = None) ->
  (forall id iw, In id ids ->
     updateAppBlocked id b k iw w
     = ((false, iw), set_sqlOutcomes (tl (sqlOutcomes w)) w, []))
  /\ ((List.length ids <= 7)%nat ->
      updateAppsBlocked ids b k w = (tt, after_statements (List.length ids) w, []))
  /\ ((7 < List.length ids)%nat ->
      db (world (updateAppsBlocked ids b k w)) = db w
      /\ count is_commit (events (updateAppsBlocked ids b k w)) = 0%nat
      /\ count is_entry_push (events (updateAppsBlocked ids b k w)) = 0%nat
      /\ count is_sync_attempt (events (updateAppsBlocked ids b k w)) = 1%nat).
Proof.
  intros Hmiss.
  assert (E1 : forall id iw w', db w' = db w -> In id ids ->
                 updateAppBlocked id b k iw w'
                 = ((false, iw), set_sqlOutcomes (tl (sqlOutcomes w')) w', [])).
  { intros id iw w' Hdb Hin. unfold updateAppBlocked, bind.
    rewrite loadAppById_missing; [reflexivity|]. rewrite Hdb. apply Hmiss, Hin. }
  assert (E2 : forall iw w', db w' = db w ->
                 updateAppsBlocked_each ids b k iw w'
                 = (iw, after_statements (List.length ids) w', [])).
  { clear Hmiss. induction ids as [|id ids IH]; intros iw w' Hdb; simpl.
    - rewrite after_statements_0. reflexivity.
    - unfold bind. rewrite (E1 id iw w' Hdb (or_introl eq_refl)). simpl snd.
      rewrite IH; [|intros id' iw' w2 Hdb2 Hin; apply E1; [exact Hdb2|right; exact Hin]
                   |exact Hdb].
      rewrite after_statements_S. reflexivity. }
  split; [intros id iw Hin; apply E1; [reflexivity|exact Hin]|]. split.
  - intros Hlen. unfold updateAppsBlocked, bind. rewrite E2 by reflexivity.
    assert (H7 : (7 <? Z.of_nat (List.length ids)) = false) by (apply Z.ltb_ge; lia).
    rewrite H7. reflexivity.
  - intros Hlen. unfold updateAppsBlocked, bind. rewrite E2 by reflexivity.
    assert (H7 : (7 <? Z.of_nat (List.length ids)) = true) by (apply Z.ltb_lt; lia).
    rewrite H7. unfold updateDriverConf, after_statements. run_op. split_cases; auto.
Qed.

(** X3.  A full update and a name update do not look for the row first: on an
    id the store does not hold (valid group, no input/output failure) both
    report success and emit [appUpdated] although no row changes, and the
    full update goes on to one driver sync attempt for the entry it did not
    store. *)
Theorem update_of_missing_id_succeeds (w : World) :
  io_ok 2 (sqlOutcomes w) = true ->
  (forall app gid,
      existsb (has_id (appId app)) (app_rows (db w)) = false ->
      appGroupAt (groups w) (groupIndex app) = Some gid ->
      let r := updateApp app w in
      result r = true
      /\ app_rows (db (world r)) = app_rows (db w)
      /\ count is_updated_emit (events r) = 1%nat
      /\ count is_sync_attempt (events r) = 1%nat)
  /\ (forall id n,
      existsb (has_id id) (app_rows (db w)) = false ->
      let r := updateAppName id n w in
      result r = true
      /\ db (world r) = db w
      /\ count is_updated_emit (events r) = 1%nat
      /\ count is_sync_attempt (events r) = 0%nat).
Proof.
  intros Hio. split.
  - intros app gid Hno Hg. cbv zeta.
    unfold updateApp, updateDriverUpdateAppConf, updateDriverConf,
      updateDriverUpdateApp, sqlUpdateApp, sqlDeleteAppAlert.
    run_op. rewrite Hg.
    change (Tbl.app_id (bindVars (appId app) gid app 0)) with (appId app).
    rewrite Hno. simpl. rewrite (map_where_none _ _ _ Hno).
    destruct (sqlOutcomes w) as [|[] [|[] o]]; simpl in Hio; try discriminate;
      simpl; split_cases; auto.
  - intros id n Hno. cbv zeta.
    unfold updateAppName, sqlUpdateAppName. run_op.
    rewrite (map_where_none _ _ _ Hno).
    destruct (sqlOutcomes w) as [|[] o]; simpl in Hio; try discriminate; simpl;
      destruct (db w); auto.
Qed.

(** ** Writing and reading back *)

Lemma appGroupAt_index (gs : list Z) (i gid : Z) :
  NoDup gs -> appGroupAt gs i = Some gid -> index_of gid gs = Some i.
Proof.
  unfold appGroupAt. destruct (i <? 0) eqn:Ei; [discriminate|].
  apply Z.ltb_ge in Ei. intros Hnd H.
  rewrite <- (Z2Nat.id i Ei). generalize dependent (Z.to_nat i). clear i Ei.
  induction gs as [|g gs IH]; intros n H; [destruct n; discriminate|].
  inversion Hnd as [|? ? Hnotin Hnd']; subst.
  destruct n as [|n]; simpl in *.
  - injection H as ->. rewrite Z.eqb_refl. reflexivity.
  - assert (Hne : (g =? gid) = false).
    { apply Z.eqb_neq. intros ->. apply Hnotin. eapply nth_error_In, H. }
    rewrite Hne, (IH Hnd' n H). simpl. f_equal. lia.
Qed.

Lemma find_map_where (id : Z) (g : Tbl.app -> Tbl.app) (rows : list Tbl.app) (r : Tbl.app) :
  (forall x, Tbl.app_id (g x) = Tbl.app_id x) ->
  find (has_id id) rows = Some r ->
  find (has_id id) (map (fun x => if has_id id x then g x else x) rows) = Some (g r).
Proof.
  intros Hg. induction rows as [|a rows IH]; simpl; [discriminate|].
  destruct (has_id id a) eqn:E.
  - intros H. injection H as <-. unfold has_id in *. rewrite Hg, E. reflexivity.
  - rewrite E. exact IH.
Qed.

(** What a successful [updateApp] did to the store. *)
Lemma updateApp_ok (app : App) (w : World) :
  let r := updateApp app w in
  result r = true ->
  exists gid s1,
    appGroupAt (groups w) (groupIndex app) = Some gid
    /\ sqlUpdateApp (bindVars (appId app) gid app 0) (db w) = Some (tt, s1)
    /\ db (world r)
       = mkStore (app_rows s1)
                 (filter (fun i => negb (i =? appId app)) (app_alert s1))
    /\ groups (world r) = groups w.
Proof.
  unfold updateApp, updateDriverUpdateAppConf, updateDriverConf,
    updateDriverUpdateApp, sqlDeleteAppAlert.
  run_op. split_cases; intros H; try discriminate;
    match goal with
    | U : sqlUpdateApp _ _ = Some (?u, _) |- _ => destruct u
    end;
    (do 2 eexists; repeat split; try reflexivity; eassumption).
Qed.

(** X4.  Round trip of a full update: after [updateApp] returned true for an
    id the store holds (groups of distinct ids), [loadAppById] of that id,
    when its statement can be prepared, gives back the path, the flags, the
    zones as 32-bit values and the group index that were written, with
    [alerted] false; the name and the end time are not loaded.  When the
    statement cannot be prepared it loads nothing. *)
Theorem updateApp_then_loadAppById (app x : App) (w : World) (r0 : Tbl.app) :
  let r := updateApp app w in
  let l := loadAppById (set_appId (appId app) x) (world r) in
  NoDup (groups w) ->
  find (has_id (appId app)) (app_rows (db w)) = Some r0 ->
  result r = true ->
  (hd true (sqlOutcomes (world r)) = true -> result l = Some (reloaded app x false))
  /\ (hd true (sqlOutcomes (world r)) = false -> result l = None).
Proof.
  cbv zeta. intros Hnd Hfind Hok.
  rewrite loadAppById_run. unfold result. simpl fst.
  split; intros ->; [|reflexivity].
  destruct (updateApp_ok app w Hok) as (gid & s1 & G & U & Hdb & Hg).
  unfold sqlSelectAppById, select_app_fields.
  rewrite Hdb, Hg.
  unfold sqlUpdateApp in U.
  change (Tbl.app_id (bindVars (appId app) gid app 0)) with (appId app) in U.
  destruct (_ && _); [discriminate|]. injection U as <-.
  cbn [app_rows app_alert].
  change (appId (set_appId (appId app) x)) with (appId app).
  rewrite (find_map_where (appId app) (overwrite (bindVars (appId app) gid app 0))
             _ r0 (fun _ => eq_refl) Hfind).
  change (Tbl.app_group_id (overwrite (bindVars (appId app) gid app 0) r0)) with gid.
  rewrite (appGroupAt_index _ _ _ Hnd G).
  apply find_has_id in Hfind.
  change (Tbl.app_id (overwrite (bindVars (appId app) gid app 0) r0))
    with (Tbl.app_id r0).
  rewrite Hfind, is_alerted_removed.
  unfold reloaded, fillApp, overwrite, bindVars, option_map. cbn.
  rewrite Hfind.
  destruct (String.eqb_spec (appPath app) EmptyString) as [->|_]; reflexivity.
Qed.

Lemma addOrUpdateApp_succeeds (app : App) (w : World) (gid : Z) :
  appGroupAt (groups w) (groupIndex app) = Some gid ->
  io_ok 1 (sqlOutcomes w) = true ->
  result (addOrUpdateApp app w) = true.
Proof.
  intros Hg Hio. unfold addOrUpdateApp. run_op. rewrite Hg. simpl.
  destruct (sqlUpsertApp _ (db w)) as [[id s1]|] eqn:U.
  - destruct (sqlOutcomes w) as [|[] ?]; simpl in Hio; try discriminate; simpl;
      split_cases; reflexivity.
  - unfold sqlUpsertApp in U. destruct (find _ _); discriminate.
Qed.

Lemma next_rowid_above (rows : list Tbl.app) (r : Tbl.app) :
  In r rows -> Tbl.app_id r < next_rowid rows.
Proof.
  unfold next_rowid. induction rows as [|a rows IH]; [contradiction|].
  cbn [map fold_right]. intros [<-|H]; [lia|]. specialize (IH H). lia.
Qed.

Lemma next_rowid_positive (rows : list Tbl.app) : 0 < next_rowid rows.
Proof.
  unfold next_rowid. induction rows as [|a rows IH]; cbn [map fold_right]; lia.
Qed.

Lemma find_app_none {A : Type} (f : A -> bool) (l1 l2 : list A) :
  find f l1 = None -> find f (l1 ++ l2) = find f l2.
Proof.
  induction l1 as [|a l1 IH]; simpl; [reflexivity|].
  destruct (f a); [discriminate|exact IH].
Qed.

Lemma find_map_path (q : option string) (g : Tbl.app -> Tbl.app)
    (rows : list Tbl.app) (r : Tbl.app) :
  (forall x, path_is q (g x) = path_is q x) ->
  find (path_is q) rows = Some r ->
  find (path_is q) (map (fun x => if path_is q x then g x else x) rows) = Some (g r).
Proof.
  intros Hg. induction rows as [|a rows IH]; simpl; [discriminate|].
  destruct (path_is q a) eqn:E.
  - intros H. injection H as <-. rewrite Hg, E. reflexivity.
  - rewrite E. exact IH.
Qed.

(** The key the upsert returns is the key a lookup by the path then finds. *)
Lemma sqlUpsertApp_then_lookup (v : Tbl.app) (s s1 : Store) (id : Z) (P : string) :
  Tbl.path v = Some P ->
  sqlUpsertApp v s = Some (id, s1) ->
  sqlSelectAppIdByPath P s1 = Some id.
Proof.
  unfold sqlUpsertApp, sqlSelectAppIdByPath. intros Hv. rewrite Hv.
  destruct (find (path_is (Some P)) (app_rows s)) as [r0|] eqn:F;
    intros H; injection H as <- <-; simpl.
  - rewrite (find_map_path (Some P) (on_conflict v) _ r0 (fun _ => eq_refl) F).
    reflexivity.
  - rewrite (find_app_none _ _ _ F). simpl.
    unfold path_is at 1. cbn [with_id Tbl.path]. rewrite Hv, String.eqb_refl.
    reflexivity.
Qed.

Lemma addOrUpdateApp_lookup (app : App) (w : World) :
  let r := addOrUpdateApp app w in
  appPath app <> EmptyString ->
  result r = true ->
  exists gid id s1,
    appGroupAt (groups w) (groupIndex app) = Some gid
    /\ sqlUpsertApp (bindVars 0 gid app (currentMSecs w)) (db w) = Some (id, s1)
    /\ sqlSelectAppIdByPath (appPath app) (db (world r)) = Some id
    /\ (forallb (fun x => 0 <? Tbl.app_id x) (app_rows (db w)) = true -> 0 < id).
Proof.
  cbv zeta. intros HP Hok.
  destruct (addOrUpdateApp_ok app w Hok) as (gid & id & s1 & G & U & R & _).
  exists gid, id, s1. split; [exact G|]. split; [exact U|].
  pose proof (bindVars_path 0 gid app (currentMSecs w) HP) as Hv.
  split.
  - pose proof (sqlUpsertApp_then_lookup _ _ _ _ _ Hv U) as L.
    unfold sqlSelectAppIdByPath in *. rewrite R. exact L.
  - intros Hpos. unfold sqlUpsertApp in U. rewrite Hv in U.
    destruct (find (path_is (Some (appPath app))) (app_rows (db w))) as [r0|] eqn:F;
      injection U as <- _.
    + apply find_some in F. destruct F as [Hin _].
      rewrite forallb_forall in Hpos. apply Z.ltb_lt, Hpos, Hin.
    + apply next_rowid_positive.
Qed.

(** X5.  Round trip of an add: after [addOrUpdateApp] returned true for an
    entry with a non-empty path, [appIdByPath] of that path returns the key
    the upsert returned, and when every key in the store was positive so is
    this one. *)
Theorem addOrUpdateApp_then_appIdByPath (app : App) (w : World) :
  let r := addOrUpdateApp app w in
  appPath app <> EmptyString ->
  result r = true ->
  exists gid id s1,
    appGroupAt (groups w) (groupIndex app) = Some gid
    /\ sqlUpsertApp (bindVars 0 gid app (currentMSecs w)) (db w) = Some (id, s1)
    /\ result (appIdByPath (appPath app) (world r)) = id
    /\ (forallb (fun x => 0 <? Tbl.app_id x) (app_rows (db w)) = true -> 0 < id).
Proof.
  cbv zeta. intros HP Hok.
  destruct (addOrUpdateApp_lookup app w HP Hok) as (gid & id & s1 & G & U & L & Hid).
  exists gid, id, s1. repeat split; try assumption.
  unfold appIdByPath, gets, result. simpl. rewrite L. reflexivity.
Qed.

(** X6.  One blocked-connection event makes the entry, repeats change
    nothing: when the keys of the store are positive, the normalised path is
    not empty, group 0 exists and the upsert meets no input/output failure,
    a second [logBlockedApp] of the same path after the first leaves the
    world as the first left it and causes no event. *)
Theorem logBlockedApp_twice (logPath : string) (b b' : bool) (w : World) (gid : Z) :
  let w1 := world (logBlockedApp logPath b w) in
  forallb (fun x => 0 <? Tbl.app_id x) (app_rows (db w)) = true ->
  normalizePath logPath <> EmptyString ->
  appGroupAt (groups w) 0 = Some gid ->
  io_ok 1 (sqlOutcomes w) = true ->
  logBlockedApp logPath b' w1 = (tt, w1, []).
Proof.
  cbv zeta. intros Hpos HP Hg Hio.
  assert (Skip : forall w0,
             0 < toLongLong (sqlSelectAppIdByPath (normalizePath logPath) (db w0)) ->
             forall c, logBlockedApp logPath c w0 = (tt, w0, [])).
  { intros w0 H c. unfold logBlockedApp, appIdByPath. cbv zeta.
    unfold bind at 1, gets. apply Z.ltb_lt in H. rewrite H. reflexivity. }
  destruct (0 <? toLongLong (sqlSelectAppIdByPath (normalizePath logPath) (db w)))
    eqn:E.
  - apply Z.ltb_lt in E. rewrite (Skip w E b). unfold world. simpl.
    apply Skip, E.
  - apply Skip.
    assert (Ew : world (logBlockedApp logPath b w)
                 = world (addOrUpdateApp (alertedApp logPath b) w)).
    { unfold logBlockedApp, appIdByPath. cbv zeta. unfold bind at 1, gets.
      rewrite E. unfold bind, world.
      destruct (addOrUpdateApp (alertedApp logPath b) w) as [[ok w'] e]. simpl.
      destruct ok; reflexivity. }
    rewrite Ew.
    assert (Hok := addOrUpdateApp_succeeds (alertedApp logPath b) w gid Hg Hio).
    assert (HP' : appPath (alertedApp logPath b) <> EmptyString) by exact HP.
    destruct (addOrUpdateApp_lookup (alertedApp logPath b) w HP' Hok)
      as (_ & id & _ & _ & _ & L & Hid).
    change (appPath (alertedApp logPath b)) with (normalizePath logPath) in L.
    rewrite L. simpl. apply Hid, Hpos.
Qed.

(** ** Deleting and looking up *)

Lemma find_filter_self (id : Z) (rows : list Tbl.app) :
  find (has_id id) (filter (fun x => negb (has_id id x)) rows) = None.
Proof.
  induction rows as [|a rows IH]; simpl; [reflexivity|].
  destruct (has_id id a) eqn:E; simpl; [exact IH|]. rewrite E. exact IH.
Qed.

Lemma filter_comm {A : Type} (f g : A -> bool) (l : list A) :
  filter f (filter g l) = filter g (filter f l).
Proof.
  rewrite !filter_twice. apply filter_ext. intros a. apply andb_comm.
Qed.

Lemma filter_idem {A : Type} (f : A -> bool) (l : list A) :
  filter f (filter f l) = filter f l.
Proof.
  rewrite filter_twice. apply filter_ext. intros a. apply andb_diag.
Qed.

Lemma is_alerted_other (j id : Z) (rows : list Tbl.app) (al : list Z) :
  j <> id ->
  is_alerted j (mkStore rows (filter (fun i => negb (i =? id)) al))
  = existsb (Z.eqb j) al.
Proof.
  intros Hj. unfold is_alerted. cbn [app_alert].
  induction al as [|a l IHl]; [reflexivity|].
  cbn [filter existsb]. destruct (a =? id) eqn:E; cbn [negb existsb].
  - apply Z.eqb_eq in E. subst a.
    assert (Hn : (j =? id) = false) by (apply Z.eqb_neq; exact Hj).
    rewrite Hn. exact IHl.
  - rewrite IHl. reflexivity.
Qed.

(** What a delete without input/output failure does to the store. *)
Lemma deleteApp_run (id : Z) (r : Tbl.app) (iw : bool) (w : World) :
  let res := deleteApp id iw w in
  find (has_id id) (app_rows (db w)) = Some r ->
  io_ok 2 (sqlOutcomes w) = true ->
  fst (result res) = true
  /\ db (world res) = mkStore (filter (fun x => negb (has_id id x)) (app_rows (db w)))
                              (filter (fun i => negb (i =? id)) (app_alert (db w)))
  /\ groups (world res) = groups w.
Proof.
  cbv zeta. intros Hfind Hio.
  unfold deleteApp, updateDriverDeleteApp, updateDriverUpdateApp, sqlDeleteApp,
    sqlDeleteAppAlert.
  run_op. rewrite Hfind.
  destruct (sqlOutcomes w) as [|[] [|[] o]]; simpl in Hio; try discriminate; simpl;
    split_cases; rewrite ?filter_idem; repeat split; auto.
Qed.

(** X7.  Round trip of a delete: after [deleteApp] of an id the store holds
    (no input/output failure) the call has returned true, the rows of that id
    and its alert record are gone and every other row and alert record is as
    before; [loadAppById] of the id finds nothing, and [appIdByPath] of the
    deleted row's path returns 0 when that row was the only one with the
    path. *)
Theorem deleteApp_then_lookups (id : Z) (r : Tbl.app) (iw : bool) (x : App) (w : World) :
  let res := deleteApp id iw w in
  find (has_id id) (app_rows (db w)) = Some r ->
  io_ok 2 (sqlOutcomes w) = true ->
  fst (result res) = true
  /\ app_rows (db (world res)) = filter (fun y => negb (has_id id y)) (app_rows (db w))
  /\ is_alerted id (db (world res)) = false
  /\ (forall j, j <> id -> is_alerted j (db (world res)) = is_alerted j (db w))
  /\ result (loadAppById (set_appId id x) (world res)) = None
  /\ (forall P, rows_at P (db w) = [r] -> result (appIdByPath P (world res)) = 0).
Proof.
  cbv zeta. intros Hfind Hio.
  destruct (deleteApp_run id r iw w Hfind Hio) as (Hres & Hdb & Hg).
  rewrite Hdb. cbn [app_rows]. repeat split.
  - exact Hres.
  - apply is_alerted_removed.
  - intros j Hj. apply is_alerted_other, Hj.
  - rewrite loadAppById_run. unfold result. simpl fst.
    destruct (hd true _); [|reflexivity].
    unfold sqlSelectAppById. rewrite Hdb. cbn [app_rows].
    change (appId (set_appId id x)) with id.
    rewrite find_filter_self. reflexivity.
  - intros P HP. unfold appIdByPath, sqlSelectAppIdByPath, gets, result. simpl fst.
    rewrite Hdb. cbn [app_rows].
    rewrite find_filter, filter_comm. unfold rows_at in HP. rewrite HP. simpl.
    apply find_some in Hfind. destruct Hfind as [_ Hid]. rewrite Hid. reflexivity.
Qed.

(** ** The timer between recomputations *)

Lemma updateAppBlocked_timer (id : Z) (b k iw : bool) (w : World) :
  appEndTimer (world (updateAppBlocked id b k iw w)) = appEndTimer w.
Proof.
  unfold updateAppBlocked, saveAppBlocked, loadAppById, updateDriverUpdateApp,
    sqlUpdateAppBlocked, sqlDeleteAppAlert, prepareAppBlocked.
  run_op. split_cases; reflexivity.
Qed.

Lemma deleteApp_timer (id : Z) (iw : bool) (w : World) :
  appEndTimer (world (deleteApp id iw w)) = appEndTimer w.
Proof.
  unfold deleteApp, updateDriverDeleteApp, updateDriverUpdateApp, sqlDeleteAppAlert.
  run_op. split_cases; reflexivity.
Qed.

Lemma updateDriverConf_timer (f : bool) (w : World) :
  appEndTimer (world (updateDriverConf f w)) = appEndTimer w.
Proof.
  unfold updateDriverConf. run_op. split_cases; reflexivity.
Qed.

(** X8.  The expiry timer is recomputed only by a save that carries an end
    time, by a firing and by a clock change: a blocked-state update (of one
    id or of a batch), a delete, a name update, and an add or a full update
    without an end time leave the timer exactly as it was, also when they
    clear or remove the deadline it was armed for. *)
Theorem timer_left_alone (w : World) :
  (forall id b k iw, appEndTimer (world (updateAppBlocked id b k iw w)) = appEndTimer w)
  /\ (forall ids b k, appEndTimer (world (updateAppsBlocked ids b k w)) = appEndTimer w)
  /\ (forall ids, appEndTimer (world (deleteApps ids w)) = appEndTimer w)
  /\ (forall id n, appEndTimer (world (updateAppName id n w)) = appEndTimer w)
  /\ (forall app, endTime app = None ->
        appEndTimer (world (addApp app w)) = appEndTimer w
        /\ appEndTimer (world (updateApp app w)) = appEndTimer w).
Proof.
  split; [intros; apply updateAppBlocked_timer|].
  split.
  { intros ids b k. unfold updateAppsBlocked. rewrite bind_world.
    assert (E : forall iw w0,
               appEndTimer (world (updateAppsBlocked_each ids b k iw w0))
               = appEndTimer w0).
    { induction ids as [|id ids IH]; intros iw w0; simpl; [reflexivity|].
      rewrite bind_world, IH. apply updateAppBlocked_timer. }
    destruct (result (updateAppsBlocked_each ids b k _ w)); [|apply E].
    rewrite bind_world. unfold ret at 1. rewrite world_triple, updateDriverConf_timer.
    apply E. }
  split.
  { intros ids. unfold deleteApps. rewrite bind_world.
    assert (E : forall iw w0,
               appEndTimer (world (deleteApps_each ids iw w0)) = appEndTimer w0).
    { induction ids as [|id ids IH]; intros iw w0; simpl; [reflexivity|].
      rewrite bind_world, IH. apply deleteApp_timer. }
    destruct (result (deleteApps_each ids false w)); [|apply E].
    rewrite bind_world. unfold ret at 1. rewrite world_triple, updateDriverConf_timer.
    apply E. }
  split.
  { intros id n. unfold updateAppName, sqlUpdateAppName. run_op.
    split_cases; reflexivity. }
  intros app He. split.
  - unfold addApp, addOrUpdateApp, updateDriverUpdateAppConf, updateDriverConf,
      updateDriverUpdateApp, sqlInsertAppAlert, sqlDeleteAppAlert.
    rewrite He. run_op. split_cases; reflexivity.
  - unfold updateApp, updateDriverUpdateAppConf, updateDriverConf,
      updateDriverUpdateApp, sqlDeleteAppAlert.
    rewrite He. run_op. split_cases; reflexivity.
Qed.

Lemma updateAppEndTimes_unprepared (w : World) :
  hd true (sqlOutcomes w) = false ->
  updateAppEndTimes w = (tt, set_sqlOutcomes (tl (sqlOutcomes w)) w, []).
Proof.
  intros Hhd. rewrite updateAppEndTimes_unfold.
  destruct (sqlOutcomes w) as [|[] o]; simpl in Hhd; try discriminate. reflexivity.
Qed.

Lemma updateAppEndTimes_idle (w : World) :
  hd true (sqlOutcomes w) = true ->
  (forall r, In r (app_rows (db w)) -> ended (currentMSecs w) r = false) ->
  updateAppEndTimes w
  = (tt,
     set_appEndTimer
       (match min_end_time (app_rows (db w)) with
        | Some m => Some (timer_interval m (currentMSecs w))
        | None => None
        end) (set_sqlOutcomes (tl (sqlOutcomes w)) w),
     []).
Proof.
  intros Hhd Hnone.
  assert (F : filter (ended (currentMSecs w)) (app_rows (db w)) = []).
  { induction (app_rows (db w)) as [|a l IH]; simpl; [reflexivity|].
    rewrite (Hnone a (or_introl eq_refl)). apply IH.
    intros r Hr. apply Hnone. right. exact Hr. }
  rewrite updateAppEndTimes_unfold. unfold sqlSelectEndedApps. rewrite F.
  simpl select_rows. unfold bind. simpl updateAppEndTimes_each. unfold ret.
  rewrite updateAppEndTimer_run.
  destruct (sqlOutcomes w) as [|[] o]; simpl in Hhd; try discriminate; reflexivity.
Qed.

(** X9.  A firing of the expiry timer that finds no row with
    [end_time <= now] and [blocked = 0] runs no writing statement, opens no
    transaction, emits nothing and writes nothing to the driver: having
    prepared its selecting statement it only recomputes the timer, which
    stops when no deadline is pending.  A firing whose selecting statement
    cannot be prepared returns at once and leaves the timer as it was. *)
Theorem updateAppEndTimes_nothing_ended (w : World) :
  let w0 := set_sqlOutcomes (tl (sqlOutcomes w)) w in
  (forall r, In r (app_rows (db w)) -> ended (currentMSecs w) r = false) ->
  (hd true (sqlOutcomes w) = true ->
     updateAppEndTimes w
     = (tt,
        set_appEndTimer
          (match min_end_time (app_rows (db w)) with
           | Some m => Some (timer_interval m (currentMSecs w))
           | None => None
           end) w0,
        [])
     /\ ((forall r, In r (app_rows (db w)) -> pending r = false) ->
         appEndTimer (world (updateAppEndTimes w)) = None))
  /\ (hd true (sqlOutcomes w) = false ->
      updateAppEndTimes w = (tt, w0, [])
      /\ appEndTimer (world (updateAppEndTimes w)) = appEndTimer w).
Proof.
  cbv zeta. intros Hnone. split; intros Hhd.
  - pose proof (updateAppEndTimes_idle w Hhd Hnone) as E.
    split; [exact E|].
    intros Hp. rewrite E. unfold world. simpl.
    apply min_end_time_none in Hp. rewrite Hp. reflexivity.
  - rewrite (updateAppEndTimes_unprepared w Hhd). split; reflexivity.
Qed.

(** ** Transactions and error boxes *)

Lemma txn_run_app (o : bool) (e1 e2 : list Event) :
  txn_run o (e1 ++ e2)
  = match txn_run o e1 with
    | Some o' => txn_run o' e2
    | None => None
    end.
Proof.
  revert o. induction e1 as [|e e1 IH]; intros o; simpl; [reflexivity|].
  destruct (txn_step o e); [apply IH|reflexivity].
Qed.

Lemma txn_run_closed_app (e1 e2 : list Event) :
  txn_run false e1 = Some false ->
  txn_run false e2 = Some false ->
  txn_run false (e1 ++ e2) = Some false.
Proof.
  intros H1 H2. rewrite txn_run_app, H1. exact H2.
Qed.

Lemma updateDriverConf_closed (f : bool) (w : World) :
  txn_run false (events (updateDriverConf f w)) = Some false.
Proof.
  unfold updateDriverConf. run_op. split_cases; reflexivity.
Qed.

Lemma addApp_closed (app : App) (w : World) :
  txn_run false (events (addApp app w)) = Some false.
Proof.
  unfold addApp, addOrUpdateApp, updateDriverUpdateAppConf, updateDriverConf,
    updateDriverUpdateApp.
  run_op. split_cases; reflexivity.
Qed.

Lemma addOrUpdateApp_closed (app : App) (w : World) :
  txn_run false (events (addOrUpdateApp app w)) = Some false.
Proof.
  unfold addOrUpdateApp. run_op. split_cases; reflexivity.
Qed.

Lemma updateApp_closed (app : App) (w : World) :
  txn_run false (events (updateApp app w)) = Some false.
Proof.
  unfold updateApp, updateDriverUpdateAppConf, updateDriverConf, updateDriverUpdateApp.
  run_op. split_cases; reflexivity.
Qed.

Lemma updateAppBlocked_closed (id : Z) (b k iw : bool) (w : World) :
  txn_run false (events (updateAppBlocked id b k iw w)) = Some false.
Proof.
  unfold updateAppBlocked, saveAppBlocked, loadAppById, updateDriverUpdateApp,
    prepareAppBlocked.
  run_op. split_cases; reflexivity.
Qed.

Lemma deleteApp_closed (id : Z) (iw : bool) (w : World) :
  txn_run false (events (deleteApp id iw w)) = Some false.
Proof.
  unfold deleteApp, updateDriverDeleteApp, updateDriverUpdateApp.
  run_op. split_cases; reflexivity.
Qed.

Lemma updateAppName_closed (id : Z) (n : string) (w : World) :
  txn_run false (events (updateAppName id n w)) = Some false.
Proof.
  unfold updateAppName. run_op. split_cases; reflexivity.
Qed.

Lemma deleteApps_closed (ids : list Z) (w : World) :
  txn_run false (events (deleteApps ids w)) = Some false.
Proof.
  rewrite deleteApps_events. apply txn_run_closed_app.
  - generalize false at 2. revert w.
    induction ids as [|id ids IH]; intros w iw; simpl deleteApps_each; [reflexivity|].
    rewrite bind_events. apply txn_run_closed_app; [apply deleteApp_closed|apply IH].
  - destruct (result (deleteApps_each ids false w)); [|reflexivity].
    apply updateDriverConf_closed.
Qed.

Lemma updateAppsBlocked_closed (ids : list Z) (b k : bool) (w : World) :
  txn_run false (events (updateAppsBlocked ids b k w)) = Some false.
Proof.
  unfold updateAppsBlocked. rewrite bind_events. apply txn_run_closed_app.
  - generalize (7 <? Z.of_nat (List.length ids)). revert w.
    induction ids as [|id ids IH]; intros w iw; simpl updateAppsBlocked_each;
      [reflexivity|].
    rewrite bind_events.
    apply txn_run_closed_app; [apply updateAppBlocked_closed|apply IH].
  - destruct (result (updateAppsBlocked_each ids b k _ w)); [|reflexivity].
    rewrite bind_events. unfold ret at 1. simpl events at 2. rewrite app_nil_r.
    apply updateDriverConf_closed.
Qed.

Lemma logBlockedApp_closed (p : string) (b : bool) (w : World) :
  txn_run false (events (logBlockedApp p b w)) = Some false.
Proof.
  unfold logBlockedApp, appIdByPath. cbv zeta. rewrite bind_events.
  unfold gets at 1 2 3. unfold events at 1, result at 1. simpl fst. simpl snd.
  rewrite world_triple. cbn [app].
  destruct (0 <? _); [reflexivity|].
  rewrite bind_events. apply txn_run_closed_app; [apply addOrUpdateApp_closed|].
  destruct (result (addOrUpdateApp (alertedApp p b) w)); reflexivity.
Qed.

Lemma updateAppEndTimes_closed (w : World) :
  txn_run false (events (updateAppEndTimes w)) = Some false.
Proof.
  destruct (updateAppEndTimes_events w) as (recs & w0 & ->).
  revert w0. induction recs as [|rec recs IH]; intros w0; simpl updateAppEndTimes_each;
    [reflexivity|].
  rewrite bind_events. apply txn_run_closed_app; [apply updateApp_closed|apply IH].
Qed.

Lemma run_call_closed (c : Call) (w : World) :
  txn_run false (events (run_call c w)) = Some false.
Proof.
  destruct c; simpl run_call.
  - rewrite bind_events. unfold ret at 1. simpl events at 2. rewrite app_nil_r.
    apply addApp_closed.
  - rewrite bind_events. unfold ret at 1. simpl events at 2. rewrite app_nil_r.
    apply updateApp_closed.
  - apply deleteApps_closed.
  - apply updateAppsBlocked_closed.
  - rewrite bind_events. unfold ret at 1. simpl events at 2. rewrite app_nil_r.
    apply updateAppName_closed.
  - apply logBlockedApp_closed.
  - apply updateAppEndTimes_closed.
  - rewrite updateAppEndTimer_run. reflexivity.
  - reflexivity.
Qed.

(** X10.  Whatever sequence of calls the manager takes, and whatever fails on
    the way, its log is disciplined: a transaction is begun only when none is
    open, each is ended by exactly one commit or rollback, none is open at the
    end, and every driver write and every emission happens outside a
    transaction. *)
Theorem transactions_are_closed (calls : list Call) (w : World) :
  txn_run false (events (run_calls calls w)) = Some false.
Proof.
  revert w. induction calls as [|c calls IH]; intros w; simpl run_calls;
    [reflexivity|].
  rewrite bind_events. apply txn_run_closed_app; [apply run_call_closed|apply IH].
Qed.

(** X11.  In an add, a full update, a blocked-state update and a delete of one
    entry, every rollback is reported by exactly one error box of the store
    and there is no such box without a rollback; a call shows at most one
    error box in all, since a call that rolled back attempts no driver
    sync. *)
Theorem one_error_box_per_call (w : World) :
  (forall app,
      count is_db_error (events (addApp app w))
      = count is_rollback (events (addApp app w))
      /\ (count is_error_box (events (addApp app w)) <= 1)%nat)
  /\ (forall app,
      count is_db_error (events (updateApp app w))
      = count is_rollback (events (updateApp app w))
      /\ (count is_error_box (events (updateApp app w)) <= 1)%nat)
  /\ (forall id b k iw,
      count is_db_error (events (updateAppBlocked id b k iw w))
      = count is_rollback (events (updateAppBlocked id b k iw w))
      /\ (count is_error_box (events (updateAppBlocked id b k iw w)) <= 1)%nat)
  /\ (forall id iw,
      count is_db_error (events (deleteApp id iw w))
      = count is_rollback (events (deleteApp id iw w))
      /\ (count is_error_box (events (deleteApp id iw w)) <= 1)%nat).
Proof.
  split; [|split; [|split]]; intros.
  - unfold addApp, addOrUpdateApp, updateDriverUpdateAppConf, updateDriverConf,
      updateDriverUpdateApp.
    run_op. split_cases; unfold count; simpl; auto.
  - unfold updateApp, updateDriverUpdateAppConf, updateDriverConf,
      updateDriverUpdateApp.
    run_op. split_cases; unfold count; simpl; auto.
  - unfold updateAppBlocked, saveAppBlocked, loadAppById, updateDriverUpdateApp,
      prepareAppBlocked.
    run_op. split_cases; unfold count; simpl; auto.
  - unfold deleteApp, updateDriverDeleteApp, updateDriverUpdateApp.
    run_op. split_cases; unfold count; simpl; auto.
Qed.

(** ** The schema's constraints as an invariant *)

Lemma NoDup_distinct (l : list Z) : NoDup l -> distinct l = true.
Proof.
  induction 1 as [|x l Hnotin _ IH]; simpl; [reflexivity|].
  rewrite IH, andb_true_r. apply negb_true_iff.
  destruct (existsb (Z.eqb x) l) eqn:E; [|reflexivity].
  apply existsb_exists in E. destruct E as (y & Hy & Exy).
  apply Z.eqb_eq in Exy. subst y. contradiction.
Qed.

Lemma unique_paths_intro (rows : list Tbl.app) :
  (forall r1 r2, In r1 rows -> In r2 rows ->
                 path_is (Tbl.path r1) r2 = true -> Tbl.app_id r1 = Tbl.app_id r2) ->
  unique_paths rows = true.
Proof.
  intros H. unfold unique_paths. apply forallb_forall. intros r1 H1.
  apply forallb_forall. intros r2 H2.
  destruct (path_is _ _) eqn:Hp; [|reflexivity]. simpl.
  apply Z.eqb_eq, H; assumption.
Qed.

(** [store_wf] read as three propositions. *)
Lemma store_wf_iff (gs : list Z) (s : Store) :
  store_wf gs s = true
  <-> NoDup (map Tbl.app_id (app_rows s))
      /\ (forall r1 r2, In r1 (app_rows s) -> In r2 (app_rows s) ->
                        path_is (Tbl.path r1) r2 = true ->
                        Tbl.app_id r1 = Tbl.app_id r2)
      /\ (forall r, In r (app_rows s) ->
                    isSome (index_of (Tbl.app_group_id r) gs) = true).
Proof.
  unfold store_wf. rewrite !andb_true_iff, forallb_forall. split.
  - intros [[H1 H2] H3]. split; [apply distinct_NoDup, H1|].
    split; [apply unique_paths_spec, H2|exact H3].
  - intros (H1 & H2 & H3). split; [split|exact H3].
    + apply NoDup_distinct, H1.
    + apply unique_paths_intro, H2.
Qed.

Lemma path_is_sym (r1 r2 : Tbl.app) :
  path_is (Tbl.path r1) r2 = path_is (Tbl.path r2) r1.
Proof.
  unfold path_is. destruct (Tbl.path r1), (Tbl.path r2); try reflexivity.
  apply String.eqb_sym.
Qed.

Lemma appGroupAt_known (gs : list Z) (i gid : Z) :
  appGroupAt gs i = Some gid -> isSome (index_of gid gs) = true.
Proof.
  unfold appGroupAt. destruct (i <? 0); [discriminate|].
  generalize (Z.to_nat i). clear i.
  induction gs as [|g gs IH]; intros n H; [destruct n; discriminate|].
  simpl. destruct (g =? gid) eqn:E; [reflexivity|].
  destruct n as [|n]; simpl in H.
  - injection H as ->. rewrite Z.eqb_refl in E. discriminate.
  - specialize (IH n H). destruct (index_of gid gs); [reflexivity|discriminate].
Qed.

(** Rewriting some rows in place keeps the constraints when it keeps keys and
    paths and writes a known group. *)
Lemma store_wf_map_where (gs : list Z) (p : Tbl.app -> bool) (g : Tbl.app -> Tbl.app)
    (s : Store) (al : list Z) :
  (forall r, Tbl.app_id (g r) = Tbl.app_id r) ->
  (forall r, Tbl.path (g r) = Tbl.path r) ->
  (forall r, In r (app_rows s) -> p r = true ->
             isSome (index_of (Tbl.app_group_id (g r)) gs) = true) ->
  store_wf gs s = true ->
  store_wf gs (mkStore (map (fun r => if p r then g r else r) (app_rows s)) al) = true.
Proof.
  intros Hid Hpath Hgrp Hwf. apply store_wf_iff in Hwf.
  destruct Hwf as (H1 & H2 & H3). apply store_wf_iff. cbn [app_rows].
  assert (Eid : forall r, Tbl.app_id (if p r then g r else r) = Tbl.app_id r)
    by (intros r; destruct (p r); auto).
  assert (Epath : forall r, Tbl.path (if p r then g r else r) = Tbl.path r)
    by (intros r; destruct (p r); auto).
  split; [|split].
  - rewrite map_map. erewrite map_ext; [exact H1|]. exact Eid.
  - intros r1 r2 I1 I2. apply in_map_iff in I1, I2.
    destruct I1 as (x1 & <- & I1), I2 as (x2 & <- & I2).
    rewrite !Eid. unfold path_is. rewrite !Epath. apply H2; assumption.
  - intros r I. apply in_map_iff in I. destruct I as (x & <- & I).
    destruct (p x) eqn:E; [apply Hgrp; assumption|apply H3, I].
Qed.

Lemma store_wf_map_keeps (gs : list Z) (p : Tbl.app -> bool) (g : Tbl.app -> Tbl.app)
    (s : Store) (al : list Z) :
  (forall r, Tbl.app_id (g r) = Tbl.app_id r) ->
  (forall r, Tbl.path (g r) = Tbl.path r) ->
  (forall r, Tbl.app_group_id (g r) = Tbl.app_group_id r) ->
  store_wf gs s = true ->
  store_wf gs (mkStore (map (fun r => if p r then g r else r) (app_rows s)) al) = true.
Proof.
  intros Hid Hpath Hgrp Hwf. apply store_wf_map_where; auto.
  intros r I _. rewrite Hgrp. apply store_wf_iff in Hwf. apply Hwf, I.
Qed.

Lemma sqlUpsertApp_wf (gs : list Z) (v : Tbl.app) (s s' : Store) (id : Z) :
  sqlUpsertApp v s = Some (id, s') ->
  isSome (index_of (Tbl.app_group_id v) gs) = true ->
  store_wf gs s = true -> store_wf gs s' = true.
Proof.
  unfold sqlUpsertApp. intros H Hg Hwf.
  destruct (find _ _) eqn:F; injection H as _ <-.
  - apply store_wf_map_where; auto.
  - apply store_wf_iff in Hwf. destruct Hwf as (H1 & H2 & H3).
    pose proof (find_none _ _ F) as Hnone.
    apply store_wf_iff. cbn [app_rows]. split; [|split].
    + rewrite map_app. apply NoDup_app; [exact H1|repeat constructor; auto|].
      intros a Ha [<-|[]]. cbn [with_id Tbl.app_id] in Ha.
      apply in_map_iff in Ha. destruct Ha as (x & E & Hx).
      apply next_rowid_above in Hx. lia.
    + intros r1 r2 I1 I2 Hp. apply in_app_iff in I1, I2.
      destruct I1 as [I1|[<-|[]]], I2 as [I2|[<-|[]]].
      * apply H2; assumption.
      * rewrite path_is_sym in Hp. change (Tbl.path (with_id _ v)) with (Tbl.path v) in Hp.
        rewrite (Hnone _ I1) in Hp. discriminate.
      * change (Tbl.path (with_id _ v)) with (Tbl.path v) in Hp.
        rewrite (Hnone _ I2) in Hp. discriminate.
      * reflexivity.
    + intros r I. apply in_app_iff in I. destruct I as [I|[<-|[]]]; [apply H3, I|].
      exact Hg.
Qed.

Lemma sqlUpdateApp_wf (gs : list Z) (v : Tbl.app) (s s' : Store) (u : unit) :
  sqlUpdateApp v s = Some (u, s') ->
  isSome (index_of (Tbl.app_group_id v) gs) = true ->
  store_wf gs s = true -> store_wf gs s' = true.
Proof.
  unfold sqlUpdateApp. intros H Hg Hwf.
  destruct (_ && _) eqn:C; [discriminate|]. injection H as _ <-.
  apply store_wf_iff in Hwf. destruct Hwf as (H1 & H2 & H3).
  assert (Eid : forall r, Tbl.app_id (if has_id (Tbl.app_id v) r then overwrite v r else r)
                          = Tbl.app_id r)
    by (intros r; destruct (has_id _ r); auto).
  assert (Hclash : forall x y, In x (app_rows s) -> In y (app_rows s) ->
                     has_id (Tbl.app_id v) x = true ->
                     has_id (Tbl.app_id v) y = false ->
                     path_is (Tbl.path v) y = false).
  { intros x y Ix Iy Hx Hy. destruct (path_is (Tbl.path v) y) eqn:Hp; [|reflexivity].
    assert (E1 : existsb (has_id (Tbl.app_id v)) (app_rows s) = true)
      by (apply existsb_exists; exists x; auto).
    assert (E2 : existsb (fun r => path_is (Tbl.path v) r && negb (has_id (Tbl.app_id v) r))
                   (app_rows s) = true)
      by (apply existsb_exists; exists y; rewrite Hp, Hy; auto).
    rewrite E1, E2 in C. discriminate. }
  apply store_wf_iff. cbn [app_rows]. split; [|split].
  - rewrite map_map. erewrite map_ext; [exact H1|]. exact Eid.
  - intros r1 r2 I1 I2. apply in_map_iff in I1, I2.
    destruct I1 as (x1 & <- & I1), I2 as (x2 & <- & I2).
    rewrite !Eid.
    destruct (has_id _ x1) eqn:E1, (has_id _ x2) eqn:E2.
    + intros _. unfold has_id in E1, E2. apply Z.eqb_eq in E1, E2. congruence.
    + change (Tbl.path (overwrite v x1)) with (Tbl.path v).
      rewrite (Hclash x1 x2); auto. discriminate.
    + rewrite path_is_sym. change (Tbl.path (overwrite v x2)) with (Tbl.path v).
      rewrite (Hclash x2 x1); auto. discriminate.
    + apply H2; assumption.
  - intros r I. apply in_map_iff in I. destruct I as (x & <- & I).
    destruct (has_id _ x); [exact Hg|apply H3, I].
Qed.

Lemma sqlDeleteApp_wf (gs : list Z) (id : Z) (s s' : Store)
      (res : option (option string * bool)) :
  sqlDeleteApp id s = Some (res, s') ->
  store_wf gs s = true -> store_wf gs s' = true.
Proof.
  unfold sqlDeleteApp. intros H Hwf.
  destruct (find _ _); injection H as _ <-; [|exact Hwf].
  apply store_wf_iff in Hwf. destruct Hwf as (H1 & H2 & H3).
  apply store_wf_iff. cbn [app_rows]. split; [|split].
  - apply NoDup_map_filter, H1.
  - intros r1 r2 I1 I2. apply filter_In in I1, I2. apply H2; [apply I1|apply I2].
  - intros r I. apply filter_In in I. apply H3, I.
Qed.

Lemma store_wf_alerts (gs : list Z) (s : Store) (al : list Z) :
  store_wf gs (mkStore (app_rows s) al) = store_wf gs s.
Proof. reflexivity. Qed.

Arguments store_wf : simpl never.

Ltac schema_ok :=
  rewrite ?store_wf_alerts;
  try assumption;
  try (apply store_wf_map_keeps; auto; fail);
  try match goal with
      | H : sqlUpsertApp _ _ = Some _, G : appGroupAt _ _ = Some _ |- _ =>
          eapply sqlUpsertApp_wf; [exact H|apply (appGroupAt_known _ _ _ G)|];
          assumption
      | H : sqlUpdateApp _ _ = Some _, G : appGroupAt _ _ = Some _ |- _ =>
          eapply sqlUpdateApp_wf; [exact H|apply (appGroupAt_known _ _ _ G)|];
          assumption
      | H : sqlDeleteApp _ _ = Some _ |- _ =>
          eapply sqlDeleteApp_wf; [exact H|]; assumption
      end.

Lemma schema_kept_bind {A B : Type} (m : M A) (k : A -> M B) :
  schema_kept m -> (forall a, schema_kept (k a)) -> schema_kept (bind m k).
Proof.
  intros Hm Hk w I. rewrite bind_world.
  destruct (Hm w I) as [G1 I1]. rewrite <- G1 in I1.
  destruct (Hk (result (m w)) _ I1) as [G2 I2].
  split; [congruence|]. rewrite <- G1. exact I2.
Qed.

Lemma schema_kept_ret {A : Type} (a : A) : schema_kept (ret a).
Proof. intros w I. unfold ret. rewrite world_triple. auto. Qed.

Lemma updateDriverConf_kept (f : bool) : schema_kept (updateDriverConf f).
Proof.
  intros w I. unfold updateDriverConf. run_op. split_cases; auto.
Qed.

Lemma addOrUpdateApp_kept (app : App) : schema_kept (addOrUpdateApp app).
Proof.
  intros w I. unfold addOrUpdateApp, sqlInsertAppAlert, sqlDeleteAppAlert.
  run_op. split_cases; (split; [reflexivity|schema_ok]).
Qed.

Lemma addApp_kept (app : App) : schema_kept (addApp app).
Proof.
  intros w I.
  unfold addApp, addOrUpdateApp, updateDriverUpdateAppConf, updateDriverConf,
    updateDriverUpdateApp, sqlInsertAppAlert, sqlDeleteAppAlert.
  run_op. split_cases; (split; [reflexivity|schema_ok]).
Qed.

Lemma updateApp_kept (app : App) : schema_kept (updateApp app).
Proof.
  intros w I.
  unfold updateApp, updateDriverUpdateAppConf, updateDriverConf,
    updateDriverUpdateApp, sqlDeleteAppAlert.
  run_op. split_cases; (split; [reflexivity|schema_ok]).
Qed.

Lemma updateAppBlocked_kept (id : Z) (b k iw : bool) :
  schema_kept (updateAppBlocked id b k iw).
Proof.
  intros w I.
  unfold updateAppBlocked, saveAppBlocked, loadAppById, updateDriverUpdateApp,
    sqlUpdateAppBlocked, sqlDeleteAppAlert, prepareAppBlocked.
  run_op. split_cases; (split; [reflexivity|schema_ok]).
Qed.

Lemma deleteApp_kept (id : Z) (iw : bool) : schema_kept (deleteApp id iw).
Proof.
  intros w I.
  unfold deleteApp, updateDriverDeleteApp, updateDriverUpdateApp, sqlDeleteAppAlert.
  run_op. split_cases; (split; [reflexivity|schema_ok]).
Qed.

Lemma updateAppName_kept (id : Z) (n : string) : schema_kept (updateAppName id n).
Proof.
  intros w I. unfold updateAppName, sqlUpdateAppName.
  run_op. split_cases; (split; [reflexivity|schema_ok]).
Qed.

Lemma deleteApps_kept (ids : list Z) : schema_kept (deleteApps ids).
Proof.
  unfold deleteApps. apply schema_kept_bind.
  - generalize false. induction ids as [|id ids IH]; intros iw; simpl deleteApps_each.
    + apply schema_kept_ret.
    + apply schema_kept_bind; [apply deleteApp_kept|]. intros a. apply IH.
  - intros [|]; [|apply schema_kept_ret].
    apply schema_kept_bind; [apply updateDriverConf_kept|]. intros a.
    apply schema_kept_ret.
Qed.

Lemma updateAppsBlocked_kept (ids : list Z) (b k : bool) :
  schema_kept (updateAppsBlocked ids b k).
Proof.
  unfold updateAppsBlocked. apply schema_kept_bind.
  - generalize (7 <? Z.of_nat (List.length ids)).
    induction ids as [|id ids IH]; intros iw; simpl updateAppsBlocked_each.
    + apply schema_kept_ret.
    + apply schema_kept_bind; [apply updateAppBlocked_kept|]. intros a. apply IH.
  - intros [|]; [|apply schema_kept_ret].
    apply schema_kept_bind; [apply updateDriverConf_kept|]. intros a.
    apply schema_kept_ret.
Qed.

Lemma logBlockedApp_kept (p : string) (b : bool) : schema_kept (logBlockedApp p b).
Proof.
  unfold logBlockedApp. cbv zeta. apply schema_kept_bind.
  - intros w I. unfold appIdByPath, gets. rewrite world_triple. auto.
  - intros id. destruct (0 <? id); [apply schema_kept_ret|].
    apply schema_kept_bind; [apply addOrUpdateApp_kept|].
    intros [|]; [|apply schema_kept_ret].
    intros w I. unfold emitAppAlerted, emit. rewrite world_triple. auto.
Qed.

Lemma updateAppEndTimer_kept : schema_kept updateAppEndTimer.
Proof. intros w I. rewrite updateAppEndTimer_run. auto. Qed.

Lemma updateAppEndTimes_kept : schema_kept updateAppEndTimes.
Proof.
  unfold updateAppEndTimes. apply schema_kept_bind.
  - intros w I. unfold prepare. rewrite world_triple. split; [reflexivity|exact I].
  - intros [|]; cbn [negb]; [|apply schema_kept_ret].
    unfold updateAppEndTimes_prepared. apply schema_kept_bind.
    + intros w I. unfold gets. rewrite world_triple. auto.
    + intros recs. apply schema_kept_bind; [|intros a; apply updateAppEndTimer_kept].
      induction recs as [|rec recs IH]; simpl updateAppEndTimes_each.
      * apply schema_kept_ret.
      * apply schema_kept_bind; [apply updateApp_kept|]. intros a. exact IH.
Qed.

Lemma run_call_kept (c : Call) : schema_kept (run_call c).
Proof.
  destruct c; simpl run_call.
  - apply schema_kept_bind; [apply addApp_kept|intros a; apply schema_kept_ret].
  - apply schema_kept_bind; [apply updateApp_kept|intros a; apply schema_kept_ret].
  - apply deleteApps_kept.
  - apply updateAppsBlocked_kept.
  - apply schema_kept_bind; [apply updateAppName_kept|intros a; apply schema_kept_ret].
  - apply logBlockedApp_kept.
  - apply updateAppEndTimes_kept.
  - apply updateAppEndTimer_kept.
  - intros w I. unfold modify. rewrite world_triple. auto.
Qed.

(** X12.  The constraints the expiry pass relies on are an invariant of the
    manager: from a store whose keys are distinct, whose non-null paths each
    belong to one row and whose rows all name a group of the configuration,
    every sequence of calls, with whatever statement and driver failures,
    leads to such a store again.  The manager itself never writes a row with
    a group it could not resolve: [addOrUpdateApp] and [updateApp] return
    before the statement when [appGroupAt] gives the null group. *)
Theorem schema_is_kept (calls : list Call) (w : World) :
  store_wf (groups w) (db w) = true ->
  store_wf (groups (world (run_calls calls w))) (db (world (run_calls calls w))) = true.
Proof.
  assert (E : schema_kept (run_calls calls)).
  { induction calls as [|c calls IH]; simpl run_calls.
    - apply schema_kept_ret.
    - apply schema_kept_bind; [apply run_call_kept|]. intros a. exact IH. }
  intros I. destruct (E w I) as [G I']. rewrite G. exact I'.
Qed.

(** ** Purging obsolete entries *)

Lemma deleteApp_effect (id : Z) (r : Tbl.app) (iw : bool) (w : World) :
  let res := deleteApp id iw w in
  find (has_id id) (app_rows (db w)) = Some r ->
  no_io_failure (sqlOutcomes w) = true ->
  db (world res) = mkStore (filter (fun x => negb (has_id id x)) (app_rows (db w)))
                           (filter (fun i => negb (i =? id)) (app_alert (db w)))
  /\ no_io_failure (sqlOutcomes (world res)) = true
  /\ count is_commit (events res) = 1%nat.
Proof.
  cbv zeta. intros Hfind Hio.
  pose proof (no_io_failure_tl _ (no_io_failure_tl _ Hio)) as Hio2.
  unfold deleteApp, updateDriverDeleteApp, updateDriverUpdateApp, sqlDeleteApp,
    sqlDeleteAppAlert.
  run_op. rewrite Hfind.
  destruct (sqlOutcomes w) as [|[] [|[] o]]; simpl in Hio; try discriminate; simpl;
    split_cases; rewrite ?filter_idem; auto.
Qed.

Lemma deleteApps_each_effect (ids : list Z) (iw : bool) (w : World) :
  let res := deleteApps_each ids iw w in
  NoDup ids ->
  (forall id, In id ids -> exists r, find (has_id id) (app_rows (db w)) = Some r) ->
  no_io_failure (sqlOutcomes w) = true ->
  db (world res)
  = mkStore (filter (fun x => negb (existsb (Z.eqb (Tbl.app_id x)) ids)) (app_rows (db w)))
            (filter (fun i => negb (existsb (Z.eqb i) ids)) (app_alert (db w)))
  /\ count is_commit (events res) = List.length ids.
Proof.
  revert iw w. induction ids as [|id ids IH]; intros iw w; cbv zeta;
    intros Hnd Hrows Hio.
  - simpl. unfold ret. rewrite world_triple.
    rewrite !forallb_filter_id by (apply forallb_forall; reflexivity).
    destruct (db w); auto.
  - destruct (Hrows id (or_introl eq_refl)) as (r & Hfind).
    destruct (deleteApp_effect id r iw w Hfind Hio) as (Hdb & Hio' & Hc).
    inversion Hnd as [|? ? Hnotin Hnd']; subst.
    simpl deleteApps_each. rewrite bind_world, bind_events, count_app, Hc.
    destruct (IH (snd (result (deleteApp id iw w))) (world (deleteApp id iw w)))
      as (Hdb2 & Hc2); auto.
    + intros id' Hin'. destruct (Hrows id' (or_intror Hin')) as (r' & Hf').
      exists r'. rewrite Hdb. cbn [app_rows]. rewrite find_filter_other; [exact Hf'|].
      intros ->. contradiction.
    + rewrite Hdb2, Hc2, Hdb. cbn [app_rows app_alert]. rewrite !filter_twice.
      split; [|reflexivity]. f_equal; apply filter_ext; intros x; simpl;
        rewrite negb_orb; unfold has_id; reflexivity.
Qed.

Lemma deleteApps_effect (ids : list Z) (w : World) :
  let res := deleteApps ids w in
  NoDup ids ->
  (forall id, In id ids -> exists r, find (has_id id) (app_rows (db w)) = Some r) ->
  no_io_failure (sqlOutcomes w) = true ->
  db (world res)
  = mkStore (filter (fun x => negb (existsb (Z.eqb (Tbl.app_id x)) ids)) (app_rows (db w)))
            (filter (fun i => negb (existsb (Z.eqb i) ids)) (app_alert (db w)))
  /\ count is_commit (events res) = List.length ids.
Proof.
  cbv zeta. intros Hnd Hrows Hio.
  destruct (deleteApps_each_effect ids false w Hnd Hrows Hio) as (Hdb & Hc).
  rewrite deleteApps_events, count_app, Hc. unfold deleteApps. rewrite bind_world.
  destruct (result (deleteApps_each ids false w)).
  - rewrite bind_world. unfold ret at 1. rewrite world_triple, updateDriverConf_db.
    split; [exact Hdb|].
    assert (E : count is_commit
                  (events (updateDriverConf false (world (deleteApps_each ids false w))))
                = 0%nat).
    { unfold updateDriverConf. run_op. split_cases; reflexivity. }
    rewrite E. lia.
  - unfold ret. rewrite world_triple. split; [exact Hdb|]. unfold count. simpl. lia.
Qed.

Lemma purge_list (rows : list Tbl.app) :
  map fst (filter (fun row => obsolete_path (snd row))
             (map (fun r => (Tbl.app_id r, columnText (Tbl.path r))) rows))
  = map Tbl.app_id (filter (fun x => obsolete_path (columnText (Tbl.path x))) rows).
Proof.
  induction rows as [|a rows IH]; simpl; [reflexivity|].
  destruct (obsolete_path _); simpl; rewrite IH; reflexivity.
Qed.

Lemma find_has_id_in (rows : list Tbl.app) (x : Tbl.app) :
  In x rows -> exists r, find (has_id (Tbl.app_id x)) rows = Some r.
Proof.
  intros Hin. destruct (find (has_id (Tbl.app_id x)) rows) eqn:F; [eauto|].
  pose proof (find_none _ _ F x Hin) as E. unfold has_id in E.
  rewrite Z.eqb_refl in E. discriminate.
Qed.

Lemma purgeApps_run (w : World) :
  let w0 := set_sqlOutcomes (tl (sqlOutcomes w)) w in
  let ids := map Tbl.app_id
               (filter (fun x => obsolete_path (columnText (Tbl.path x)))
                  (app_rows (db w))) in
  purgeApps w
  = match sqlOutcomes w with
    | false :: _ => (false, w0, [])
    | _ => (true, world (deleteApps ids w0), events (deleteApps ids w0))
    end.
Proof.
  cbv zeta. unfold purgeApps. generalize deleteApps. intros D.
  unfold prepare, sqlSelectAppPaths, bind, gets, ret, world, events.
  destruct (sqlOutcomes w) as [|[] o]; cbn [negb tl db set_sqlOutcomes];
    try reflexivity.
  all: rewrite purge_list;
    destruct (D _ _) as [[u w1] e1];
    cbn [fst snd app]; rewrite app_nil_r; reflexivity.
Qed.

(** X13.  A purge that meets no statement failure, on a store with distinct
    keys, removes exactly the rows whose path is a drive file path of a file
    that no longer exists, in one transaction each, together with their alert
    records; every other row and alert record stays as it was. *)
Theorem purgeApps_removes_obsolete (w : World) :
  let r := purgeApps w in
  let gone := fun x => obsolete_path (columnText (Tbl.path x)) in
  distinct (map Tbl.app_id (app_rows (db w))) = true ->
  no_io_failure (sqlOutcomes w) = true ->
  result r = true
  /\ app_rows (db (world r)) = filter (fun x => negb (gone x)) (app_rows (db w))
  /\ (forall x, In x (app_rows (db w)) -> gone x = true ->
                is_alerted (Tbl.app_id x) (db (world r)) = false)
  /\ (forall i, (forall x, In x (app_rows (db w)) -> gone x = true -> Tbl.app_id x <> i) ->
                is_alerted i (db (world r)) = is_alerted i (db w))
  /\ count is_commit (events r) = List.length (filter gone (app_rows (db w))).
Proof.
  cbv zeta. intros Hd Hio. apply distinct_NoDup in Hd.
  pose proof (purgeApps_run w) as R.
  assert (Hio0 : no_io_failure (tl (sqlOutcomes w)) = true)
    by (apply no_io_failure_tl, Hio).
  set (gone := fun x => obsolete_path (columnText (Tbl.path x))) in *.
  set (ids := map Tbl.app_id (filter gone (app_rows (db w)))) in *.
  set (w0 := set_sqlOutcomes (tl (sqlOutcomes w)) w) in *.
  assert (R' : result (purgeApps w) = true
               /\ world (purgeApps w) = world (deleteApps ids w0)
               /\ events (purgeApps w) = events (deleteApps ids w0)).
  { cbv zeta in R. fold gone in R. fold ids in R. fold w0 in R. rewrite R.
    destruct (sqlOutcomes w) as [|[] o]; [auto|auto|discriminate]. }
  clear R. destruct R' as (Rr & Rw & Re).
  assert (Hin : forall x, In x (app_rows (db w)) ->
                  existsb (Z.eqb (Tbl.app_id x)) ids = gone x).
  { intros x Hx. destruct (gone x) eqn:G.
    - apply existsb_exists. exists (Tbl.app_id x). split; [|apply Z.eqb_refl].
      apply in_map, filter_In. auto.
    - apply not_true_is_false. intros H. apply existsb_exists in H.
      destruct H as (i & Hi & E). apply Z.eqb_eq in E. subst i.
      apply in_map_iff in Hi. destruct Hi as (y & Ey & Hy).
      apply filter_In in Hy. destruct Hy as [Hy Gy].
      rewrite (same_id_same_row _ x y Hd Hx Hy Ey) in Gy. congruence. }
  destruct (deleteApps_effect ids w0) as (Hdb & Hc).
  - apply NoDup_map_filter, Hd.
  - intros id Hi. apply in_map_iff in Hi. destruct Hi as (y & <- & Hy).
    apply filter_In in Hy. apply find_has_id_in, Hy.
  - exact Hio0.
  - rewrite Rr, Rw, Re, Hdb, Hc. cbn [app_rows app_alert db w0 set_sqlOutcomes].
    split; [reflexivity|]. split; [|split; [|split]].
    + apply filter_ext_in. intros x Hx. rewrite (Hin x Hx). reflexivity.
    + intros x Hx G. unfold is_alerted. cbn [app_alert].
      apply not_true_is_false. intros H. apply existsb_exists in H.
      destruct H as (i & Hi & E). apply Z.eqb_eq in E. subst i.
      apply filter_In in Hi. rewrite (Hin x Hx), G in Hi. destruct Hi. discriminate.
    + intros i Hi. unfold is_alerted. cbn [app_alert].
      assert (Ei : existsb (Z.eqb i) ids = false).
      { apply not_true_is_false. intros H. apply existsb_exists in H.
        destruct H as (j & Hj & E). apply Z.eqb_eq in E. subst j.
        apply in_map_iff in Hj. destruct Hj as (y & Ey & Hy).
        apply filter_In in Hy. destruct Hy as [Hy Gy]. exact (Hi y Hy Gy Ey). }
      induction (app_alert (db w)) as [|a al IH]; simpl; [reflexivity|].
      destruct (Z.eqb_spec i a) as [<-|Hne]; simpl.
      * rewrite Ei. simpl. rewrite Z.eqb_refl. reflexivity.
      * destruct (existsb (Z.eqb a) ids); simpl; [exact IH|].
        destruct (Z.eqb_spec i a); [contradiction|]. simpl. exact IH.
    + unfold ids. rewrite length_map. reflexivity.
Qed.

(** X14.  A purge whose statement cannot be prepared reports failure, and a
    purge that finds no obsolete path reports success; neither begins a
    transaction, writes to the driver, emits or changes anything but the
    statement it consumed.  With [progPurgeOnStart] off nothing is done at
    all. *)
Theorem purgeApps_without_work (w : World) :
  (hd true (sqlOutcomes w) = false ->
   purgeApps w = (false, set_sqlOutcomes (tl (sqlOutcomes w)) w, []))
  /\ (hd true (sqlOutcomes w) = true ->
      (forall x, In x (app_rows (db w)) ->
                 obsolete_path (columnText (Tbl.path x)) = false) ->
      purgeApps w = (true, set_sqlOutcomes (tl (sqlOutcomes w)) w, []))
  /\ purgeAppsOnStart false w = (tt, w, []).
Proof.
  split; [|split; [|reflexivity]].
  - intros H. rewrite purgeApps_run.
    destruct (sqlOutcomes w) as [|[] o]; simpl in H; try discriminate. reflexivity.
  - intros H Hnone.
    assert (E : filter (fun x => obsolete_path (columnText (Tbl.path x)))
                  (app_rows (db w)) = []).
    { induction (app_rows (db w)) as [|a l IH]; simpl; [reflexivity|].
      rewrite (Hnone a (or_introl eq_refl)). apply IH.
      intros x Hx. apply Hnone. right. exact Hx. }
    rewrite purgeApps_run. cbv zeta. rewrite E.
    destruct (sqlOutcomes w) as [|[] o]; simpl in H; try discriminate; reflexivity.
Qed.

(** ** A change of the drives *)

(** X15.  When the drive list reports added drives, the manager does nothing
    if none of them is in the drive mask it stored, and attempts exactly one
    full configuration sync otherwise, storing the mask of that encode when
    the write gets through.  A drive recorded by a successful single-entry
    push counts: after such a push, a change that adds one of the entry's
    drives leads to a full sync. *)
Theorem drive_change_resyncs (addedMask : Z) (w : World) :
  (Z.land (m_driveMask w) addedMask = 0 ->
   onDriveMaskChanged addedMask w = (tt, w, []))
  /\ (Z.land (m_driveMask w) addedMask <> 0 ->
      count is_sync_attempt (events (onDriveMaskChanged addedMask w)) = 1%nat
      /\ count is_entry_push (events (onDriveMaskChanged addedMask w)) = 0%nat
      /\ (forall mask,
             writeConf false (groups w) (db w) = Some mask ->
             hd true (drvOutcomes w) = true ->
             m_driveMask (world (onDriveMaskChanged addedMask w)) = mask))
  /\ (forall app mask,
         writeAppEntry app = Some mask ->
         hd true (drvOutcomes w) = true ->
         Z.land mask addedMask <> 0 ->
         count is_sync_attempt
           (events (onDriveMaskChanged addedMask
                      (world (updateDriverUpdateApp app false w)))) = 1%nat).
Proof.
  split; [|split].
  - intros H. unfold onDriveMaskChanged, bind, gets. rewrite H. reflexivity.
  - intros H. apply Z.eqb_neq in H.
    unfold onDriveMaskChanged, updateDriverConf. run_op. rewrite H. simpl.
    split; [|split].
    + split_cases; reflexivity.
    + split_cases; reflexivity.
    + intros mask Hm Hd. rewrite Hm.
      destruct (drvOutcomes w) as [|[] o]; simpl in Hd; try discriminate; reflexivity.
  - intros app mask Hm Hd Hand.
    assert (E : m_driveMask (world (updateDriverUpdateApp app false w))
                = Z.lor (m_driveMask w) mask).
    { unfold updateDriverUpdateApp. run_op. rewrite Hm.
      destruct (drvOutcomes w) as [|[] o]; simpl in Hd; try discriminate; reflexivity. }
    assert (N : (Z.land (Z.lor (m_driveMask w) mask) addedMask =? 0) = false).
    { apply Z.eqb_neq. rewrite Z.land_lor_distr_l. intros H.
      apply Z.lor_eq_0_iff in H. destruct H as [_ H]. contradiction. }
    unfold onDriveMaskChanged. unfold bind at 1. unfold gets at 1.
    rewrite E, N. cbn [negb].
    unfold updateDriverConf. run_op. split_cases; reflexivity.
Qed.

(** ** Walking the entries *)

Lemma walkApps_each_recording (accept : App -> bool)
    (recs : list (Tbl.app * Z * bool)) (seen : list App) :
  walkApps_each (fun a st => (accept a, st ++ [a])) recs seen
  = (forallb accept (map (fillApp newApp) recs),
     seen ++ through_first_rejected accept (map (fillApp newApp) recs)).
Proof.
  revert seen. induction recs as [|rec recs IH]; intros seen; simpl.
  - rewrite app_nil_r. reflexivity.
  - destruct (accept (fillApp newApp rec)); simpl.
    + rewrite IH, <- app_assoc. reflexivity.
    + reflexivity.
Qed.

Lemma through_first_rejected_all {A : Type} (f : A -> bool) (l : list A) :
  forallb f l = true -> through_first_rejected f l = l.
Proof.
  induction l as [|a l IH]; simpl; [reflexivity|].
  destruct (f a); simpl; [|discriminate]. intros H. rewrite (IH H). reflexivity.
Qed.

Lemma through_first_rejected_prefix {A : Type} (f : A -> bool) (l : list A) :
  exists rest, l = through_first_rejected f l ++ rest.
Proof.
  induction l as [|a l [rest IH]]; simpl; [exists []; reflexivity|].
  destruct (f a); [exists rest; simpl; f_equal; exact IH|exists l; reflexivity].
Qed.

Lemma in_select_rows (gs : list Z) (s : Store) (rows : list Tbl.app)
    (rec : Tbl.app * Z * bool) :
  In rec (select_rows gs s rows) ->
  In (row_of rec) rows
  /\ index_of (Tbl.app_group_id (row_of rec)) gs = Some (snd (fst rec))
  /\ snd rec = is_alerted (Tbl.app_id (row_of rec)) s.
Proof.
  induction rows as [|r rows IH]; simpl; [contradiction|].
  unfold select_app_fields.
  destruct (index_of (Tbl.app_group_id r) gs) eqn:E.
  - intros [<-|H]; [simpl; auto|]. destruct (IH H) as (H1 & H2). auto.
  - intros H. destruct (IH H) as (H1 & H2). auto.
Qed.

(** X16.  [walkApps] with a callback that records what it is shown: the
    result is true exactly when the callback accepted every entry; the
    entries shown are, in row order, those up to and including the first one
    rejected, so all of them on success; each comes from a row of the store
    that joins a group, with that row's key, flags and alert state, and with
    an empty name and no end time, which the statement does not select; the
    store is not touched and nothing is logged.  A statement that cannot be
    prepared gives false with nothing shown. *)
Theorem walkApps_visits (accept : App -> bool) (w : World) :
  let record := fun a (st : list App) => (accept a, st ++ [a]) in
  let r := walkApps record [] w in
  let apps := map (fillApp newApp) (sqlSelectApps (groups w) (db w)) in
  (hd true (sqlOutcomes w) = true ->
   fst (result r) = forallb accept apps
   /\ snd (result r) = through_first_rejected accept apps
   /\ (fst (result r) = true -> snd (result r) = apps)
   /\ (exists rest, apps = snd (result r) ++ rest))
  /\ (hd true (sqlOutcomes w) = false -> result r = (false, []))
  /\ (forall a, In a (snd (result r)) ->
        appName a = EmptyString /\ endTime a = None
        /\ exists x, In x (app_rows (db w))
                     /\ appId a = Tbl.app_id x
                     /\ blocked a = Tbl.blocked x
                     /\ appPath a = columnText (Tbl.path x)
                     /\ alerted a = is_alerted (Tbl.app_id x) (db w)
                     /\ appGroupAt (groups w) (groupIndex a) = Some (Tbl.app_group_id x))
  /\ db (world r) = db w
  /\ events r = [].
Proof.
  cbv zeta.
  assert (R : walkApps (fun a (st : list App) => (accept a, st ++ [a])) [] w
              = (match sqlOutcomes w with
                 | false :: _ => (false, [])
                 | _ =>
                     let apps := map (fillApp newApp) (sqlSelectApps (groups w) (db w)) in
                     (forallb accept apps, through_first_rejected accept apps)
                 end,
                 set_sqlOutcomes (tl (sqlOutcomes w)) w, [])).
  { unfold walkApps, prepare, bind, gets, ret.
    destruct (sqlOutcomes w) as [|[] o]; cbn [negb tl db groups set_sqlOutcomes app];
      rewrite ?walkApps_each_recording; reflexivity. }
  rewrite R. unfold result, world, events. cbn [fst snd db set_sqlOutcomes].
  split; [|split; [|split; [|split]]]; try reflexivity.
  - intros H. destruct (sqlOutcomes w) as [|[] o]; simpl in H; try discriminate.
    all: cbv zeta; cbn [fst snd]; split; [reflexivity|]; split; [reflexivity|];
      split; [apply through_first_rejected_all|apply through_first_rejected_prefix].
  - intros H. destruct (sqlOutcomes w) as [|[] o]; simpl in H; try discriminate.
    reflexivity.
  - intros a Ha.
    assert (Hin : In a (map (fillApp newApp) (sqlSelectApps (groups w) (db w)))).
    { destruct (through_first_rejected_prefix accept
                  (map (fillApp newApp) (sqlSelectApps (groups w) (db w)))) as [rest E].
      destruct (sqlOutcomes w) as [|[] o]; cbv zeta in Ha; cbn [fst snd] in Ha;
        try contradiction; rewrite E; apply in_or_app; left; exact Ha. }
    apply in_map_iff in Hin. destruct Hin as (rec & <- & Hrec).
    apply in_select_rows in Hrec. destruct Hrec as (Hx & Hg & Hal).
    destruct rec as [[x gi] al]. simpl in *.
    split; [reflexivity|]. split; [reflexivity|].
    exists x. repeat split; auto. apply index_of_nth, Hg.
Qed.

(** ** Saving from the edit dialog *)

Lemma fillApp_dialog_entry (d : Dialog) (now : Z) (app : App) :
  endTime app = None -> dialog_entry (ProgramEditDialog_fillApp d now app) = true.
Proof.
  intros H. unfold dialog_entry, ProgramEditDialog_fillApp. cbn [blocked endTime].
  destruct (m_rbAllowApp d); simpl; [reflexivity|]. rewrite H. reflexivity.
Qed.

Lemma saveMulti_keeps (ids : list Z) (app : App) (w : World) :
  dialog_entry app = true ->
  no_blocked_deadline (db w) = true ->
  no_blocked_deadline (db (world (saveMulti ids app w))) = true.
Proof.
  revert app w. induction ids as [|id ids IH]; intros app w G I; simpl saveMulti.
  - exact I.
  - rewrite bind_gets, bind_world.
    assert (G' : dialog_entry (with_row id (appRowById w id) app) = true) by exact G.
    pose proof (updateApp_keeps _ w G' I) as I'.
    destruct (result (updateApp _ w)); [apply IH; assumption|].
    unfold ret. rewrite world_triple. exact I'.
Qed.

(** X17.  Whatever the dialog's widgets hold and whatever was selected, a
    save leaves no row that is blocked and carries an end time when there was
    none before: [fillApp] takes an end time from "Block In" or "Block At"
    only for an allowed entry, and [save] starts from a fresh [App]. *)
Theorem save_keeps_blocked_rows_without_end_time (d : Dialog) (w : World) :
  no_blocked_deadline (db w) = true ->
  no_blocked_deadline (db (world (save d w))) = true.
Proof.
  intros I. unfold save. cbv zeta.
  destruct (_ && _); [exact I|].
  rewrite bind_gets.
  pose proof (fillApp_dialog_entry d (currentMSecs w) newApp eq_refl) as G.
  destruct (_ =? 0); [apply addApp_keeps; assumption|].
  destruct (_ <=? 1); [|apply saveMulti_keeps; assumption].
  unfold saveApp.
  destruct (negb (isOptionsEqual _ _)); [apply updateApp_keeps; assumption|].
  destruct (negb (isNameEqual _ _)); [apply updateAppName_keeps; assumption|].
  exact I.
Qed.

Lemma wrap32_hours (hours : Z) :
  1 <= hours <= BLOCK_IN_HOURS_MAX -> wrap32 (wrap32 (hours * 60) * 60) = hours * 3600.
Proof.
  unfold BLOCK_IN_HOURS_MAX, wrap32. intros H.
  rewrite (Z.mod_small (hours * 60 + 2 ^ 31)) by lia.
  rewrite Z.mod_small by lia. lia.
Qed.

Lemma sqlUpsertApp_row (v : Tbl.app) (s s' : Store) (id : Z) :
  sqlUpsertApp v s = Some (id, s') ->
  exists r, In r (app_rows s')
            /\ Tbl.end_time r = Tbl.end_time v /\ Tbl.blocked r = Tbl.blocked v.
Proof.
  unfold sqlUpsertApp. intros H. destruct (find _ _) as [r0|] eqn:F; injection H as _ <-.
  - apply find_some in F. destruct F as [Hin Hp].
    exists (on_conflict v r0). split; [|auto]. cbn [app_rows].
    apply in_map_iff. exists r0. rewrite Hp. auto.
  - eexists. split; [cbn [app_rows]; apply in_or_app; right; left; reflexivity|auto].
Qed.

Lemma updateDriverUpdateApp_timer (app : App) (remove : bool) (w : World) :
  appEndTimer (world (updateDriverUpdateApp app remove w)) = appEndTimer w.
Proof.
  unfold updateDriverUpdateApp. run_op. split_cases; reflexivity.
Qed.

Lemma addOrUpdateApp_timer (app : App) (w : World) :
  let r := addOrUpdateApp app w in
  result r = true ->
  isSome (endTime app) = true ->
  appEndTimer (world r)
  = match min_end_time (app_rows (db (world r))) with
    | Some m => Some (timer_interval m (currentMSecs w))
    | None => None
    end.
Proof.
  cbv zeta. intros H He. unfold addOrUpdateApp in *. rewrite He in *.
  unfold sqlInsertAppAlert, sqlDeleteAppAlert in *.
  cbv [bind ret gets modify emit executeEx beginTransaction endTransaction
       commitTransaction checkEndTransaction showErrorMessage emitAppChanged
       result world events fst snd] in *.
  simpl in *. revert H.
  split_cases; intros H; try discriminate.
  all: match goal with
       | E : updateAppEndTimer _ = _ |- _ =>
           rewrite updateAppEndTimer_run in E; injection E as <- <- <-
       end;
       simpl in *;
       repeat match goal with M : min_end_time _ = _ |- _ => rewrite M; clear M end;
       reflexivity.
Qed.

Lemma addApp_timer (app : App) (w : World) :
  let r := addApp app w in
  result r = true ->
  isSome (endTime app) = true ->
  appEndTimer (world r)
  = match min_end_time (app_rows (db (world r))) with
    | Some m => Some (timer_interval m (currentMSecs w))
    | None => None
    end
  /\ exists x, In x (app_rows (db (world r)))
               /\ Tbl.end_time x = endTime app /\ Tbl.blocked x = blocked app.
Proof.
  cbv zeta. unfold addApp. rewrite bind_result, bind_world.
  destruct (result (addOrUpdateApp app w)) eqn:R;
    [|unfold ret at 1; unfold result at 1; simpl; discriminate].
  intros _ He. rewrite bind_world. unfold ret. rewrite !world_triple.
  pose proof (addOrUpdateApp_timer app w R He) as T.
  destruct (addOrUpdateApp_ok app w R) as (gid & id & s1 & _ & U & Hrows & _).
  apply sqlUpsertApp_row in U. rewrite <- Hrows in U.
  unfold updateDriverUpdateAppConf.
  destruct (isWildcard app);
    rewrite ?updateDriverConf_timer, ?updateDriverConf_db,
      ?updateDriverUpdateApp_timer, ?updateDriverUpdateApp_db;
    (split; [exact T|exact U]).
Qed.

(** X18.  Adding a program from the dialog with "Allow" and "Block In: N
    hours" chosen, N within the spin box's range of 1 to 8640: the entry's end
    time is now plus N hours (the [int] product does not overflow), and when
    the save succeeds the store holds an allowed row with that end time and
    the expiry timer is running, with an interval between 100 ms and one
    day. *)
Theorem save_block_in_arms_timer (d : Dialog) (w : World) :
  let hours := m_cscBlockAppIn_value d in
  let r := save d w in
  m_appIdList d = [] ->
  m_rbAllowApp d = true ->
  m_cscBlockAppIn_checked d = true ->
  1 <= hours <= BLOCK_IN_HOURS_MAX ->
  0 <= currentMSecs w ->
  endTime (ProgramEditDialog_fillApp d (currentMSecs w) newApp)
  = Some (currentMSecs w + hours * 60 * 60 * 1000)
  /\ (result r = true ->
      (exists x, In x (app_rows (db (world r)))
                 /\ Tbl.end_time x = Some (currentMSecs w + hours * 60 * 60 * 1000)
                 /\ Tbl.blocked x = false)
      /\ exists i, appEndTimer (world r) = Some i /\ 100 <= i <= 24 * 60 * 60 * 1000).
Proof.
  cbv zeta. intros Hids Hallow Hin Hh Hnow.
  assert (E : endTime (ProgramEditDialog_fillApp d (currentMSecs w) newApp)
              = Some (currentMSecs w + m_cscBlockAppIn_value d * 60 * 60 * 1000)).
  { unfold ProgramEditDialog_fillApp. cbn [endTime]. rewrite Hallow, Hin. cbn [negb].
    rewrite (wrap32_hours _ Hh). unfold addSecs. f_equal. lia. }
  split; [exact E|].
  unfold save. cbv zeta. rewrite Hids. cbn [List.length Z.of_nat Z.leb Z.eqb Z.compare].
  destruct (true && negb (validateFields d));
    [unfold ret, result; simpl; discriminate|].
  rewrite bind_gets.
  intros R.
  destruct (addApp_timer _ w R) as (T & x & Hx & Ex & Bx); [rewrite E; reflexivity|].
  rewrite E in Ex.
  assert (Bx' : Tbl.blocked x = false).
  { rewrite Bx. unfold ProgramEditDialog_fillApp. cbn [blocked]. rewrite Hallow.
    reflexivity. }
  split; [exists x; auto|].
  assert (P : pending x = true).
  { unfold pending. rewrite Ex, Bx'. cbn [negb]. rewrite andb_true_r.
    apply negb_true_iff, Z.eqb_neq. unfold BLOCK_IN_HOURS_MAX in Hh. lia. }
  destruct (min_end_time _) as [m|] eqn:M.
  - exists (timer_interval m (currentMSecs w)). split; [exact T|].
    apply timer_interval_bounds.
  - exfalso. rewrite min_end_time_none in M. rewrite (M x Hx) in P. discriminate.
Qed.

(** X19.  A save that does nothing: with at most one id selected and an empty
    path or name field it reports failure, and with one id selected, valid
    fields and neither the options nor the name changed it reports success;
    in both cases no statement is run, nothing is emitted and nothing is
    written to the driver. *)
Theorem save_without_effect (d : Dialog) (w : World) :
  ((List.length (m_appIdList d) <= 1)%nat ->
   validateFields d = false ->
   save d w = (false, w, []))
  /\ (forall id,
         m_appIdList d = [id] ->
         validateFields d = true ->
         let app := ProgramEditDialog_fillApp d (currentMSecs w) newApp in
         isOptionsEqual app (m_appRow d) = true ->
         isNameEqual app (m_appRow d) = true ->
         save d w = (true, w, [])).
Proof.
  split.
  - intros Hn Hv. unfold save. cbv zeta. rewrite Hv.
    assert (E : (Z.of_nat (List.length (m_appIdList d)) <=? 1) = true)
      by (apply Z.leb_le; lia).
    rewrite E. reflexivity.
  - intros id Hids Hv. cbv zeta. intros Ho Hn. unfold save. cbv zeta.
    rewrite Hids, Hv. cbn [List.length Z.of_nat Z.leb Z.eqb Z.compare Pos.of_succ_nat
                           Pos.compare Pos.compare_cont andb negb].
    rewrite bind_gets. unfold saveApp. rewrite Ho, Hn. reflexivity.
Qed.

(** ** When the timer is recomputed *)

Lemma updateApp_timer (app : App) (w : World) :
  let r := updateApp app w in
  result r = true ->
  isSome (endTime app) = true ->
  appEndTimer (world r) = timer_of (db (world r)) (currentMSecs w)
  /\ currentMSecs (world r) = currentMSecs w.
Proof.
  cbv zeta. intros H He. unfold timer_of.
  unfold updateApp, updateDriverUpdateAppConf, updateDriverConf,
    updateDriverUpdateApp, sqlDeleteAppAlert in *. rewrite He in *.
  cbv [bind ret gets modify emit executeEx driver_write beginTransaction endTransaction
       commitTransaction checkEndTransaction showErrorMessage emitAppUpdated
       result world events fst snd] in *.
  simpl in *. revert H.
  split_cases; intros H; try discriminate.
  all: match goal with
       | E : updateAppEndTimer _ = _ |- _ =>
           rewrite updateAppEndTimer_run in E; injection E as <- <- <-
       end;
       simpl in *;
       repeat match goal with M : min_end_time _ = _ |- _ => rewrite M; clear M end;
       auto.
Qed.

Lemma addOrUpdateApp_clock (app : App) (w : World) :
  currentMSecs (world (addOrUpdateApp app w)) = currentMSecs w.
Proof.
  unfold addOrUpdateApp, sqlInsertAppAlert, sqlDeleteAppAlert.
  run_op. split_cases; reflexivity.
Qed.

Lemma updateDriverUpdateAppConf_rest (app : App) (w : World) :
  let w' := world (updateDriverUpdateAppConf app w) in
  db w' = db w /\ appEndTimer w' = appEndTimer w /\ currentMSecs w' = currentMSecs w.
Proof.
  unfold updateDriverUpdateAppConf, updateDriverConf, updateDriverUpdateApp.
  run_op. split_cases; auto.
Qed.

(** X20.  The timer agrees with the store, as [updateAppEndTimer] would set
    it from the rows and the clock, after start-up (the purge comes before
    the timer is set up, and a purge itself leaves the timer alone), after a
    firing whose selecting statement could be prepared, and after a
    successful add or full update that carries an end time.  A firing whose
    statement cannot be prepared leaves the timer as it was. *)
Theorem timer_agrees_with_store (w : World) :
  (forall purge,
      let w' := world (setUp purge w) in
      appEndTimer w' = timer_of (db w') (currentMSecs w'))
  /\ (let w' := world (updateAppEndTimes w) in
      (hd true (sqlOutcomes w) = true ->
       appEndTimer w' = timer_of (db w') (currentMSecs w'))
      /\ (hd true (sqlOutcomes w) = false ->
          appEndTimer w' = appEndTimer w /\ db w' = db w))
  /\ (forall app,
         let r := addApp app w in
         result r = true -> isSome (endTime app) = true ->
         appEndTimer (world r) = timer_of (db (world r)) (currentMSecs (world r)))
  /\ (forall app,
         let r := updateApp app w in
         result r = true -> isSome (endTime app) = true ->
         appEndTimer (world r) = timer_of (db (world r)) (currentMSecs (world r))).
Proof.
  split; [|split; [|split]]; cbv zeta.
  - intros purge. unfold setUp, setupAppEndTimer. rewrite bind_world.
    rewrite updateAppEndTimer_run, world_triple. reflexivity.
  - split; intros Hhd.
    + destruct (updateAppEndTimes_run w Hhd) as [-> _].
      rewrite updateAppEndTimer_run, world_triple. reflexivity.
    + rewrite (updateAppEndTimes_unprepared w Hhd). split; reflexivity.
  - intros app R He. destruct (addApp_timer app w R He) as [T _].
    unfold timer_of. rewrite T. f_equal.
    unfold addApp. rewrite bind_world.
    unfold addApp in R. rewrite bind_result in R.
    destruct (result (addOrUpdateApp app w));
      [|unfold ret, result in R; simpl in R; discriminate].
    rewrite bind_world. unfold ret. rewrite world_triple.
    destruct (updateDriverUpdateAppConf_rest app (world (addOrUpdateApp app w)))
      as (_ & _ & ->).
    rewrite addOrUpdateApp_clock. reflexivity.
  - intros app R He. destruct (updateApp_timer app w R He) as [T ->]. exact T.
Qed.

(** ** The log manager around a configuration sync *)

(** X21.  [FortManager::updateDriverConf] brackets the sync: whatever the
    encode and the driver answer, the driver is written to only while the log
    manager is inactive and the log manager is active again at the end; the
    statistics manager is given the configuration exactly when the driver
    accepted it, which is exactly when the call reports success and the drive
    mask is the one of this encode.  The [confChanged] handler syncs unless
    only flags changed and none was edited. *)
Theorem FortManager_updateDriverConf_bracket (onlyFlags : bool) (w : World) :
  let r := FortManager_updateDriverConf onlyFlags w in
  (forall active, log_run active (snd r) = Some true)
  /\ fort_count is_stat_conf (snd r) = fort_count is_accepted_conf (snd r)
  /\ fort_count is_stat_conf (snd r) = (if fst (fst r) then 1%nat else 0%nat)
  /\ (fst (fst r) = true ->
      writeConf onlyFlags (groups w) (db w) = Some (m_driveMask (snd (fst r))))
  /\ (fst (fst r) = false -> m_driveMask (snd (fst r)) = m_driveMask w)
  /\ onConfChanged true false w = (w, [EvUpdateLogger])
  /\ (forall flagsEdited,
         (negb onlyFlags || flagsEdited) = true ->
         onConfChanged onlyFlags flagsEdited w = (snd (fst r), EvUpdateLogger :: snd r)).
Proof.
  cbv zeta. unfold onConfChanged, FortManager_updateDriverConf, updateDriverConf.
  run_op. unfold fort_count.
  destruct (writeConf onlyFlags (groups w) (db w)) as [mask|] eqn:E; simpl.
  - destruct (drvOutcomes w) as [|[] o]; simpl;
      (repeat split; try reflexivity; try discriminate;
       try (intros flagsEdited H; rewrite H; reflexivity)).
  - repeat split; try reflexivity; try discriminate.
    intros flagsEdited H. rewrite H. reflexivity.
Qed.

(** ** Firing twice *)

Lemma updateApp_clock (app : App) (w : World) :
  currentMSecs (world (updateApp app w)) = currentMSecs w.
Proof.
  unfold updateApp, updateDriverUpdateAppConf, updateDriverConf,
    updateDriverUpdateApp, sqlDeleteAppAlert.
  run_op. split_cases; reflexivity.
Qed.

Lemma updateAppEndTimes_clock (w : World) :
  currentMSecs (world (updateAppEndTimes w)) = currentMSecs w.
Proof.
  destruct (hd true (sqlOutcomes w)) eqn:Hhd;
    [|rewrite (updateAppEndTimes_unprepared w Hhd); reflexivity].
  destruct (updateAppEndTimes_run w Hhd) as [-> _].
  rewrite updateAppEndTimer_run, world_triple. cbn [currentMSecs set_appEndTimer].
  change (currentMSecs w)
    with (currentMSecs (set_sqlOutcomes (tl (sqlOutcomes w)) w)) at 2.
  generalize (sqlSelectEndedApps (groups w) (currentMSecs w) (db w)). intros recs.
  generalize (set_sqlOutcomes (tl (sqlOutcomes w)) w). clear Hhd w. intros w.
  revert w. induction recs as [|rec recs IH]; intros w; simpl updateAppEndTimes_each.
  - reflexivity.
  - rewrite bind_world, IH. apply updateApp_clock.
Qed.

Lemma updateApp_io (app : App) (w : World) :
  no_io_failure (sqlOutcomes w) = true ->
  no_io_failure (sqlOutcomes (world (updateApp app w))) = true.
Proof.
  intros Hio.
  pose proof (no_io_failure_tl _ Hio) as Hio1.
  pose proof (no_io_failure_tl _ Hio1) as Hio2.
  unfold updateApp, updateDriverUpdateAppConf, updateDriverConf,
    updateDriverUpdateApp, sqlDeleteAppAlert.
  run_op. split_cases; assumption.
Qed.

Lemma updateAppEndTimes_io (w : World) :
  no_io_failure (sqlOutcomes w) = true ->
  no_io_failure (sqlOutcomes (world (updateAppEndTimes w))) = true.
Proof.
  intros Hio.
  destruct (updateAppEndTimes_run w (no_io_failure_hd _ Hio)) as [-> _].
  rewrite updateAppEndTimer_run, world_triple. cbn [sqlOutcomes set_appEndTimer].
  apply no_io_failure_tl in Hio.
  change (tl (sqlOutcomes w))
    with (sqlOutcomes (set_sqlOutcomes (tl (sqlOutcomes w)) w)) in Hio.
  revert Hio.
  generalize (sqlSelectEndedApps (groups w) (currentMSecs w) (db w)). intros recs.
  generalize (set_sqlOutcomes (tl (sqlOutcomes w)) w). clear w. intros w.
  revert w. induction recs as [|rec recs IH]; intros w Hio; simpl updateAppEndTimes_each.
  - exact Hio.
  - rewrite bind_world. apply IH, updateApp_io, Hio.
Qed.

Lemma set_appEndTimer_same (w : World) : set_appEndTimer (appEndTimer w) w = w.
Proof. destruct w. reflexivity. Qed.

(** X27.  A firing of the expiry timer is idempotent: on a store meeting the
    schema and with no statement failure, a second firing at the same clock
    finds nothing ended; but for the outcome its selecting statement
    consumes it changes nothing, not even the timer, and logs nothing. *)
Theorem updateAppEndTimes_twice (w : World) :
  let w1 := world (updateAppEndTimes w) in
  store_wf (groups w) (db w) = true ->
  no_io_failure (sqlOutcomes w) = true ->
  updateAppEndTimes w1 = (tt, set_sqlOutcomes (tl (sqlOutcomes w1)) w1, []).
Proof.
  cbv zeta. intros Hwf Hio.
  destruct (updateAppEndTimes_expires w Hwf Hio) as (Hrows & _ & _ & _ & _ & Ht).
  pose proof (updateAppEndTimes_clock w) as Hc.
  rewrite updateAppEndTimes_idle.
  - rewrite Hc, <- Ht.
    change (appEndTimer (world (updateAppEndTimes w)))
      with (appEndTimer (set_sqlOutcomes
                           (tl (sqlOutcomes (world (updateAppEndTimes w))))
                           (world (updateAppEndTimes w)))).
    rewrite set_appEndTimer_same. reflexivity.
  - apply no_io_failure_hd, updateAppEndTimes_io, Hio.
  - intros r Hr. rewrite Hrows in Hr. rewrite Hc.
    apply in_map_iff in Hr. destruct Hr as (x & <- & _).
    destruct (ended (currentMSecs w) x) eqn:E; [reflexivity|exact E].
Qed.

(** ** A batch of blocked-state updates *)

Lemma updateAppBlocked_effect (id : Z) (b k iw : bool) (w : World) (r : Tbl.app) :
  let res := updateAppBlocked id b k iw w in
  find (has_id id) (app_rows (db w)) = Some r ->
  isSome (index_of (Tbl.app_group_id r) (groups w)) = true ->
  no_io_failure (sqlOutcomes w) = true ->
  no_io_failure (sqlOutcomes (world res)) = true
  /\ ((db (world res) = db w
       /\ Tbl.blocked r = b /\ Tbl.kill_process r = k
       /\ is_alerted id (db w) = false)
      \/ db (world res)
         = mkStore (map (fun x => if has_id id x then reblock b k x else x)
                      (app_rows (db w)))
                   (filter (fun i => negb (i =? id)) (app_alert (db w)))).
Proof.
  cbv zeta. intros Hfind Hg Hio.
  pose proof (find_has_id _ _ _ Hfind) as Hid.
  pose proof (no_io_failure_tl _ Hio) as Hio1.
  pose proof (no_io_failure_tl _ Hio1) as Hio2.
  unfold updateAppBlocked, saveAppBlocked, loadAppById, sqlSelectAppById,
    select_app_fields, sqlUpdateAppBlocked, sqlDeleteAppAlert, updateDriverUpdateApp,
    prepareAppBlocked.
  run_op.
  assert (Hhd : match sqlOutcomes w with false :: _ => false | _ => true end = true).
  { destruct (sqlOutcomes w) as [|[] o]; [reflexivity|reflexivity|discriminate Hio]. }
  rewrite Hhd. simpl. rewrite Hfind.
  destruct (index_of (Tbl.app_group_id r) (groups w)) as [gi|]; [|discriminate].
  simpl. rewrite Hid.
  destruct (negb (is_alerted id (db w))
            && (Bool.eqb (Tbl.blocked r) b && Bool.eqb (Tbl.kill_process r) k)) eqn:C;
    simpl.
  - split; [exact Hio1|]. left.
    apply andb_true_iff in C. destruct C as [C1 C2].
    apply andb_true_iff in C2. destruct C2 as [C2 C3].
    apply negb_true_iff in C1. apply eqb_prop in C2, C3. auto.
  - clear Hhd.
    destruct (sqlOutcomes w) as [|[] [|[] [|[] o]]]; simpl in Hio; try discriminate;
      simpl; split_cases; simpl; auto.
Qed.

Lemma updateAppBlocked_groups (id : Z) (b k iw : bool) (w : World) :
  groups (world (updateAppBlocked id b k iw w)) = groups w.
Proof.
  unfold updateAppBlocked, saveAppBlocked, loadAppById, updateDriverUpdateApp,
    sqlUpdateAppBlocked, sqlDeleteAppAlert, prepareAppBlocked.
  run_op. split_cases; reflexivity.
Qed.

Lemma in_map_reblock (id : Z) (b k : bool) (rows : list Tbl.app) (x : Tbl.app) :
  In x (map (fun y => if has_id id y then reblock b k y else y) rows) ->
  (Tbl.app_id x = id /\ Tbl.blocked x = b /\ Tbl.kill_process x = k)
  \/ (Tbl.app_id x <> id /\ In x rows).
Proof.
  intros H. apply in_map_iff in H. destruct H as (y & <- & Hy).
  destruct (has_id id y) eqn:E; unfold has_id in E.
  - left. apply Z.eqb_eq in E. auto.
  - right. apply Z.eqb_neq in E. auto.
Qed.

Lemma updateAppsBlocked_each_effect (ids : list Z) (b k iw : bool) (w : World) :
  let s' := db (world (updateAppsBlocked_each ids b k iw w)) in
  store_wf (groups w) (db w) = true ->
  no_io_failure (sqlOutcomes w) = true ->
  (forall id, In id ids -> existsb (has_id id) (app_rows (db w)) = true) ->
  map Tbl.app_id (app_rows s') = map Tbl.app_id (app_rows (db w))
  /\ (forall x, In x (app_rows s') -> In (Tbl.app_id x) ids ->
        Tbl.blocked x = b /\ Tbl.kill_process x = k
        /\ is_alerted (Tbl.app_id x) s' = false)
  /\ (forall x, In x (app_rows s') -> ~ In (Tbl.app_id x) ids -> In x (app_rows (db w)))
  /\ (forall i, ~ In i ids -> is_alerted i s' = is_alerted i (db w)).
Proof.
  revert iw w. induction ids as [|id ids IH]; intros iw w; cbv zeta;
    intros Hwf Hio Hex.
  - simpl. unfold ret. rewrite world_triple.
    split; [reflexivity|]. split; [intros x _ []|].
    split; [intros x Hx _; exact Hx|reflexivity].
  - simpl updateAppsBlocked_each. rewrite bind_world.
    destruct (find (has_id id) (app_rows (db w))) as [r|] eqn:Hfind.
    2:{ apply find_none_existsb in Hfind.
        rewrite (Hex id (or_introl eq_refl)) in Hfind. discriminate. }
    pose proof (proj1 (store_wf_iff _ _) Hwf) as (Hnd & _ & Hgr).
    pose proof (find_some _ _ Hfind) as [Hr _].
    pose proof (find_has_id _ _ _ Hfind) as Hid.
    destruct (updateAppBlocked_effect id b k iw w r Hfind (Hgr r Hr) Hio) as [Hio1 Hdb].
    destruct (updateAppBlocked_kept id b k iw w Hwf) as [Hg1 Hwf1].
    rewrite <- Hg1 in Hwf1.
    set (w1 := world (updateAppBlocked id b k iw w)) in *.
    assert (Hids : map Tbl.app_id (app_rows (db w1)) = map Tbl.app_id (app_rows (db w))).
    { destruct Hdb as [[-> _]| ->]; [reflexivity|]. cbn [app_rows].
      rewrite map_map. apply map_ext. intros x. destruct (has_id id x); reflexivity. }
    assert (Hex1 : forall id', In id' ids ->
                     existsb (has_id id') (app_rows (db w1)) = true).
    { intros id' Hin'. specialize (Hex id' (or_intror Hin')).
      apply existsb_exists in Hex. destruct Hex as (y & Hy & Ey).
      unfold has_id in Ey. apply Z.eqb_eq in Ey.
      assert (I : In id' (map Tbl.app_id (app_rows (db w1)))).
      { rewrite Hids. rewrite <- Ey. apply in_map, Hy. }
      apply in_map_iff in I. destruct I as (y' & Ey' & Hy').
      apply existsb_exists. exists y'. split; [exact Hy'|].
      unfold has_id. apply Z.eqb_eq, Ey'. }
    destruct (IH (snd (result (updateAppBlocked id b k iw w))) w1 Hwf1 Hio1 Hex1)
      as (K1 & K2 & K3 & K4).
    set (s' := db (world (updateAppsBlocked_each ids b k
                            (snd (result (updateAppBlocked id b k iw w))) w1))) in *.
    assert (Hone : forall x, In x (app_rows (db w1)) -> Tbl.app_id x = id ->
                     Tbl.blocked x = b /\ Tbl.kill_process x = k
                     /\ is_alerted id (db w1) = false).
    { intros x Hx Ex. destruct Hdb as [(E & B & K & A)|E]; rewrite E in *.
      - assert (x = r) by (apply (same_id_same_row _ r x Hnd Hr Hx); congruence).
        subst x. auto.
      - cbn [app_rows] in Hx. apply in_map_reblock in Hx.
        destruct Hx as [(_ & B & K)|[Hne _]]; [|contradiction].
        rewrite is_alerted_removed. auto. }
    assert (Hrest : forall x, In x (app_rows (db w1)) -> Tbl.app_id x <> id ->
                      In x (app_rows (db w))).
    { intros x Hx Ex. destruct Hdb as [(E & _)|E]; rewrite E in *; [exact Hx|].
      cbn [app_rows] in Hx. apply in_map_reblock in Hx.
      destruct Hx as [(E' & _)|[_ Hx]]; [contradiction|exact Hx]. }
    assert (Hal : forall i, i <> id -> is_alerted i (db w1) = is_alerted i (db w)).
    { intros i Hi. destruct Hdb as [(E & _)|E]; rewrite E; [reflexivity|].
      rewrite is_alerted_other by exact Hi. reflexivity. }
    split; [congruence|]. split; [|split].
    + intros x Hx Hin. destruct (in_dec Z.eq_dec (Tbl.app_id x) ids) as [Hi|Hi].
      * apply K2; assumption.
      * destruct Hin as [E|Hin]; [|contradiction].
        destruct (Hone x (K3 x Hx Hi) (eq_sym E)) as (B & K & A).
        split; [exact B|]. split; [exact K|].
        rewrite K4 by exact Hi. rewrite <- E. exact A.
    + intros x Hx Hn. apply Hrest.
      * apply K3; [exact Hx|]. intros Hi. apply Hn. right. exact Hi.
      * intros E. apply Hn. left. symmetry. exact E.
    + intros i Hn. rewrite K4 by (intros Hi; apply Hn; right; exact Hi).
      apply Hal. intros E. apply Hn. left. symmetry. exact E.
Qed.

(** X28.  A batch blocked-state update brings every selected entry to the
    requested state: on a store meeting the schema, with no statement
    failure and every id stored, after [updateAppsBlocked] every row whose
    id was in the list has the given [blocked] and [kill_process] and no
    alert record, whether it was rewritten or already in that state; the
    rows keep their keys and order, and every row and alert record of an id
    not in the list is as before. *)
Theorem updateAppsBlocked_sets_state (ids : list Z) (b k : bool) (w : World) :
  let s' := db (world (updateAppsBlocked ids b k w)) in
  store_wf (groups w) (db w) = true ->
  no_io_failure (sqlOutcomes w) = true ->
  (forall id, In id ids -> existsb (has_id id) (app_rows (db w)) = true) ->
  map Tbl.app_id (app_rows s') = map Tbl.app_id (app_rows (db w))
  /\ (forall x, In x (app_rows s') -> In (Tbl.app_id x) ids ->
        Tbl.blocked x = b /\ Tbl.kill_process x = k
        /\ is_alerted (Tbl.app_id x) s' = false)
  /\ (forall x, In x (app_rows s') -> ~ In (Tbl.app_id x) ids -> In x (app_rows (db w)))
  /\ (forall i, ~ In i ids -> is_alerted i s' = is_alerted i (db w)).
Proof.
  cbv zeta. intros Hwf Hio Hex.
  assert (E : db (world (updateAppsBlocked ids b k w))
              = db (world (updateAppsBlocked_each ids b k
                             (7 <? Z.of_nat (List.length ids)) w))).
  { unfold updateAppsBlocked. rewrite bind_world.
    destruct (result (updateAppsBlocked_each ids b k _ w)).
    - rewrite bind_world. unfold ret. rewrite world_triple.
      apply updateDriverConf_db.
    - unfold ret. rewrite world_triple. reflexivity. }
  rewrite E. apply updateAppsBlocked_each_effect; assumption.
Qed.

(** ** Adding and deleting again *)

Lemma filter_absent (id : Z) (al : list Z) :
  existsb (Z.eqb id) al = false -> filter (fun i => negb (i =? id)) al = al.
Proof.
  induction al as [|a al IH]; simpl; [reflexivity|].
  intros H. apply orb_false_iff in H. destruct H as [Ha Hl].
  rewrite Z.eqb_sym, Ha. simpl. rewrite (IH Hl). reflexivity.
Qed.

Lemma filter_fresh_row (rows : list Tbl.app) (v : Tbl.app) :
  filter (fun x => negb (has_id (next_rowid rows) x))
         (rows ++ [with_id (next_rowid rows) v]) = rows.
Proof.
  rewrite filter_app. simpl. unfold has_id at 2. cbn [with_id Tbl.app_id].
  rewrite Z.eqb_refl. simpl. rewrite app_nil_r.
  apply forallb_filter_id. apply forallb_forall. intros x Hx.
  apply next_rowid_above in Hx. unfold has_id.
  apply negb_true_iff, Z.eqb_neq. lia.
Qed.

Lemma addApp_new_path (app : App) (w : World) (gid : Z) :
  let r := addApp app w in
  let id := next_rowid (app_rows (db w)) in
  appPath app <> EmptyString ->
  rows_at (appPath app) (db w) = [] ->
  appGroupAt (groups w) (groupIndex app) = Some gid ->
  no_io_failure (sqlOutcomes w) = true ->
  existsb (Z.eqb id) (app_alert (db w)) = false ->
  result r = true
  /\ app_rows (db (world r))
     = app_rows (db w) ++ [with_id id (bindVars 0 gid app (currentMSecs w))]
  /\ filter (fun i => negb (i =? id)) (app_alert (db (world r))) = app_alert (db w)
  /\ no_io_failure (sqlOutcomes (world r)) = true.
Proof.
  cbv zeta. intros Hp Hnone Hg Hio Hal.
  pose proof (no_io_failure_tl _ Hio) as Hio1.
  pose proof (no_io_failure_tl _ Hio1) as Hio2.
  assert (U : sqlUpsertApp (bindVars 0 gid app (currentMSecs w)) (db w)
              = Some (next_rowid (app_rows (db w)),
                      mkStore (app_rows (db w)
                               ++ [with_id (next_rowid (app_rows (db w)))
                                     (bindVars 0 gid app (currentMSecs w))])
                              (app_alert (db w)))).
  { unfold sqlUpsertApp. rewrite (bindVars_path _ _ _ _ Hp), find_filter.
    unfold rows_at in Hnone. rewrite Hnone. reflexivity. }
  pose proof (filter_absent _ _ Hal) as Hf.
  unfold addApp, addOrUpdateApp, updateDriverUpdateAppConf, updateDriverConf,
    updateDriverUpdateApp, sqlInsertAppAlert, sqlDeleteAppAlert.
  run_op. rewrite Hg. simpl. rewrite U.
  destruct (sqlOutcomes w) as [|[] [|[] o]]; simpl in Hio; try discriminate; simpl;
    split_cases; simpl; try congruence;
    rewrite ?filter_app, ?filter_idem, ?Hf; simpl;
    rewrite ?Z.eqb_refl, ?app_nil_r; simpl; auto.
Qed.

(** X29.  Adding and deleting again: for an entry with a non-empty path that
    no stored row has, a valid group, no statement failure and a store whose
    alert records belong to stored rows, [addApp] reports success,
    [appIdByPath] of the path gives the new row's id, and [deleteApps] of
    that id brings the rows and the alert records back to exactly what they
    were. *)
Theorem addApp_then_deleteApps (app : App) (w : World) (gid : Z) :
  let w1 := world (addApp app w) in
  let id := result (appIdByPath (appPath app) w1) in
  appPath app <> EmptyString ->
  rows_at (appPath app) (db w) = [] ->
  appGroupAt (groups w) (groupIndex app) = Some gid ->
  no_io_failure (sqlOutcomes w) = true ->
  (forall i, is_alerted i (db w) = true ->
             existsb (has_id i) (app_rows (db w)) = true) ->
  result (addApp app w) = true
  /\ id = next_rowid (app_rows (db w))
  /\ db (world (deleteApps [id] w1)) = db w.
Proof.
  cbv zeta. intros Hp Hnone Hg Hio Hfk.
  assert (Hal : existsb (Z.eqb (next_rowid (app_rows (db w)))) (app_alert (db w))
                = false).
  { apply not_true_is_false. intros H. apply Hfk in H.
    apply existsb_exists in H. destruct H as (x & Hx & E).
    apply next_rowid_above in Hx. unfold has_id in E. apply Z.eqb_eq in E. lia. }
  destruct (addApp_new_path app w gid Hp Hnone Hg Hio Hal) as (R & Hrows & Halerts & Hio1).
  assert (F : find (path_is (Some (appPath app))) (app_rows (db (world (addApp app w))))
              = Some (with_id (next_rowid (app_rows (db w)))
                        (bindVars 0 gid app (currentMSecs w)))).
  { rewrite Hrows, find_app_none.
    - simpl. unfold path_is. cbn [with_id Tbl.path].
      rewrite (bindVars_path _ _ _ _ Hp), String.eqb_refl. reflexivity.
    - rewrite find_filter. unfold rows_at in Hnone. rewrite Hnone. reflexivity. }
  assert (Eid : result (appIdByPath (appPath app) (world (addApp app w)))
                = next_rowid (app_rows (db w))).
  { unfold appIdByPath, gets, result, sqlSelectAppIdByPath. cbn [fst].
    rewrite F. reflexivity. }
  split; [exact R|]. split; [exact Eid|]. rewrite Eid.
  destruct (deleteApps_effect [next_rowid (app_rows (db w))] (world (addApp app w)))
    as [Hdb _].
  - repeat constructor. intros [].
  - intros i [<-|[]]. rewrite Hrows.
    apply (find_has_id_in _ (with_id (next_rowid (app_rows (db w)))
                               (bindVars 0 gid app (currentMSecs w)))).
    apply in_or_app. right. left. reflexivity.
  - exact Hio1.
  - rewrite Hdb, Hrows.
    assert (E1 : filter (fun x => negb (existsb (Z.eqb (Tbl.app_id x))
                                          [next_rowid (app_rows (db w))]))
                   (app_rows (db w)
                    ++ [with_id (next_rowid (app_rows (db w)))
                          (bindVars 0 gid app (currentMSecs w))])
                 = app_rows (db w)).
    { etransitivity; [|apply (filter_fresh_row (app_rows (db w))
                                (bindVars 0 gid app (currentMSecs w)))].
      apply filter_ext. intros x. simpl. rewrite orb_false_r. reflexivity. }
    assert (E2 : filter (fun i => negb (existsb (Z.eqb i) [next_rowid (app_rows (db w))]))
                   (app_alert (db (world (addApp app w))))
                 = app_alert (db w)).
    { etransitivity; [|exact Halerts].
      apply filter_ext. intros i. simpl. rewrite orb_false_r. reflexivity. }
    rewrite E1, E2. destruct (db w). reflexivity.
Qed.

End Manager.

(** ** The opened-window mask *)

Lemma testbit_not32 (x n : Z) :
  0 <= n -> Z.testbit (not32 x) n = xorb (Z.testbit x n) (n <? 32).
Proof.
  intros H. unfold not32. rewrite Z.lxor_spec, Z.testbit_ones by lia.
  assert (E : (0 <=? n) = true) by (apply Z.leb_le; exact H).
  rewrite E. reflexivity.
Qed.

Lemma testbit_high32 (x n : Z) :
  0 <= x < 2 ^ 32 -> 32 <= n -> Z.testbit x n = false.
Proof.
  intros Hx Hn. rewrite <- (Z.mod_small x (2 ^ 32)) by exact Hx.
  apply Z.mod_pow2_bits_high. lia.
Qed.

Lemma below_pow32 (x : Z) :
  0 <= x -> (forall n, 32 <= n -> Z.testbit x n = false) -> 0 <= x < 2 ^ 32.
Proof.
  intros Hx Hb. assert (E : x mod 2 ^ 32 = x).
  { apply Z.bits_inj'. intros n Hn.
    destruct (Z.ltb_spec n 32).
    - apply Z.mod_pow2_bits_low. lia.
    - rewrite Z.mod_pow2_bits_high by lia. symmetry. apply Hb. lia. }
  rewrite <- E. apply Z.mod_pos_bound. lia.
Qed.

Lemma land_not32_self (m code : Z) :
  0 <= code < 2 ^ 32 -> Z.land (Z.land m (not32 code)) code = 0.
Proof.
  intros Hc. apply Z.bits_inj'. intros n Hn.
  rewrite !Z.land_spec, testbit_not32, Z.bits_0 by exact Hn.
  destruct (Z.ltb_spec n 32).
  - destruct (Z.testbit code n), (Z.testbit m n); reflexivity.
  - rewrite (testbit_high32 code n) by lia. apply andb_false_r.
Qed.

Lemma land_not32_other (m code c : Z) :
  0 <= c < 2 ^ 32 -> Z.land c code = 0 ->
  Z.land (Z.land m (not32 code)) c = Z.land m c.
Proof.
  intros Hc Hd. apply Z.bits_inj'. intros n Hn.
  rewrite !Z.land_spec, testbit_not32 by exact Hn.
  assert (B : Z.testbit c n && Z.testbit code n = false).
  { rewrite <- Z.land_spec, Hd. apply Z.bits_0. }
  destruct (Z.ltb_spec n 32).
  - destruct (Z.testbit code n), (Z.testbit m n), (Z.testbit c n);
      simpl in *; congruence.
  - rewrite (testbit_high32 c n) by lia. rewrite !andb_false_r. reflexivity.
Qed.

Lemma lor_land_not32 (m code : Z) :
  0 <= m < 2 ^ 32 -> 0 <= code < 2 ^ 32 -> Z.land m code = 0 ->
  Z.land (Z.lor m code) (not32 code) = m.
Proof.
  intros Hm Hc Hd. apply Z.bits_inj'. intros n Hn.
  rewrite Z.land_spec, Z.lor_spec, testbit_not32 by exact Hn.
  assert (B : Z.testbit m n && Z.testbit code n = false).
  { rewrite <- Z.land_spec, Hd. apply Z.bits_0. }
  destruct (Z.ltb_spec n 32).
  - destruct (Z.testbit code n), (Z.testbit m n); simpl in *; congruence.
  - rewrite (testbit_high32 m n), (testbit_high32 code n) by lia. reflexivity.
Qed.

(** X22.  The mask of opened windows, for 32-bit codes: after
    [windowOpened(code)] some window of a non-zero [code] is open, after
    [windowClosed(code)] none is; neither changes what [isAnyWindowOpen]
    answers for codes that share no bit with [code]; the mask stays a 32-bit
    value; and closing what was just opened restores the mask when none of
    the code's windows was open before. *)
Theorem opened_windows_mask (Settings : Type) (code : Z) (st : Z * Settings) :
  0 <= fst st < 2 ^ 32 ->
  0 <= code < 2 ^ 32 ->
  isAnyWindowOpen code (fst (windowOpened code st)) = negb (code =? 0)
  /\ isAnyWindowOpen code (fst (windowClosed code st)) = false
  /\ (forall c, 0 <= c < 2 ^ 32 -> Z.land c code = 0 ->
        isAnyWindowOpen c (fst (windowOpened code st)) = isAnyWindowOpen c st
        /\ isAnyWindowOpen c (fst (windowClosed code st)) = isAnyWindowOpen c st)
  /\ 0 <= fst (fst (windowOpened code st)) < 2 ^ 32
  /\ 0 <= fst (fst (windowClosed code st)) < 2 ^ 32
  /\ (isAnyWindowOpen code st = false ->
      fst (windowClosed code (fst (windowOpened code st))) = st).
Proof.
  destruct st as [m s]. unfold isAnyWindowOpen, windowOpened, windowClosed.
  cbn [fst snd]. intros Hm Hc.
  split; [|split; [|split; [|split; [|split]]]].
  - rewrite Z.land_lor_distr_l, Z.land_diag.
    f_equal. destruct (Z.eqb_spec code 0) as [->|Hne].
    + rewrite Z.land_0_r. reflexivity.
    + apply Z.eqb_neq. intros H. apply Z.lor_eq_0_iff in H. destruct H as [_ H].
      contradiction.
  - rewrite land_not32_self by exact Hc. reflexivity.
  - intros c Hc' Hd. split.
    + rewrite Z.land_lor_distr_l, (Z.land_comm code c), Hd, Z.lor_0_r. reflexivity.
    + rewrite land_not32_other by assumption. reflexivity.
  - apply below_pow32.
    + apply Z.lor_nonneg. lia.
    + intros n Hn. rewrite Z.lor_spec, !testbit_high32 by lia. reflexivity.
  - apply below_pow32.
    + apply Z.land_nonneg. lia.
    + intros n Hn. rewrite Z.land_spec, (testbit_high32 m) by lia. reflexivity.
  - intros H. apply negb_false_iff, Z.eqb_eq in H.
    rewrite lor_land_not32 by assumption. reflexivity.
Qed.

(** X23.  [checkPassword] never leaves a trace in the mask of opened
    windows: the bit of the password dialog it sets while the dialog is up is
    cleared again, in every outcome.  While the dialog is up a second call
    answers false without showing another one; with a protected window open,
    or with no password required, the call answers true without a dialog; a
    dismissed dialog, an empty or a wrong password leave the settings as they
    were.  A window whose code is not protected never asks. *)
Theorem checkPassword_keeps_mask (Settings : Type) (Protected Dialog' : Z)
    (isPasswordRequired passwordChecked : Settings -> bool)
    (setPasswordChecked : bool -> Z -> Settings -> Settings)
    (confCheckPassword : string -> bool) (box : PasswordBox) (st : Z * Settings) :
  let r := checkPassword Protected Dialog' isPasswordRequired passwordChecked
             setPasswordChecked confCheckPassword box st in
  0 <= fst st < 2 ^ 32 ->
  0 <= Dialog' < 2 ^ 32 ->
  fst (snd (fst r)) = fst st
  /\ (count_windows is_password_dialog (snd r) <= 1)%nat
  /\ (isAnyWindowOpen Dialog' st = true -> r = (false, st, [EvActivateModal]))
  /\ (isAnyWindowOpen Dialog' st = false ->
      isAnyWindowOpen Protected st = true \/ isPasswordRequired (snd st) = false ->
      r = (true, st, []))
  /\ (accepted box = false \/ password box = EmptyString
      \/ confCheckPassword (password box) = false ->
      snd (snd (fst r)) = snd st)
  /\ (forall code, Z.land Protected code = 0 ->
        checkWindowPassword Protected Dialog' isPasswordRequired passwordChecked
          setPasswordChecked confCheckPassword code box st = (true, st, [])).
Proof.
  cbv zeta. destruct st as [m s]. cbn [fst snd]. intros Hm Hd.
  unfold checkWindowPassword, checkPassword, windowOpened, windowClosed,
    showPasswordDialog, count_windows.
  split; [|split; [|split; [|split; [|split]]]].
  - destruct (isAnyWindowOpen Dialog' (m, s)) eqn:D; [reflexivity|].
    destruct (isAnyWindowOpen Protected (m, s)); [reflexivity|].
    destruct (negb (isPasswordRequired (snd (m, s)))); [reflexivity|].
    unfold isAnyWindowOpen in D. apply negb_false_iff, Z.eqb_eq in D.
    cbn [fst snd] in *.
    destruct (negb (accepted box)); [|destruct (String.eqb _ _);
      [|destruct (confCheckPassword _)]];
      cbn [fst snd]; apply lor_land_not32; assumption.
  - destruct (isAnyWindowOpen Dialog' (m, s)); [simpl; lia|].
    destruct (isAnyWindowOpen Protected (m, s)); [simpl; lia|].
    destruct (negb (isPasswordRequired (snd (m, s)))); simpl; lia.
  - intros ->. reflexivity.
  - intros -> [->|H]; [reflexivity|].
    cbn [snd]. rewrite H. destruct (isAnyWindowOpen Protected (m, s)); reflexivity.
  - intros H.
    destruct (isAnyWindowOpen Dialog' (m, s)); [reflexivity|].
    destruct (isAnyWindowOpen Protected (m, s)); [reflexivity|].
    destruct (negb (isPasswordRequired (snd (m, s)))); [reflexivity|].
    destruct (accepted box); cbn [negb]; [|reflexivity].
    destruct (String.eqb_spec (password box) EmptyString); [reflexivity|].
    destruct (confCheckPassword (password box)); [|reflexivity].
    destruct H as [H|[H|H]]; [discriminate|contradiction|discriminate].
  - intros code ->. reflexivity.
Qed.

(** ** The code at concrete inputs *)

(** A full update whose driver write fails: the call still returns true, and
    the row read back holds the values of the update. *)
Example updateApp_push_fails_row_stays :
  let w := sample_world [sample_row 1 "a" false false None] [] 0 [] [false] in
  let r := updateApp sample_writeAppEntry sample_writeConf
             (sample_app 1 "b" true false None) w in
  result r = true
  /\ count is_commit (events r) = 1%nat
  /\ In (EvWriteApp (sample_app 1 "b" true false None) false false) (events r)
  /\ In (EvErrorBox ErrDriverManager) (events r)
  /\ option_map (fun a => (appPath a, blocked a))
       (result (loadAppById (set_appId 1 sample_initApp) (world r)))
     = Some ("b"%string, true).
Proof.
  vm_compute. repeat split; auto 10.
Qed.

(** C1 (the code at the failing input).  A blocked-state update of a batch
    of eight stored entries that are all in the requested state already
    commits nothing and changes nothing, and still ends with one push of the
    full configuration to the driver: a driver sync attempt that no commit
    precedes. *)
Theorem updateAppsBlocked_unchanged_batch_syncs :
  let w := sample_world eight_rows [] 0 [] [] in
  let r := updateAppsBlocked sample_writeAppEntry sample_writeConf sample_initApp
             [1; 2; 3; 4; 5; 6; 7; 8] false false w in
  events r = [EvWriteConf false true]
  /\ count is_commit (events r) = 0%nat
  /\ sync_follows_commit (events r) = false
  /\ db (world r) = db w.
Proof.
  vm_compute. repeat split.
Qed.

(** C6 (the code at the failing input).  Deleting a batch of eight stored
    entries, none of them a wildcard, writes eight single-entry removals to
    the driver and no full configuration; the blocked-state update of the same
    batch, which starts its flag from [appIdList.size() > 7], ends with one
    full configuration. *)
Theorem deleteApps_eight_plain_entries :
  let w := sample_world eight_rows [] 0 [] [] in
  let r := deleteApps sample_writeAppEntry sample_writeConf sample_initApp
      sample_at_out_of_range
             [1; 2; 3; 4; 5; 6; 7; 8] w in
  let r' := updateAppsBlocked sample_writeAppEntry sample_writeConf sample_initApp
              [1; 2; 3; 4; 5; 6; 7; 8] true false w in
  app_rows (db (world r)) = []
  /\ count is_removal_push (events r) = 8%nat
  /\ count is_conf_push (events r) = 0%nat
  /\ count is_snapshot_push (events r') = 1%nat.
Proof.
  vm_compute. repeat split.
Qed.

(** C8 (the code at the failing input).  An add whose upsert succeeds and
    whose alert insert fails is committed, not rolled back: it returns true,
    emits [appChanged], writes the entry to the driver, and leaves the new row
    in the store without its alert record. *)
Theorem addApp_alert_failure_commits :
  let w := sample_world [] [] 0 [true; false] [] in
  let r := addApp sample_writeAppEntry sample_writeConf
             (sample_app 0 "a" false true None) w in
  filter (fun e => match e with EvExec _ => true | _ => false end) (events r)
  = [EvExec true; EvExec false]
  /\ result r = true
  /\ count is_commit (events r) = 1%nat
  /\ ~ In EvRollback (events r)
  /\ count is_emit (events r) = 1%nat
  /\ count is_entry_push (events r) = 1%nat
  /\ List.length (app_rows (db (world r))) = 1%nat
  /\ is_alerted 1 (db (world r)) = false.
Proof.
  vm_compute. repeat split; try reflexivity.
  intros H. repeat (destruct H as [H|H]; [discriminate|]). exact H.
Qed.

(** ** Counterexamples to the claims as stated *)

(** C3: a full update that passes [blocked = true] with an [endTime] persists
    both. *)
Lemma updateApp_blocked_keeps_end_time :
  let w := sample_world [sample_row 1 "a" false false None] [] 0 [] [] in
  let r := updateApp sample_writeAppEntry sample_writeConf
             (sample_app 1 "a" true false (Some 5)) w in
  no_blocked_deadline (db w) = true
  /\ result r = true
  /\ map (fun x => (Tbl.blocked x, Tbl.end_time x)) (app_rows (db (world r)))
     = [(true, Some 5)]
  /\ no_blocked_deadline (db (world r)) = false.
Proof.
  vm_compute. repeat split.
Qed.

(** C4: with deadlines 10 < 20 < 30, a firing at 25, which is after the first
    deadline, blocks entries 1 and 2 and leaves 30, not 20, as the deadline
    the timer is armed from. *)
Lemma updateAppEndTimes_after_second_deadline :
  let w := sample_world three_rows [] 25 [] [] in
  let r := updateAppEndTimes sample_writeAppEntry sample_writeConf sample_initApp w in
  10 <= currentMSecs w
  /\ map Tbl.blocked (app_rows (db (world r))) = [true; true; false]
  /\ min_end_time (app_rows (db (world r))) = Some 30
  /\ ~ is_min_pending (app_rows (db (world r))) 20.
Proof.
  vm_compute. repeat split; try discriminate.
  intros [(x & Hx & Hp & He) _].
  repeat (destruct Hx as [<-|Hx]; [discriminate|]). exact Hx.
Qed.

(** C7: a name update on an alerted entry succeeds and leaves it alerted. *)
Lemma updateAppName_leaves_alerted :
  let w := sample_world [] [] 0 [] [] in
  let w1 := world (logBlockedApp sample_initApp sample_normalizePath
                     sample_appInfoName "z" true w) in
  let r := updateAppName 1 "renamed" w1 in
  map Tbl.app_id (app_rows (db w1)) = [1]
  /\ is_alerted 1 (db w1) = true
  /\ result r = true
  /\ map Tbl.name (app_rows (db (world r))) = ["renamed"%string]
  /\ is_alerted 1 (db (world r)) = true.
Proof.
  vm_compute. repeat split.
Qed.

(** C9: a successful single-entry push whose encode computed mask 2, on a
    stored mask of 1, stores 3. *)
Lemma updateDriverUpdateApp_accumulates_mask :
  let w := sample_world [] [] 0 [] [] in
  let r := updateDriverUpdateApp sample_writeAppEntry
             (sample_app 1 "a" false false None) false w in
  m_driveMask w = 1
  /\ sample_writeAppEntry (sample_app 1 "a" false false None) = Some 2
  /\ result r = true
  /\ m_driveMask (world r) = 3
  /\ m_driveMask (world r) <> 2.
Proof.
  vm_compute. repeat split; discriminate.
Qed.

(** ** The theorems at concrete inputs *)

Lemma commit_precedes_sync_witness :
  let w := sample_world eight_rows [] 0 [] [false; false] in
  sync_follows_commit
    (events (updateAppsBlocked sample_writeAppEntry sample_writeConf sample_initApp
               [1; 2; 3; 4; 5; 6; 7; 8] true false w)) = true.
Proof.
  cbv zeta.
  refine (proj1 (proj2 (proj2 (proj2 (proj1 (proj2 (proj2 (proj2 (proj2
            (commit_precedes_sync sample_writeAppEntry sample_writeConf
               sample_initApp sample_at_out_of_range
               (sample_world eight_rows [] 0 [] [false; false]))))))
            [1; 2; 3; 4; 5; 6; 7; 8] true false)))) _).
  vm_compute. lia.
Defined.


Lemma blocked_rows_have_no_end_time_witness :
  let w := sample_world three_rows [1] 15 [] [] in
  let calls := [CallUpdateApp (sample_app 2 "p2" true false None);
                CallUpdateAppsBlocked [3] true false;
                CallUpdateAppEndTimes] in
  no_blocked_deadline
    (db (world (run_calls sample_writeAppEntry sample_writeConf sample_initApp
                  sample_normalizePath sample_appInfoName
                      sample_at_out_of_range calls w))) = true.
Proof.
  cbv zeta.
  apply (proj2 (blocked_rows_have_no_end_time sample_writeAppEntry sample_writeConf
                  sample_initApp sample_normalizePath sample_appInfoName sample_at_out_of_range
                  (sample_world three_rows [1] 15 [] []) _)).
  - reflexivity.
  - reflexivity.
Defined.

Lemma expiry_timer_fires_witness :
  let w := sample_world three_rows [1] 15 [] [] in
  let r := updateAppEndTimes sample_writeAppEntry sample_writeConf sample_initApp w in
  app_rows (db (world r))
  = [expired_row (sample_row 1 "p1" false false (Some 10));
     sample_row 2 "p2" false false (Some 20); sample_row 3 "p3" false false (Some 30)]
  /\ is_alerted 1 (db (world r)) = false
  /\ is_min_pending (app_rows (db (world r))) 20
  /\ appEndTimer (world r) = Some (timer_interval 20 15).
Proof.
  cbv zeta.
  refine (proj2 (expiry_timer_fires sample_writeAppEntry sample_writeConf sample_initApp
                   (sample_world three_rows [1] 15 [] []) _ _)
                (sample_row 1 "p1" false false (Some 10))
                (sample_row 2 "p2" false false (Some 20))
                (sample_row 3 "p3" false false (Some 30)) 10 20 30
                _ _ _ _ _ _ _ _ _ _ _);
    try reflexivity; simpl; lia.
Defined.

Lemma updateAppEndTimer_interval_witness :
  let w := sample_world [sample_row 1 "p1" false false (Some 50)] [] 1000 [] [] in
  appEndTimer (world (updateAppEndTimer w)) = Some (spec_interval 50 1000)
  /\ (50 <= 1000 -> appEndTimer (world (updateAppEndTimer w)) = Some 100).
Proof.
  cbv zeta.
  refine (proj1 (proj2 (updateAppEndTimer_interval
                          (sample_world [sample_row 1 "p1" false false (Some 50)]
                             [] 1000 [] []))) 50 _ _).
  - split.
    + exists (sample_row 1 "p1" false false (Some 50)). simpl. auto.
    + intros r t [<-|[]] _ E. simpl in E. injection E as <-. lia.
  - simpl. lia.
Defined.

Lemma alerted_after_operations_witness :
  let w := sample_world [] [] 0 [] [] in
  let r := logBlockedApp sample_initApp sample_normalizePath sample_appInfoName
             "z" true w in
  exists id s1,
    sqlUpsertApp
      (bindVars 0 10 (alertedApp sample_initApp sample_normalizePath
                        sample_appInfoName "z" true) (currentMSecs w)) (db w)
    = Some (id, s1)
    /\ app_rows (db (world r)) = app_rows s1
    /\ is_alerted id (db (world r)) = true
    /\ In (EvEmit appAlerted) (events r).
Proof.
  cbv zeta.
  refine (proj1 (alerted_after_operations sample_writeAppEntry sample_writeConf
                   sample_initApp sample_normalizePath sample_appInfoName
                   (sample_world [] [] 0 [] [])) "z"%string true 10 _ _ _).
  - simpl. lia.
  - reflexivity.
  - reflexivity.
Defined.

Lemma drive_mask_after_push_witness :
  let w := sample_world [] [] 0 [] [] in
  let r := updateDriverUpdateApp sample_writeAppEntry
             (sample_app 1 "a" false false None) false w in
  exists mask,
    sample_writeAppEntry (sample_app 1 "a" false false None) = Some mask
    /\ m_driveMask (world r) = Z.lor (m_driveMask w) mask.
Proof.
  cbv zeta.
  refine (proj1 (proj2 (drive_mask_after_push sample_writeAppEntry sample_writeConf
                          (sample_world [] [] 0 [] []))
                   (sample_app 1 "a" false false None) false) _).
  reflexivity.
Defined.

Lemma updateAppBlocked_same_state_noop_witness :
  let w := sample_world [sample_row 1 "p1" false false (Some 50)] [] 0 [true] [] in
  let w' := sample_world [sample_row 1 "p1" false false (Some 50)] [] 0 [] [] in
  updateAppBlocked sample_writeAppEntry sample_initApp 1 false false false w
  = ((false, false), w', [])
  /\ updateAppsBlocked sample_writeAppEntry sample_writeConf sample_initApp
       [1] false false w = (tt, w', []).
Proof.
  cbv zeta.
  apply (updateAppBlocked_same_state_noop sample_writeAppEntry sample_writeConf
           sample_initApp
           (sample_world [sample_row 1 "p1" false false (Some 50)] [] 0 [true] [])
           1 (sample_row 1 "p1" false false (Some 50)) false).
  - reflexivity.
  - reflexivity.
Defined.

(** ** Further theorems at concrete inputs *)

Lemma invalid_group_rejected_witness :
  let w := sample_world three_rows [] 0 [] [] in
  let app := sample_group_app 5 None in
  addOrUpdateApp app w = (false, w, [])
  /\ addApp sample_writeAppEntry sample_writeConf app w = (false, w, [])
  /\ updateApp sample_writeAppEntry sample_writeConf app w = (false, w, []).
Proof.
  cbv zeta.
  apply (invalid_group_rejected sample_writeAppEntry sample_writeConf
           (sample_group_app 5 None) (sample_world three_rows [] 0 [] [])).
  reflexivity.
Defined.

Lemma updateAppsBlocked_missing_ids_witness :
  let w := sample_world three_rows [] 0 [true; false; true] [] in
  updateAppsBlocked sample_writeAppEntry sample_writeConf sample_initApp
    [7; 8] true false w = (tt, after_statements 2 w, []).
Proof.
  cbv zeta.
  refine (proj1 (proj2 (updateAppsBlocked_missing_ids sample_writeAppEntry
                          sample_writeConf sample_initApp [7; 8] true false
                          (sample_world three_rows [] 0 [true; false; true] []) _)) _).
  - intros id [<-|[<-|[]]]; reflexivity.
  - simpl. lia.
Defined.

Lemma update_of_missing_id_succeeds_witness :
  let w := sample_world three_rows [] 0 [] [] in
  let r := updateAppName 9 "n" w in
  result r = true /\ db (world r) = db w
  /\ count is_updated_emit (events r) = 1%nat
  /\ count is_sync_attempt (events r) = 0%nat.
Proof.
  cbv zeta.
  refine (proj2 (update_of_missing_id_succeeds sample_writeAppEntry sample_writeConf
                   (sample_world three_rows [] 0 [] []) _) 9 "n"%string _).
  - reflexivity.
  - reflexivity.
Defined.

Lemma updateApp_then_loadAppById_witness :
  let w := sample_world three_rows [2] 0 [] [] in
  let app := sample_app 2 "q" true false None in
  let r := updateApp sample_writeAppEntry sample_writeConf app w in
  result (loadAppById (set_appId 2 sample_initApp) (world r))
  = Some (reloaded app sample_initApp false).
Proof.
  cbv zeta.
  refine (proj1 (updateApp_then_loadAppById sample_writeAppEntry sample_writeConf
                   (sample_app 2 "q" true false None) sample_initApp
                   (sample_world three_rows [2] 0 [] [])
                   (sample_row 2 "p2" false false (Some 20)) _ _ _) _).
  - simpl. repeat constructor; simpl; lia.
  - reflexivity.
  - reflexivity.
  - reflexivity.
Defined.

Lemma addOrUpdateApp_then_appIdByPath_witness :
  let w := sample_world three_rows [] 7 [] [] in
  let app := sample_app 0 "a" false true None in
  let r := addOrUpdateApp app w in
  exists gid id s1,
    appGroupAt (groups w) (groupIndex app) = Some gid
    /\ sqlUpsertApp (bindVars 0 gid app (currentMSecs w)) (db w) = Some (id, s1)
    /\ result (appIdByPath (appPath app) (world r)) = id
    /\ (forallb (fun x => 0 <? Tbl.app_id x) (app_rows (db w)) = true -> 0 < id).
Proof.
  cbv zeta.
  apply (addOrUpdateApp_then_appIdByPath (sample_app 0 "a" false true None)
           (sample_world three_rows [] 7 [] [])).
  - discriminate.
  - reflexivity.
Defined.

Lemma logBlockedApp_twice_witness :
  let w := sample_world three_rows [] 0 [] [] in
  let w1 := world (logBlockedApp sample_initApp sample_normalizePath
                     sample_appInfoName "z" true w) in
  logBlockedApp sample_initApp sample_normalizePath sample_appInfoName "z" false w1
  = (tt, w1, []).
Proof.
  cbv zeta.
  apply (logBlockedApp_twice sample_initApp sample_normalizePath sample_appInfoName
           "z"%string true false (sample_world three_rows [] 0 [] []) 10).
  - reflexivity.
  - discriminate.
  - reflexivity.
  - reflexivity.
Defined.

Lemma deleteApp_then_lookups_witness :
  let w := sample_world three_rows [2] 0 [] [] in
  let res := deleteApp sample_writeAppEntry sample_initApp sample_at_out_of_range 2 false w in
  fst (result res) = true
  /\ app_rows (db (world res))
     = filter (fun y => negb (has_id 2 y)) (app_rows (db w))
  /\ is_alerted 2 (db (world res)) = false
  /\ (forall j, j <> 2 -> is_alerted j (db (world res)) = is_alerted j (db w))
  /\ result (loadAppById (set_appId 2 sample_initApp) (world res)) = None
  /\ (forall P, rows_at P (db w) = [sample_row 2 "p2" false false (Some 20)] ->
                result (appIdByPath P (world res)) = 0).
Proof.
  cbv zeta.
  apply (deleteApp_then_lookups sample_writeAppEntry sample_initApp sample_at_out_of_range 2
           (sample_row 2 "p2" false false (Some 20)) false sample_initApp
           (sample_world three_rows [2] 0 [] [])).
  - reflexivity.
  - reflexivity.
Defined.

Lemma timer_left_alone_witness :
  let w := set_appEndTimer (Some 100) (sample_world three_rows [] 0 [] []) in
  let app := sample_app 1 "p1" false false None in
  appEndTimer (world (addApp sample_writeAppEntry sample_writeConf app w))
  = appEndTimer w
  /\ appEndTimer (world (updateApp sample_writeAppEntry sample_writeConf app w))
     = appEndTimer w.
Proof.
  cbv zeta.
  refine (proj2 (proj2 (proj2 (proj2
            (timer_left_alone sample_writeAppEntry sample_writeConf sample_initApp
                sample_at_out_of_range
               (set_appEndTimer (Some 100) (sample_world three_rows [] 0 [] []))))))
            (sample_app 1 "p1" false false None) _).
  reflexivity.
Defined.

Lemma updateAppEndTimes_nothing_ended_witness :
  let w := sample_world three_rows [] 5 [true] [] in
  updateAppEndTimes sample_writeAppEntry sample_writeConf sample_initApp w
  = (tt,
     set_appEndTimer
       match min_end_time (app_rows (db w)) with
       | Some m => Some (timer_interval m (currentMSecs w))
       | None => None
       end (set_sqlOutcomes (tl (sqlOutcomes w)) w),
     []).
Proof.
  cbv zeta.
  refine (proj1 (proj1 (updateAppEndTimes_nothing_ended sample_writeAppEntry
                          sample_writeConf sample_initApp
                          (sample_world three_rows [] 5 [true] []) _) _)).
  - intros r [<-|[<-|[<-|[]]]]; reflexivity.
  - reflexivity.
Defined.

Lemma schema_is_kept_witness :
  let w := sample_world three_rows [1] 15 [] [false] in
  let calls := [CallAddApp (sample_app 0 "p2" true false None);
                CallDeleteApps [1; 3];
                CallLogBlockedApp "z" true;
                CallUpdateAppEndTimes] in
  let w' := world (run_calls sample_writeAppEntry sample_writeConf sample_initApp
                     sample_normalizePath sample_appInfoName sample_at_out_of_range calls w) in
  store_wf (groups w') (db w') = true.
Proof.
  cbv zeta.
  apply (schema_is_kept sample_writeAppEntry sample_writeConf sample_initApp
           sample_normalizePath sample_appInfoName sample_at_out_of_range).
  reflexivity.
Defined.

Lemma purgeApps_removes_obsolete_witness :
  let w := sample_world three_rows [1; 2] 0 [] [] in
  let r := purgeApps sample_writeAppEntry sample_writeConf sample_initApp sample_at_out_of_range
             sample_isDriveFilePath sample_fileExists w in
  let gone := fun x => obsolete_path sample_isDriveFilePath sample_fileExists
                         (columnText (Tbl.path x)) in
  result r = true
  /\ app_rows (db (world r)) = filter (fun x => negb (gone x)) (app_rows (db w))
  /\ (forall x, In x (app_rows (db w)) -> gone x = true ->
                is_alerted (Tbl.app_id x) (db (world r)) = false)
  /\ (forall i, (forall x, In x (app_rows (db w)) -> gone x = true -> Tbl.app_id x <> i) ->
                is_alerted i (db (world r)) = is_alerted i (db w))
  /\ count is_commit (events r) = List.length (filter gone (app_rows (db w))).
Proof.
  cbv zeta.
  apply (purgeApps_removes_obsolete sample_writeAppEntry sample_writeConf
           sample_initApp sample_at_out_of_range sample_isDriveFilePath sample_fileExists
           (sample_world three_rows [1; 2] 0 [] [])).
  - reflexivity.
  - reflexivity.
Defined.

Lemma purgeApps_without_work_witness :
  let w := sample_world [sample_row 2 "p2" false false None] [] 0 [] [] in
  purgeApps sample_writeAppEntry sample_writeConf sample_initApp sample_at_out_of_range
    sample_isDriveFilePath sample_fileExists w
  = (true, set_sqlOutcomes (tl (sqlOutcomes w)) w, []).
Proof.
  cbv zeta.
  refine (proj1 (proj2 (purgeApps_without_work sample_writeAppEntry sample_writeConf
                          sample_initApp
                              sample_at_out_of_range sample_isDriveFilePath sample_fileExists
                          (sample_world [sample_row 2 "p2" false false None]
                             [] 0 [] []))) _ _).
  - reflexivity.
  - intros x [<-|[]]. reflexivity.
Defined.

Lemma drive_change_resyncs_witness :
  let w := sample_world three_rows [] 0 [] [] in
  onDriveMaskChanged sample_writeConf 2 w = (tt, w, [])
  /\ count is_sync_attempt
       (events (onDriveMaskChanged sample_writeConf 2
                  (world (updateDriverUpdateApp sample_writeAppEntry
                            (sample_app 1 "p1" false false None) false w)))) = 1%nat.
Proof.
  cbv zeta. split.
  - refine (proj1 (drive_change_resyncs sample_writeAppEntry sample_writeConf 2
                     (sample_world three_rows [] 0 [] [])) _).
    reflexivity.
  - refine (proj2 (proj2 (drive_change_resyncs sample_writeAppEntry sample_writeConf 2
                            (sample_world three_rows [] 0 [] [])))
              (sample_app 1 "p1" false false None) 2 _ _ _).
    + reflexivity.
    + reflexivity.
    + simpl. lia.
Defined.

Lemma walkApps_visits_witness :
  let w := sample_world three_rows [3] 0 [] [] in
  let accept := fun a => negb (appId a =? 2) in
  let r := walkApps sample_initApp (fun a (st : list App) => (accept a, st ++ [a])) [] w in
  let apps := map (fillApp (newApp sample_initApp)) (sqlSelectApps (groups w) (db w)) in
  fst (result r) = forallb accept apps
  /\ snd (result r) = through_first_rejected accept apps
  /\ (fst (result r) = true -> snd (result r) = apps)
  /\ (exists rest, apps = snd (result r) ++ rest).
Proof.
  cbv zeta.
  refine (proj1 (walkApps_visits sample_initApp (fun a => negb (appId a =? 2))
                   (sample_world three_rows [3] 0 [] [])) _).
  reflexivity.
Defined.

Lemma save_keeps_blocked_rows_without_end_time_witness :
  let w := sample_world three_rows [] 1000 [] [] in
  no_blocked_deadline
    (db (world (save sample_writeAppEntry sample_writeConf sample_initApp
                  sample_normalizePath sample_isOptionsEqual sample_isNameEqual
                  sample_appRowById (sample_dialog [1; 2] "a") w))) = true.
Proof.
  cbv zeta.
  apply (save_keeps_blocked_rows_without_end_time sample_writeAppEntry sample_writeConf
           sample_initApp sample_normalizePath sample_isOptionsEqual sample_isNameEqual
           sample_appRowById (sample_dialog [1; 2] "a")
           (sample_world three_rows [] 1000 [] [])).
  reflexivity.
Defined.

Lemma save_block_in_arms_timer_witness :
  let w := sample_world [] [] 1000 [] [] in
  let d := sample_dialog [] "a" in
  let r := save sample_writeAppEntry sample_writeConf sample_initApp
             sample_normalizePath sample_isOptionsEqual sample_isNameEqual
             sample_appRowById d w in
  (exists x, In x (app_rows (db (world r)))
             /\ Tbl.end_time x = Some (1000 + 6 * 60 * 60 * 1000)
             /\ Tbl.blocked x = false)
  /\ exists i, appEndTimer (world r) = Some i /\ 100 <= i <= 24 * 60 * 60 * 1000.
Proof.
  cbv zeta.
  refine (proj2 (save_block_in_arms_timer sample_writeAppEntry sample_writeConf
                   sample_initApp sample_normalizePath sample_isOptionsEqual
                   sample_isNameEqual sample_appRowById (sample_dialog [] "a")
                   (sample_world [] [] 1000 [] []) _ _ _ _ _) _).
  - reflexivity.
  - reflexivity.
  - reflexivity.
  - unfold BLOCK_IN_HOURS_MAX. simpl. lia.
  - simpl. lia.
  - reflexivity.
Defined.

Lemma save_without_effect_witness :
  let w := sample_world three_rows [] 1000 [] [] in
  save sample_writeAppEntry sample_writeConf sample_initApp sample_normalizePath
    sample_isOptionsEqual sample_isNameEqual sample_appRowById
    (sample_dialog [1] EmptyString) w = (false, w, [])
  /\ save sample_writeAppEntry sample_writeConf sample_initApp sample_normalizePath
       sample_isOptionsEqual sample_isNameEqual sample_appRowById
       (sample_dialog [1] "a") w = (true, w, []).
Proof.
  cbv zeta. split.
  - refine (proj1 (save_without_effect sample_writeAppEntry sample_writeConf
                     sample_initApp sample_normalizePath sample_isOptionsEqual
                     sample_isNameEqual sample_appRowById
                     (sample_dialog [1] EmptyString)
                     (sample_world three_rows [] 1000 [] [])) _ _).
    + simpl. lia.
    + reflexivity.
  - refine (proj2 (save_without_effect sample_writeAppEntry sample_writeConf
                     sample_initApp sample_normalizePath sample_isOptionsEqual
                     sample_isNameEqual sample_appRowById
                     (sample_dialog [1] "a")
                     (sample_world three_rows [] 1000 [] [])) 1 _ _ _ _).
    + reflexivity.
    + reflexivity.
    + reflexivity.
    + reflexivity.
Defined.

Lemma timer_agrees_with_store_witness :
  let w := sample_world three_rows [] 15 [true; true; true] [] in
  let w' := world (updateAppEndTimes sample_writeAppEntry sample_writeConf
                     sample_initApp w) in
  appEndTimer w' = timer_of (db w') (currentMSecs w').
Proof.
  cbv zeta.
  refine (proj1 (proj1 (proj2
            (timer_agrees_with_store sample_writeAppEntry sample_writeConf
               sample_initApp sample_at_out_of_range sample_isDriveFilePath sample_fileExists
               (sample_world three_rows [] 15 [true; true; true] [])))) _).
  reflexivity.
Defined.

Lemma FortManager_updateDriverConf_bracket_witness :
  let w := sample_world three_rows [] 0 [] [] in
  let r := FortManager_updateDriverConf sample_writeConf false w in
  sample_writeConf false (groups w) (db w) = Some (m_driveMask (snd (fst r))).
Proof.
  cbv zeta.
  refine (proj1 (proj2 (proj2 (proj2
            (FortManager_updateDriverConf_bracket sample_writeConf false
               (sample_world three_rows [] 0 [] []))))) _).
  reflexivity.
Defined.

Lemma opened_windows_mask_witness :
  let st := (3, tt) in
  isAnyWindowOpen 4 (fst (windowOpened 4 st)) = negb (4 =? 0)
  /\ isAnyWindowOpen 4 (fst (windowClosed 4 st)) = false
  /\ (forall c, 0 <= c < 2 ^ 32 -> Z.land c 4 = 0 ->
        isAnyWindowOpen c (fst (windowOpened 4 st)) = isAnyWindowOpen c st
        /\ isAnyWindowOpen c (fst (windowClosed 4 st)) = isAnyWindowOpen c st)
  /\ 0 <= fst (fst (windowOpened 4 st)) < 2 ^ 32
  /\ 0 <= fst (fst (windowClosed 4 st)) < 2 ^ 32
  /\ (isAnyWindowOpen 4 st = false ->
      fst (windowClosed 4 (fst (windowOpened 4 st))) = st).
Proof.
  cbv zeta.
  apply (opened_windows_mask unit 4 (3, tt)).
  - simpl. lia.
  - simpl. lia.
Defined.

Lemma checkPassword_keeps_mask_witness :
  let st := (1, false) in
  let r := checkPassword 6 8 negb (fun s : bool => s) (fun c _ _ => c)
             (String.eqb "pw") sample_box st in
  fst (snd (fst r)) = 1
  /\ (count_windows is_password_dialog (snd r) <= 1)%nat
  /\ (isAnyWindowOpen 8 st = true -> r = (false, st, [EvActivateModal]))
  /\ (isAnyWindowOpen 8 st = false ->
      isAnyWindowOpen 6 st = true \/ negb (snd st) = false ->
      r = (true, st, []))
  /\ (accepted sample_box = false \/ password sample_box = EmptyString
      \/ String.eqb "pw" (password sample_box) = false ->
      snd (snd (fst r)) = snd st)
  /\ (forall code, Z.land 6 code = 0 ->
        checkWindowPassword 6 8 negb (fun s : bool => s) (fun c _ _ => c)
          (String.eqb "pw") code sample_box st = (true, st, [])).
Proof.
  cbv zeta.
  apply (checkPassword_keeps_mask bool 6 8 negb (fun s : bool => s) (fun c _ _ => c)
           (String.eqb "pw") sample_box (1, false)).
  - simpl. lia.
  - simpl. lia.
Defined.

Lemma failed_statement_rolls_back_witness :
  let w := sample_world three_rows [2] 0 [true; false] [] in
  let r := updateApp sample_writeAppEntry sample_writeConf
             (sample_app 2 "q" true false None) w in
  result r = false /\ db (world r) = db w /\ In EvRollback (events r)
  /\ count is_emit (events r) = 0%nat
  /\ count is_sync_attempt (events r) = 0%nat.
Proof.
  cbv zeta.
  refine (proj1 (failed_statement_rolls_back sample_writeAppEntry sample_writeConf
                   sample_initApp
                       sample_at_out_of_range (sample_world three_rows [2] 0 [true; false] []))
            (sample_app 2 "q" true false None) _).
  simpl. auto.
Defined.

Lemma addApp_failure_leaves_no_trace_witness :
  let w := sample_world three_rows [] 0 [false] [] in
  let r := addApp sample_writeAppEntry sample_writeConf
             (sample_app 0 "a" false false None) w in
  db (world r) = db w
  /\ count is_emit (events r) = 0%nat
  /\ count is_sync_attempt (events r) = 0%nat.
Proof.
  cbv zeta.
  apply (addApp_failure_leaves_no_trace sample_writeAppEntry sample_writeConf
           (sample_app 0 "a" false false None)
           (sample_world three_rows [] 0 [false] [])).
  reflexivity.
Defined.

Lemma deleteApps_driver_writes_witness :
  let w := sample_world three_rows [] 0 [] [] in
  let evs := events (deleteApps sample_writeAppEntry sample_writeConf sample_initApp
      sample_at_out_of_range
                       [1; 3] w) in
  count is_removal_push evs = 2%nat
  /\ count is_entry_push evs = 2%nat
  /\ count is_conf_push evs = 0%nat.
Proof.
  cbv zeta.
  refine (proj2 (deleteApps_driver_writes sample_writeAppEntry sample_writeConf
                   sample_initApp
                       sample_at_out_of_range (sample_world three_rows [] 0 [] []) _ _ _)
            [1; 3] _ _).
  - reflexivity.
  - intros a. discriminate.
  - intros f gs s. discriminate.
  - repeat constructor; simpl; lia.
  - intros id [<-|[<-|[]]]; eexists; split; reflexivity.
Defined.

Lemma updateAppEndTimes_twice_witness :
  let w := sample_world three_rows [1] 15 [true; true; true; true] [] in
  let w1 := world (updateAppEndTimes sample_writeAppEntry sample_writeConf
                     sample_initApp w) in
  updateAppEndTimes sample_writeAppEntry sample_writeConf sample_initApp w1
  = (tt, set_sqlOutcomes (tl (sqlOutcomes w1)) w1, []).
Proof.
  cbv zeta.
  apply (updateAppEndTimes_twice sample_writeAppEntry sample_writeConf sample_initApp
           (sample_world three_rows [1] 15 [true; true; true; true] [])).
  - reflexivity.
  - reflexivity.
Defined.

Lemma updateAppsBlocked_sets_state_witness :
  let w := sample_world three_rows [2] 0 [] [] in
  let s' := db (world (updateAppsBlocked sample_writeAppEntry sample_writeConf
                         sample_initApp [1; 2] true false w)) in
  map Tbl.app_id (app_rows s') = map Tbl.app_id (app_rows (db w))
  /\ (forall x, In x (app_rows s') -> In (Tbl.app_id x) [1; 2] ->
        Tbl.blocked x = true /\ Tbl.kill_process x = false
        /\ is_alerted (Tbl.app_id x) s' = false)
  /\ (forall x, In x (app_rows s') -> ~ In (Tbl.app_id x) [1; 2] ->
        In x (app_rows (db w)))
  /\ (forall i, ~ In i [1; 2] -> is_alerted i s' = is_alerted i (db w)).
Proof.
  cbv zeta.
  apply (updateAppsBlocked_sets_state sample_writeAppEntry sample_writeConf
           sample_initApp [1; 2] true false (sample_world three_rows [2] 0 [] [])).
  - reflexivity.
  - reflexivity.
  - intros id [<-|[<-|[]]]; reflexivity.
Defined.

Lemma addApp_then_deleteApps_witness :
  let w := sample_world three_rows [2] 0 [] [] in
  let app := sample_app 0 "a" false true None in
  let w1 := world (addApp sample_writeAppEntry sample_writeConf app w) in
  let id := result (appIdByPath (appPath app) w1) in
  result (addApp sample_writeAppEntry sample_writeConf app w) = true
  /\ id = next_rowid (app_rows (db w))
  /\ db (world (deleteApps sample_writeAppEntry sample_writeConf sample_initApp
      sample_at_out_of_range
                  [id] w1)) = db w.
Proof.
  cbv zeta.
  apply (addApp_then_deleteApps sample_writeAppEntry sample_writeConf sample_initApp
      sample_at_out_of_range
           (sample_app 0 "a" false true None)
           (sample_world three_rows [2] 0 [] []) 10).
  - discriminate.
  - reflexivity.
  - reflexivity.
  - reflexivity.
  - intros i H. unfold is_alerted in H. simpl in H. rewrite orb_false_r in H.
    apply Z.eqb_eq in H. subst i. reflexivity.
Defined.
